(** * ckpool extensions: input validation, slab pool, rate limiter,
      event ring and relay protocol

    A shallow embedding of the C sources under [services/ckpool/src] and
    the properties their specification states about them.

    Conventions.
    - A C string argument is a [string] buffer read up to its first NUL
      byte; a pointer argument that may be NULL is an [option].
    - Fixed-width integers are [Z] with the wrap-around written out
      ([wrap32u], [wrap32s], [wrap64u]); [time_t] is an unbounded [Z]
      (signed overflow of a 64-bit clock is not modelled).
    - [time(NULL)] is an explicit [now] argument.
    - Global state is passed explicitly. *)

From Stdlib Require Import ZArith List String Ascii Bool Lia.
From stdpp Require Import base list.
From coqutil Require Import Byte.
Import ListNotations.

(** ** Fixed-width integers *)

Module CInt.
Local Open Scope Z_scope.

(** Value of a [uint32_t] after reduction modulo [2^32]. *)
Definition wrap32u (z : Z) : Z := z mod 2 ^ 32.

(** Value of a [uint64_t] after reduction modulo [2^64]. *)
Definition wrap64u (z : Z) : Z := z mod 2 ^ 64.

(** Value of an [int32_t] after two's complement wrap-around, as the
    atomic read-modify-write operations on signed objects behave. *)
Definition wrap32s (z : Z) : Z := (z + 2 ^ 31) mod 2 ^ 32 - 2 ^ 31.

Definition INT_MAX : Z := 2 ^ 31 - 1.
Definition INT_MIN : Z := - 2 ^ 31.

Definition int_range (z : Z) : Prop := INT_MIN <= z <= INT_MAX.

End CInt.

(** ** C library helpers shared by the modules *)

Module CLib.

Definition NUL : ascii := "000"%char.

Definition is_nul (c : ascii) : bool := Ascii.eqb c NUL.

(** [strlen]: number of bytes before the first NUL. *)
Fixpoint strlen (s : string) : nat :=
  match s with
  | EmptyString => 0
  | String c r => if is_nul c then 0 else S (strlen r)
  end.

(** The C string held in a buffer: the bytes before the first NUL. *)
Fixpoint c_str (s : string) : string :=
  match s with
  | EmptyString => EmptyString
  | String c r => if is_nul c then EmptyString else String c (c_str r)
  end.

(** [s[i]]; reading the terminator (or past the buffer) yields NUL. *)
Definition char_at (s : string) (i : nat) : ascii :=
  match String.get i s with
  | Some c => c
  | None => NUL
  end.

(** [s + n] *)
Fixpoint advance (n : nat) (s : string) : string :=
  match n, s with
  | O, _ => s
  | S n', String _ r => advance n' r
  | S _, EmptyString => EmptyString
  end.

(** [tolower] in the C locale. *)
Definition tolower (c : ascii) : ascii :=
  let n := nat_of_ascii c in
  if (65 <=? n)%nat && (n <=? 90)%nat then ascii_of_nat (n + 32) else c.

Definition isupper (c : ascii) : bool :=
  let n := nat_of_ascii c in (65 <=? n)%nat && (n <=? 90)%nat.

Definition islower (c : ascii) : bool :=
  let n := nat_of_ascii c in (97 <=? n)%nat && (n <=? 122)%nat.

(** [strchr(s, c) != NULL]: the terminator counts as part of the
    string, so NUL is always found. *)
Fixpoint strchr_found (s : string) (c : ascii) : bool :=
  match s with
  | EmptyString => is_nul c
  | String d r =>
      if Ascii.eqb d c then true
      else if is_nul d then false
      else strchr_found r c
  end.

(** [strncasecmp(s1, s2, n)]: difference of the first pair of
    lower-cased bytes that differ among the first [n], 0 if none. *)
Fixpoint strncasecmp (s1 s2 : string) (n : nat) : Z :=
  match n with
  | O => 0%Z
  | S n' =>
      let c1 := tolower (char_at s1 0) in
      let c2 := tolower (char_at s2 0) in
      if negb (Ascii.eqb c1 c2)
      then (Z.of_nat (nat_of_ascii c1) - Z.of_nat (nat_of_ascii c2))%Z
      else if is_nul c1 then 0%Z
      else strncasecmp (advance 1 s1) (advance 1 s2) n'
  end.

End CLib.

(** ** input_validation.c: Bitcoin address shape check *)

Module InputValidation.
Import CLib.

Definition MAX_BTC_ADDRESS_LEN : nat := 90.

Definition BASE58_CHARS : string :=
  "123456789ABCDEFGHJKLMNPQRSTUVWXYZabcdefghijkmnopqrstuvwxyz".

Definition BECH32_CHARS : string := "qpzry9x8gf2tvdw0s3jn54khce6mua7l".

Definition is_base58_char (c : ascii) : bool := strchr_found BASE58_CHARS c.

(** The [for (i = 0; i < len; i++)] loop of [validate_base58_address]. *)
Fixpoint base58_loop (s : string) (len : nat) : bool :=
  match len with
  | O => true
  | S len' =>
      if negb (is_base58_char (char_at s 0)) then false
      else base58_loop (advance 1 s) len'
  end.

Definition validate_base58_address (address : option string) : bool :=
  match address with
  | None => false
  | Some a =>
      let len := strlen a in
      if (len <? 25)%nat || (34 <? len)%nat then false
      else base58_loop a len
  end.

(** The [for (i = 0; data_part[i]; i++)] loop of
    [validate_bech32_address]. *)
Fixpoint bech32_data_loop (data_part : string) : bool :=
  match data_part with
  | EmptyString => true
  | String d r =>
      if is_nul d then true
      else
        let c := tolower d in
        if negb (strchr_found BECH32_CHARS c) then false
        else bech32_data_loop r
  end.

Definition validate_bech32_address (address : option string) : bool :=
  match address with
  | None => false
  | Some a =>
      let len := strlen a in
      if (len <? 14)%nat || (74 <? len)%nat then false
      else if negb (strncasecmp a "bc1" 3 =? 0)%Z &&
              negb (strncasecmp a "tb1" 3 =? 0)%Z then false
      else if negb (Ascii.eqb (tolower (char_at a 3)) "q") &&
              negb (Ascii.eqb (tolower (char_at a 3)) "p") then false
      else bech32_data_loop (advance 4 a)
  end.

Definition tbg_validate_btc_address (address : option string) : bool :=
  match address with
  | None => false
  | Some a =>
      let len := strlen a in
      if (len =? 0)%nat || (MAX_BTC_ADDRESS_LEN <? len)%nat then false
      else
        let c0 := char_at a 0 in
        if Ascii.eqb c0 "1" || Ascii.eqb c0 "3" || Ascii.eqb c0 "m" ||
           Ascii.eqb c0 "n" || Ascii.eqb c0 "2"
        then validate_base58_address address
        else if (strncasecmp a "bc1" 3 =? 0)%Z ||
                (strncasecmp a "tb1" 3 =? 0)%Z
        then validate_bech32_address address
        else false
  end.

(** *** Vocabulary of the specification *)

(** The address starts, case-insensitively, with [bc1] or [tb1]. *)
Definition segwit_prefix (a : string) : Prop :=
  ((tolower (char_at a 0) = "b"%char /\ tolower (char_at a 1) = "c"%char) \/
   (tolower (char_at a 0) = "t"%char /\ tolower (char_at a 1) = "b"%char)) /\
  char_at a 2 = "1"%char.

(** Membership in the bech32 alphabet, as a list of its 32 characters. *)
Definition in_bech32_charset (c : ascii) : Prop :=
  In c (list_ascii_of_string BECH32_CHARS).

(** The shape the specification asks of a segwit address. *)
Definition bech32_shape (a : string) : Prop :=
  (14 <= strlen a <= 74)%nat /\
  (tolower (char_at a 3) = "q"%char \/ tolower (char_at a 3) = "p"%char) /\
  (forall i, (3 <= i < strlen a)%nat ->
             in_bech32_charset (tolower (char_at a i))).

(** The string holds both an upper-case and a lower-case letter. *)
Fixpoint has_upper (s : string) : bool :=
  match s with
  | EmptyString => false
  | String c r => if is_nul c then false else isupper c || has_upper r
  end.

Fixpoint has_lower (s : string) : bool :=
  match s with
  | EmptyString => false
  | String c r => if is_nul c then false else islower c || has_lower r
  end.

Definition mixed_case (s : string) : bool := has_upper s && has_lower s.

(** The P2WPKH example address of BIP173, and the same address with its
    witness-version character in upper case. *)
Definition bip173_address : string :=
  "bc1qw508d6qejxtdg4y5r3zarvary0c5xw7kv8f3t4".

Definition mixed_case_address : string :=
  "bc1Qw508d6qejxtdg4y5r3zarvary0c5xw7kv8f3t4".


(** *** Hex fields *)

Definition MAX_WORKER_NAME_LEN : nat := 128.
Definition MAX_NTIME_LEN : nat := 8.
Definition MAX_VERSION_BITS_LEN : nat := 8.
Definition MAX_JSON_NESTING : Z := 3.
Definition LOG_INPUT_TRUNCATE : nat := 64.

Definition is_hex_char (c : ascii) : bool :=
  let n := nat_of_ascii c in
  ((48 <=? n)%nat && (n <=? 57)%nat) ||
  ((97 <=? n)%nat && (n <=? 102)%nat) ||
  ((65 <=? n)%nat && (n <=? 70)%nat).

(** The [for (i = 0; i < len; i++)] loop of the two hex validators. *)
Fixpoint hex_loop (hex : string) (len : nat) : bool :=
  match len with
  | O => true
  | S len' =>
      if negb (is_hex_char (char_at hex 0)) then false
      else hex_loop (advance 1 hex) len'
  end.

Definition tbg_validate_hex_string (hex : option string) (expected_len : nat)
  : bool :=
  match hex with
  | None => false
  | Some h =>
      if negb (strlen h =? expected_len)%nat then false
      else hex_loop h expected_len
  end.

Definition tbg_validate_hex_string_max (hex : option string) (max_len : nat)
  : bool :=
  match hex with
  | None => false
  | Some h =>
      let len := strlen h in
      if (len =? 0)%nat || (max_len <? len)%nat then false
      else hex_loop h len
  end.

(** *** Worker name *)

(** [isalnum] in the C locale. *)
Definition isalnum (c : ascii) : bool :=
  let n := nat_of_ascii c in
  ((48 <=? n)%nat && (n <=? 57)%nat) ||
  ((65 <=? n)%nat && (n <=? 90)%nat) ||
  ((97 <=? n)%nat && (n <=? 122)%nat).

(** The [for (p = name; *p; p++)] loop of [tbg_validate_worker_name]. *)
Fixpoint worker_name_loop (p : string) : bool :=
  match p with
  | EmptyString => true
  | String c r =>
      if is_nul c then true
      else if negb (isalnum c) && negb (Ascii.eqb c "_") &&
              negb (Ascii.eqb c "-") && negb (Ascii.eqb c ".") then false
      else worker_name_loop r
  end.

Definition tbg_validate_worker_name (name : option string) : bool :=
  match name with
  | None => false
  | Some nm =>
      let len := strlen nm in
      if (len =? 0)%nat || (MAX_WORKER_NAME_LEN <? len)%nat then false
      else worker_name_loop nm
  end.

(** *** ntime and version bits *)

Definition ULONG_MAX : Z := (2 ^ 64 - 1)%Z.

(** [isspace] in the C locale. *)
Definition isspace (c : ascii) : bool :=
  let n := nat_of_ascii c in
  (n =? 32)%nat || ((9 <=? n)%nat && (n <=? 13)%nat).

Definition hex_digit_value (c : ascii) : option Z :=
  let n := nat_of_ascii c in
  if (48 <=? n)%nat && (n <=? 57)%nat then Some (Z.of_nat n - 48)%Z
  else if (97 <=? n)%nat && (n <=? 102)%nat then Some (Z.of_nat n - 87)%Z
  else if (65 <=? n)%nat && (n <=? 70)%nat then Some (Z.of_nat n - 55)%Z
  else None.

(** The digit run of [strtoul]: the value read so far, how many digits
    were taken, and the rest of the string. *)
Fixpoint strtoul_digits (s : string) (acc : Z) (taken : nat)
  : Z * nat * string :=
  match s with
  | EmptyString => (acc, taken, s)
  | String c r =>
      match hex_digit_value c with
      | Some d => strtoul_digits r (acc * 16 + d)%Z (S taken)
      | None => (acc, taken, s)
      end
  end.

Fixpoint skip_spaces (s : string) : string :=
  match s with
  | EmptyString => s
  | String c r => if isspace c then skip_spaces r else s
  end.

(** [strtoul(nptr, &endptr, 16)]: white space, an optional sign, an
    optional [0x] that is followed by a digit, then hex digits; the
    value saturates at [ULONG_MAX], a minus sign negates it modulo
    [2^64]; with no digit at all the result is 0 and [endptr] is
    [nptr]. *)
Definition strtoul16 (nptr : string) : Z * string :=
  let s1 := skip_spaces nptr in
  let '(neg, s2) :=
    match s1 with
    | String "-" r => (true, r)
    | String "+" r => (false, r)
    | _ => (false, s1)
    end in
  let s3 :=
    match s2 with
    | String "0" (String x r) =>
        if (Ascii.eqb x "x" || Ascii.eqb x "X") &&
           match hex_digit_value (char_at r 0) with
           | Some _ => true
           | None => false
           end
        then r else s2
    | _ => s2
    end in
  let '(v, taken, rest) := strtoul_digits s3 0%Z 0 in
  match taken with
  | O => (0%Z, nptr)
  | _ =>
      let v := if (v >? ULONG_MAX)%Z then ULONG_MAX else v in
      ((if neg then (2 ^ 64 - v) mod 2 ^ 64 else v)%Z, rest)
  end.

(** Conversion of an [unsigned long] to [time_t]. *)
Definition to_time_t (v : Z) : Z :=
  (if v >=? 2 ^ 63 then v - 2 ^ 64 else v)%Z.

Definition tbg_validate_ntime (ntime_hex : option string)
  (current_time max_drift_seconds : Z) : bool :=
  if negb (tbg_validate_hex_string ntime_hex MAX_NTIME_LEN) then false
  else
    match ntime_hex with
    | None => false
    | Some h =>
        let '(ntime_val, endptr) := strtoul16 h in
        if negb (is_nul (char_at endptr 0)) then false
        else
          let ntime_time := to_time_t ntime_val in
          let drift :=
            (if ntime_time >? current_time then ntime_time - current_time
             else current_time - ntime_time)%Z in
          if (drift >? max_drift_seconds)%Z then false else true
    end.

Definition tbg_validate_version_bits (version_hex : option string)
  (job_version version_mask : Z) : bool :=
  if negb (tbg_validate_hex_string version_hex MAX_VERSION_BITS_LEN) then false
  else
    match version_hex with
    | None => false
    | Some h =>
        let '(submitted_version, endptr) := strtoul16 h in
        if negb (is_nul (char_at endptr 0)) then false
        else
          let modified_bits :=
            Z.lxor (CInt.wrap32u submitted_version) job_version in
          if negb (Z.land modified_bits
                     (CInt.wrap32u (Z.lnot version_mask)) =? 0)%Z
          then false else true
    end.

(** *** JSON payload gate *)

Record json_scan := {
  depth : Z;
  max_depth : Z;
  in_string : bool;
  escape : bool
}.

Definition json_scan_start : json_scan :=
  {| depth := 0; max_depth := 0; in_string := false; escape := false |}.

(** The body of the loop of [json_nesting_depth] for one byte. *)
Definition json_scan_step (st : json_scan) (c : ascii) : json_scan :=
  if escape st then
    {| depth := depth st; max_depth := max_depth st;
       in_string := in_string st; escape := false |}
  else if Ascii.eqb c "\" && in_string st then
    {| depth := depth st; max_depth := max_depth st;
       in_string := in_string st; escape := true |}
  else if Ascii.eqb c "034" then
    {| depth := depth st; max_depth := max_depth st;
       in_string := negb (in_string st); escape := escape st |}
  else if in_string st then st
  else if Ascii.eqb c "{" || Ascii.eqb c "[" then
    let d := (depth st + 1)%Z in
    {| depth := d;
       max_depth := if (d >? max_depth st)%Z then d else max_depth st;
       in_string := in_string st; escape := escape st |}
  else if Ascii.eqb c "}" || Ascii.eqb c "]" then
    {| depth := (depth st - 1)%Z; max_depth := max_depth st;
       in_string := in_string st; escape := escape st |}
  else st.

Fixpoint json_scan_loop (buf : string) (len : nat) (st : json_scan)
  : json_scan :=
  match len with
  | O => st
  | S len' =>
      json_scan_loop (advance 1 buf) len' (json_scan_step st (char_at buf 0))
  end.

Definition json_nesting_depth (buf : string) (len : nat) : Z :=
  max_depth (json_scan_loop buf len json_scan_start).

Definition json_ws (c : ascii) : bool :=
  Ascii.eqb c " " || Ascii.eqb c "009" || Ascii.eqb c "010" ||
  Ascii.eqb c "013".

(** The loop of [tbg_validate_json_payload] that skips leading white
    space: the advanced pointer and the remaining length. *)
Fixpoint json_skip_ws (buf : string) (len : nat) : string * nat :=
  match len with
  | O => (buf, O)
  | S len' =>
      if json_ws (char_at buf 0) then json_skip_ws (advance 1 buf) len'
      else (buf, len)
  end.

(** [tbg_validate_json_payload]; the buffer holds at least [len]
    bytes. *)
Definition tbg_validate_json_payload (buf : option string) (len max_size : nat)
  : bool :=
  match buf with
  | None => false
  | Some b =>
      if (len =? 0)%nat then false
      else if (max_size <? len)%nat then false
      else
        let '(b', len') := json_skip_ws b len in
        if (len' =? 0)%nat || negb (Ascii.eqb (char_at b' 0) "{") then false
        else if (json_nesting_depth b' len' >? MAX_JSON_NESTING)%Z then false
        else true
  end.

(** *** User agent and log sanitising *)

Definition printable (c : ascii) : bool :=
  let n := nat_of_ascii c in (32 <=? n)%nat && (n <=? 126)%nat.

(** The first [n] bytes of a string. *)
Fixpoint cut (n : nat) (s : string) : string :=
  match n, s with
  | O, _ => EmptyString
  | S n', String c r => String c (cut n' r)
  | S _, EmptyString => EmptyString
  end.

(** The replacement loop of [tbg_sanitize_user_agent] over a C string:
    the new bytes and whether all were left alone. *)
Fixpoint sanitize_loop (s : string) : string * bool :=
  match s with
  | EmptyString => (EmptyString, true)
  | String c r =>
      let '(r', clean) := sanitize_loop r in
      if negb (printable c) then (String "?" r', false)
      else (String c r', clean)
  end.

(** [tbg_sanitize_user_agent]: the return value and the string the
    buffer holds afterwards ([None] for a NULL pointer). *)
Definition tbg_sanitize_user_agent (user_agent : option string) (max_len : nat)
  : bool * option string :=
  match user_agent with
  | None => (true, None)
  | Some ua =>
      let len := strlen ua in
      let '(s, was_clean) :=
        if (max_len <? len)%nat then (cut max_len (c_str ua), false)
        else (c_str ua, true) in
      let '(s', clean) := sanitize_loop s in
      (was_clean && clean, Some s')
  end.

Fixpoint safe_truncate_loop (s : string) : string :=
  match s with
  | EmptyString => EmptyString
  | String c r =>
      String (if printable c then c else "."%char) (safe_truncate_loop r)
  end.

(** [safe_truncate]: the string written to [out].  [max_out - 1] is
    computed in [size_t], so with [max_out = 0] nothing is cut. *)
Definition safe_truncate (input : option string) (max_out : nat) : string :=
  match input with
  | None => EmptyString
  | Some i =>
      let len := strlen i in
      let len := if (max_out =? 0)%nat then len
                 else if (max_out - 1 <? len)%nat then (max_out - 1)%nat
                 else len in
      safe_truncate_loop (cut len (c_str i))
  end.

(** *** Vocabulary for these validators *)

Definition HEX_DIGITS : string := "0123456789abcdefABCDEF".

Definition WORKER_NAME_CHARS : string :=
  "ABCDEFGHIJKLMNOPQRSTUVWXYZabcdefghijklmnopqrstuvwxyz0123456789_-.".

(** Every byte of the C string satisfies [P]. *)
Definition all_chars (P : ascii -> Prop) (s : string) : Prop :=
  forall i, (i < strlen s)%nat -> P (char_at s i).

Definition one_of (chars : string) (c : ascii) : Prop :=
  In c (list_ascii_of_string chars).

(** The number a C string of hex digits denotes. *)
Fixpoint hex_value_from (acc : Z) (s : string) : Z :=
  match s with
  | EmptyString => acc
  | String c r =>
      match hex_digit_value c with
      | Some d => hex_value_from (acc * 16 + d)%Z r
      | None => acc
      end
  end.

Definition hex_value (s : string) : Z := hex_value_from 0%Z s.

(** The address starts with one of the base58 version characters. *)
Definition base58_prefix (a : string) : Prop :=
  one_of "13mn2" (char_at a 0).

(** [n] times the same byte. *)
Fixpoint repeat_char (c : ascii) (n : nat) : string :=
  match n with
  | O => EmptyString
  | S n' => String c (repeat_char c n')
  end.

Definition is_open_bracket (c : ascii) : Prop := c = "{"%char \/ c = "["%char.

(** The bytes of a string literal, quotes included. *)
Definition json_quoted (s : string) : string :=
  String "034" (String.append s (String "034" EmptyString)).

(** No byte of the string is a double quote or a backslash. *)
Definition plain_text (s : string) : Prop :=
  Forall (fun c => c <> "034"%char /\ c <> "\"%char) (list_ascii_of_string s).

(** The state of the scanner after a whole string. *)
Definition json_scan_of (s : string) : json_scan :=
  json_scan_loop s (String.length s) json_scan_start.

(** A user agent with an escape sequence in it. *)
Definition dirty_agent : string :=
  String "c" (String "g" (String "027" (String "[" (String "m" EmptyString)))).

(** A well-known P2PKH address and a share's version field. *)
Definition p2pkh_address : string := "1BvBMSEYstWetqTFn5Au4m4GFg7xJaNVN2".
Definition version_example : string := "20002000".

End InputValidation.

(** ** memory_pool.c: slab pool allocator *)

Module MemoryPool.
Import CInt.
Local Open Scope Z_scope.

Definition POOL_CACHE_LINE_SIZE : Z := 64.
Definition POOL_INITIAL_SLABS : Z := 256.
Definition POOL_MAX_ITEMS : Z := 1000000.
Definition SIZEOF_PTR : Z := 8.

(** Pointers are addresses, [NULL] is 0.  The counters are C [int]s kept
    as [Z]; signed overflow is not modelled. *)
Definition NULL : Z := 0.

Record memory_pool := {
  free_list : Z;          (* head of the intrusive free list *)
  item_size : Z;
  aligned_size : Z;
  total_allocated : Z;
  total_free : Z;
  max_items : Z;
  slab_count : Z;
  slabs : list Z;         (* slab base pointers *)
  slabs_capacity : Z
}.

(** The link words: [link m a] is the pointer stored in the first
    [sizeof(void* )] bytes of the item at address [a]. *)
Definition links := Z -> Z.

Definition store_link (m : links) (a v : Z) : links :=
  fun x => if x =? a then v else m x.

(** What the C allocator answers to the calls one pool operation may
    make: the slab from [aligned_alloc] in [pool_grow], whether the
    [realloc] of the slab registry succeeds, and the item from the
    last-resort [aligned_alloc] in [tbg_pool_alloc]. *)
Record allocator := {
  env_slab : Z;
  env_realloc_ok : bool;
  env_direct : Z
}.

Definition align_up (size alignment : Z) : Z :=
  Z.land (size + alignment - 1) (Z.lnot (alignment - 1)).

(** The loop of [pool_grow] that threads the [count] items of a slab
    onto the free list, item [i] at [slab + i * aligned_size]. *)
Fixpoint push_items (aligned : Z) (slab : Z) (i : Z) (n : nat)
  (m : links) (head : Z) : links * Z :=
  match n with
  | O => (m, head)
  | S n' =>
      let item := slab + i * aligned in
      push_items aligned slab (i + 1) n' (store_link m item head) item
  end.

Definition pool_grow (env : allocator) (m : links) (pool : memory_pool)
  (count : Z) : bool * links * memory_pool :=
  let exceeds := total_allocated pool + count >? max_items pool in
  let count := if exceeds then max_items pool - total_allocated pool
               else count in
  if exceeds && (count <=? 0) then (false, m, pool)
  else
    let slab := env_slab env in
    if slab =? NULL then (false, m, pool)
    else
      let need_realloc := slab_count pool >=? slabs_capacity pool in
      if need_realloc && negb (env_realloc_ok env) then (false, m, pool)
      else
        let new_cap :=
          if need_realloc
          then (if slabs_capacity pool * 2 =? 0 then 16
                else slabs_capacity pool * 2)
          else slabs_capacity pool in
        let '(m', head) :=
          push_items (aligned_size pool) slab 0 (Z.to_nat count) m
                     (free_list pool) in
        (true, m',
         {| free_list := head;
            item_size := item_size pool;
            aligned_size := aligned_size pool;
            total_allocated := total_allocated pool + count;
            total_free := total_free pool + count;
            max_items := max_items pool;
            slab_count := slab_count pool + 1;
            slabs := slabs pool ++ [slab];
            slabs_capacity := new_cap |}).

Definition tbg_pool_init (env : allocator) (m : links)
  (item_size0 initial_count max_items0 : Z) : links * memory_pool :=
  let isz := if item_size0 <? SIZEOF_PTR then SIZEOF_PTR else item_size0 in
  let pool :=
    {| free_list := NULL;
       item_size := isz;
       aligned_size := align_up isz POOL_CACHE_LINE_SIZE;
       total_allocated := 0;
       total_free := 0;
       max_items := if max_items0 >? 0 then max_items0 else POOL_MAX_ITEMS;
       slab_count := 0;
       slabs := [];
       slabs_capacity := 0 |} in
  if initial_count >? 0
  then let '(_, m', pool') := pool_grow env m pool initial_count in (m', pool')
  else (m, pool).

(** Pop the head of the free list. *)
Definition pop_free (m : links) (pool : memory_pool) : Z * memory_pool :=
  let item := free_list pool in
  (item,
   {| free_list := m item;
      item_size := item_size pool;
      aligned_size := aligned_size pool;
      total_allocated := total_allocated pool;
      total_free := total_free pool - 1;
      max_items := max_items pool;
      slab_count := slab_count pool;
      slabs := slabs pool;
      slabs_capacity := slabs_capacity pool |}).

(** [tbg_pool_alloc] on a non-NULL pool: the returned item (NULL on
    exhaustion of the C allocator), the link memory and the pool. *)
Definition tbg_pool_alloc (env : allocator) (m : links) (pool : memory_pool)
  : Z * links * memory_pool :=
  let '(item, m1, pool1) :=
    if negb (free_list pool =? NULL)
    then let '(item, pool') := pop_free m pool in (item, m, pool')
    else
      let g0 := if total_allocated pool >? 0
                then Z.quot (total_allocated pool) 2
                else POOL_INITIAL_SLABS in
      let g1 := if g0 <? 64 then 64 else g0 in
      let grow_count := if g1 >? 4096 then 4096 else g1 in
      let '(ok, m', pool') := pool_grow env m pool grow_count in
      if ok
      then let '(item, pool'') := pop_free m' pool' in (item, m', pool'')
      else (NULL, m', pool') in
  let item := if item =? NULL then env_direct env else item in
  (item, m1, pool1).

(** [tbg_pool_free] on a non-NULL pool. *)
Definition tbg_pool_free (m : links) (pool : memory_pool) (item : Z)
  : links * memory_pool :=
  if item =? NULL then (m, pool)
  else
    (store_link m item (free_list pool),
     {| free_list := item;
        item_size := item_size pool;
        aligned_size := aligned_size pool;
        total_allocated := total_allocated pool;
        total_free := total_free pool + 1;
        max_items := max_items pool;
        slab_count := slab_count pool;
        slabs := slabs pool;
        slabs_capacity := slabs_capacity pool |}).

Definition tbg_pool_total_allocated (pool : memory_pool) : Z :=
  total_allocated pool.
Definition tbg_pool_total_free (pool : memory_pool) : Z := total_free pool.
Definition tbg_pool_in_use (pool : memory_pool) : Z :=
  total_allocated pool - total_free pool.

(** The counter invariant of the specification. *)
Definition counters_ok (pool : memory_pool) : Prop :=
  total_free pool <= total_allocated pool <= max_items pool.

(** A scenario: a pool of at most one item, created with that item
    (slab at 4096), from which two items are taken (the second one by
    the direct fallback, at 8192) and then both given back. *)
Definition scenario_env : allocator :=
  {| env_slab := 4096; env_realloc_ok := true; env_direct := 8192 |}.

(** The two items handed out and the pool once both are out. *)
Definition scenario_allocs : Z * Z * links * memory_pool :=
  let '(m0, p0) := tbg_pool_init scenario_env (fun _ => 0) 64 1 1 in
  let '(a, m1, p1) := tbg_pool_alloc scenario_env m0 p0 in
  let '(b, m2, p2) := tbg_pool_alloc scenario_env m1 p1 in
  (a, b, m2, p2).

(** The pool once both items are back. *)
Definition scenario_pool : memory_pool :=
  let '(a, b, m2, p2) := scenario_allocs in
  let '(m3, p3) := tbg_pool_free m2 p2 a in
  let '(m4, p4) := tbg_pool_free m3 p3 b in
  p4.

(** The pool with another free-list head and free counter. *)
Definition with_free (pool : memory_pool) (head free : Z) : memory_pool :=
  {| free_list := head;
     item_size := item_size pool;
     aligned_size := aligned_size pool;
     total_allocated := total_allocated pool;
     total_free := free;
     max_items := max_items pool;
     slab_count := slab_count pool;
     slabs := slabs pool;
     slabs_capacity := slabs_capacity pool |}.

(** One call on a pool: an allocation, with what the C allocator would
    answer to it, or the release of an item. *)
Inductive pool_op :=
| PoolAlloc (env : allocator)
| PoolFree (item : Z).

Definition run_pool_op (o : pool_op) (s : links * memory_pool)
  : links * memory_pool :=
  match o with
  | PoolAlloc env =>
      let '(_, m', pool') := tbg_pool_alloc env (fst s) (snd s) in (m', pool')
  | PoolFree item => tbg_pool_free (fst s) (snd s) item
  end.

Definition run_pool (ops : list pool_op) (s : links * memory_pool)
  : links * memory_pool :=
  fold_left (fun s o => run_pool_op o s) ops s.

(** [k] allocations in a row: the items in the order they were handed
    out. *)
Fixpoint alloc_n (env : allocator) (m : links) (pool : memory_pool) (k : nat)
  : list Z * links * memory_pool :=
  match k with
  | O => ([], m, pool)
  | S k' =>
      let '(item, m1, pool1) := tbg_pool_alloc env m pool in
      let '(items, m2, pool2) := alloc_n env m1 pool1 k' in
      (item :: items, m2, pool2)
  end.

(** The addresses of items [i], [i + 1], ... of a slab, [n] of them. *)
Fixpoint slab_items (aligned slab i : Z) (n : nat) : list Z :=
  match n with
  | O => []
  | S n' => (slab + i * aligned) :: slab_items aligned slab (i + 1) n'
  end.

(** The free list from [head] runs through [items], none of them NULL,
    and continues at [next]. *)
Fixpoint chain (m : links) (head : Z) (items : list Z) (next : Z) : Prop :=
  match items with
  | [] => head = next
  | a :: rest => head = a /\ a <> NULL /\ chain m (m a) rest next
  end.

(** What holds of the bookkeeping fields of a pool at any time. *)
Definition pool_inv (pool : memory_pool) : Prop :=
  0 <= total_allocated pool <= max_items pool /\
  0 <= slab_count pool <= slabs_capacity pool /\
  slab_count pool = Z.of_nat (length (slabs pool)).

End MemoryPool.

(** ** rate_limit.c: token buckets, per-IP admission, reaper *)

Module RateLimit.
Import CInt CLib.
Local Open Scope Z_scope.

Definition RATE_CONNECT_PER_MIN : Z := 10.
Definition RATE_CONNECT_MAX_CONCURRENT : Z := 50.
Definition RATE_SUBSCRIBE_PER_MIN : Z := 3.
Definition RATE_AUTHORIZE_PER_MIN : Z := 5.
Definition RATE_SUBMIT_PER_MIN : Z := 1000.
Definition RATE_INVALID_PER_MIN : Z := 100.
Definition RATE_GLOBAL_MAX_CONNS : Z := 100000.
Definition RATE_SOFTBAN_DURATION : Z := 300.
Definition RATE_CLEANUP_INTERVAL : Z := 60.
Definition RATE_STALE_THRESHOLD : Z := 300.
Definition INET6_ADDRSTRLEN : nat := 46.

Record rate_bucket := {
  tokens : Z;            (* _Atomic uint32_t *)
  max_tokens : Z;        (* uint32_t *)
  refill_per_min : Z;    (* uint32_t *)
  last_refill : Z        (* time_t *)
}.

Record ip_rate_entry := {
  ip : string;                 (* hash key, at most 45 bytes *)
  connect_bucket : rate_bucket;
  active_connections : Z;      (* _Atomic int32_t *)
  first_seen : Z;
  last_seen : Z;
  softban_until : Z
}.

Record rate_limit_config := {
  connections_per_ip_per_minute : Z;
  max_connections_per_ip : Z;
  max_subscribes_per_minute : Z;
  max_authorizes_per_minute : Z;
  max_shares_per_minute : Z;
  max_invalid_shares_per_minute : Z;
  global_max_connections : Z;
  softban_duration_seconds : Z
}.

(** The file-scope variables [ip_table], [g_config] and
    [g_total_connections].  The hash table is kept as the list of its
    entries in insertion order, which is the order [HASH_ITER] visits. *)
Record limiter := {
  ip_table : list ip_rate_entry;
  g_config : rate_limit_config;
  g_total_connections : Z      (* _Atomic int32_t *)
}.

(** *** Token bucket *)

Definition bucket_init (max_tokens0 refill_per_min0 now : Z) : rate_bucket :=
  {| tokens := max_tokens0;
     max_tokens := max_tokens0;
     refill_per_min := refill_per_min0;
     last_refill := now |}.

Definition bucket_refill (now : Z) (b : rate_bucket) : rate_bucket :=
  let elapsed := now - last_refill b in
  if elapsed <=? 0 then b
  else
    let to_add := wrap32u (Z.quot (elapsed * refill_per_min b) 60) in
    if to_add =? 0 then b
    else
      let current := tokens b in
      let new_tokens := wrap32u (current + to_add) in
      let new_tokens :=
        if new_tokens >? max_tokens b then max_tokens b else new_tokens in
      {| tokens := new_tokens;
         max_tokens := max_tokens b;
         refill_per_min := refill_per_min b;
         last_refill := now |}.

(** With no other thread touching the bucket the compare-and-swap of the
    loop succeeds on its first successful attempt, taking one token. *)
Definition bucket_consume (now : Z) (b : rate_bucket) : bool * rate_bucket :=
  let b1 := bucket_refill now b in
  let current := tokens b1 in
  if current =? 0 then (false, b1)
  else
    (true,
     {| tokens := current - 1;
        max_tokens := max_tokens b1;
        refill_per_min := refill_per_min b1;
        last_refill := last_refill b1 |}).

(** *** IP table *)

(** The first [n] bytes of a string. *)
Fixpoint truncate (n : nat) (s : string) : string :=
  match n, s with
  | O, _ => EmptyString
  | S n', String c r => String c (truncate n' r)
  | S _, EmptyString => EmptyString
  end.

(** The key stored by [strncpy(entry->ip, ip, sizeof(entry->ip) - 1)]. *)
Definition stored_key (ip0 : string) : string :=
  truncate (INET6_ADDRSTRLEN - 1) (c_str ip0).

(** [HASH_FIND_STR]: position of the first entry whose key is the
    looked-up C string. *)
Fixpoint find_ip_entry (table : list ip_rate_entry) (ip0 : string)
  : option nat :=
  match table with
  | [] => None
  | e :: rest =>
      if String.eqb (ip e) (c_str ip0) then Some O
      else match find_ip_entry rest ip0 with
           | Some i => Some (S i)
           | None => None
           end
  end.

Definition set_last_seen (now : Z) (e : ip_rate_entry) : ip_rate_entry :=
  {| ip := ip e;
     connect_bucket := connect_bucket e;
     active_connections := active_connections e;
     first_seen := first_seen e;
     last_seen := now;
     softban_until := softban_until e |}.

Definition set_softban_until (t : Z) (e : ip_rate_entry) : ip_rate_entry :=
  {| ip := ip e;
     connect_bucket := connect_bucket e;
     active_connections := active_connections e;
     first_seen := first_seen e;
     last_seen := last_seen e;
     softban_until := t |}.

Definition set_connect_bucket (b : rate_bucket) (e : ip_rate_entry)
  : ip_rate_entry :=
  {| ip := ip e;
     connect_bucket := b;
     active_connections := active_connections e;
     first_seen := first_seen e;
     last_seen := last_seen e;
     softban_until := softban_until e |}.

Definition set_active_connections (a : Z) (e : ip_rate_entry)
  : ip_rate_entry :=
  {| ip := ip e;
     connect_bucket := connect_bucket e;
     active_connections := a;
     first_seen := first_seen e;
     last_seen := last_seen e;
     softban_until := softban_until e |}.

Definition new_ip_entry (cfg : rate_limit_config) (now : Z) (ip0 : string)
  : ip_rate_entry :=
  {| ip := stored_key ip0;
     connect_bucket :=
       bucket_init (wrap32u (connections_per_ip_per_minute cfg))
                   (wrap32u (connections_per_ip_per_minute cfg)) now;
     active_connections := 0;
     first_seen := now;
     last_seen := now;
     softban_until := 0 |}.

(** [get_or_create_ip_entry]: the position of the entry and the table,
    or [None] when [calloc] fails. *)
Definition get_or_create_ip_entry (calloc_ok : bool)
  (cfg : rate_limit_config) (now : Z) (table : list ip_rate_entry)
  (ip0 : string) : option (nat * ip_rate_entry * list ip_rate_entry) :=
  match find_ip_entry table ip0 with
  | Some i =>
      match table !! i with
      | Some e =>
          let e' := set_last_seen now e in Some (i, e', <[i := e']> table)
      | None => None
      end
  | None =>
      if calloc_ok
      then let e := new_ip_entry cfg now ip0 in
           Some (length table, e, table ++ [e])
      else None
  end.

(** *** Reaper *)

(** The test of one [HASH_ITER] step of [cleanup_thread_func]. *)
Definition reaped (cutoff : Z) (e : ip_rate_entry) : bool :=
  if active_connections e >? 0 then false
  else last_seen e <? cutoff.

(** One cycle of [cleanup_thread_func].  [now] is read at the top of the
    cycle, before the sleep of [RATE_CLEANUP_INTERVAL] seconds; the
    limiter is the one found when the write lock is taken. *)
Definition cleanup_cycle (now : Z) (st : limiter) : limiter :=
  let cutoff := now - RATE_STALE_THRESHOLD in
  {| ip_table := List.filter (fun e => negb (reaped cutoff e)) (ip_table st);
     g_config := g_config st;
     g_total_connections := g_total_connections st |}.

(** *** Public API *)

Definition default_config : rate_limit_config :=
  {| connections_per_ip_per_minute := RATE_CONNECT_PER_MIN;
     max_connections_per_ip := RATE_CONNECT_MAX_CONCURRENT;
     max_subscribes_per_minute := RATE_SUBSCRIBE_PER_MIN;
     max_authorizes_per_minute := RATE_AUTHORIZE_PER_MIN;
     max_shares_per_minute := RATE_SUBMIT_PER_MIN;
     max_invalid_shares_per_minute := RATE_INVALID_PER_MIN;
     global_max_connections := RATE_GLOBAL_MAX_CONNS;
     softban_duration_seconds := RATE_SOFTBAN_DURATION |}.

(** [tbg_rate_limit_init]: the IP table is the one the process already
    has (empty at start-up). *)
Definition tbg_rate_limit_init (config : option rate_limit_config)
  (table : list ip_rate_entry) : limiter :=
  {| ip_table := table;
     g_config := match config with Some c => c | None => default_config end;
     g_total_connections := 0 |}.

Definition with_table (st : limiter) (table : list ip_rate_entry) : limiter :=
  {| ip_table := table;
     g_config := g_config st;
     g_total_connections := g_total_connections st |}.

Definition tbg_rate_limit_connect (calloc_ok : bool) (now : Z)
  (ip0 : option string) (st : limiter) : bool * limiter :=
  match ip0 with
  | None => (false, st)
  | Some ipstr =>
      let cfg := g_config st in
      let current_total := g_total_connections st in
      if current_total >=? global_max_connections cfg then (false, st)
      else
        match get_or_create_ip_entry calloc_ok cfg now (ip_table st) ipstr with
        | None => (false, st)
        | Some (i, e, table1) =>
            if (softban_until e >? 0) && (now <? softban_until e)
            then (false, with_table st table1)
            else
              let e1 :=
                if (softban_until e >? 0) && (now >=? softban_until e)
                then set_softban_until 0 e else e in
              let active := active_connections e1 in
              if active >=? max_connections_per_ip cfg
              then (false, with_table st (<[i := e1]> table1))
              else
                let '(ok, b) := bucket_consume now (connect_bucket e1) in
                let e2 := set_connect_bucket b e1 in
                if negb ok
                then (false, with_table st (<[i := e2]> table1))
                else
                  let e3 := set_active_connections (wrap32s (active + 1)) e2 in
                  (true,
                   {| ip_table := <[i := e3]> table1;
                      g_config := cfg;
                      g_total_connections := wrap32s (current_total + 1) |})
        end
  end.

Definition tbg_rate_limit_disconnect (ip0 : option string) (st : limiter)
  : limiter :=
  match ip0 with
  | None => st
  | Some ipstr =>
      let total := wrap32s (g_total_connections st - 1) in
      let table := ip_table st in
      let table' :=
        match find_ip_entry table ipstr with
        | Some i =>
            match table !! i with
            | Some e =>
                let active := active_connections e in
                let e1 := set_active_connections (wrap32s (active - 1)) e in
                let e2 := if active <=? 0
                          then set_active_connections 0 e1 else e1 in
                <[i := e2]> table
            | None => table
            end
        | None => table
        end in
      {| ip_table := table';
         g_config := g_config st;
         g_total_connections := total |}
  end.

Definition tbg_rate_limit_is_banned (now : Z) (ip0 : option string)
  (st : limiter) : bool :=
  match ip0 with
  | None => false
  | Some ipstr =>
      match find_ip_entry (ip_table st) ipstr with
      | Some i =>
          match ip_table st !! i with
          | Some e => (softban_until e >? 0) && (now <? softban_until e)
          | None => false
          end
      | None => false
      end
  end.

Definition tbg_rate_limit_softban (calloc_ok : bool) (now : Z)
  (ip0 : option string) (st : limiter) : limiter :=
  match ip0 with
  | None => st
  | Some ipstr =>
      match get_or_create_ip_entry calloc_ok (g_config st) now
                                   (ip_table st) ipstr with
      | Some (i, e, table1) =>
          let e1 := set_softban_until
                      (now + softban_duration_seconds (g_config st)) e in
          with_table st (<[i := e1]> table1)
      | None => st
      end
  end.

Definition tbg_rate_limit_global_connections (st : limiter) : Z :=
  g_total_connections st.

(** *** Vocabulary of the specification *)

(** The tokens the specification expects after a refill. *)
Definition refill_spec (now : Z) (b : rate_bucket) : Z :=
  Z.min (max_tokens b)
        (tokens b + (now - last_refill b) * refill_per_min b / 60).

(** A bucket whose fields are [uint32_t] values. *)
Definition bucket_wf (b : rate_bucket) : Prop :=
  0 <= tokens b < 2 ^ 32 /\ 0 <= max_tokens b < 2 ^ 32 /\
  0 <= refill_per_min b < 2 ^ 32.

(** A bucket made by [bucket_init] for a limit of [INT_MAX] per minute,
    after one token has been consumed, seen again 61 seconds later. *)
Definition overflow_bucket : rate_bucket :=
  snd (bucket_consume 1000 (bucket_init INT_MAX INT_MAX 1000)).

(** [n] successive calls of [tbg_rate_limit_connect] for one IP at one
    instant, [calloc] succeeding: the answers, first call first, and the
    final limiter. *)
Fixpoint connect_n (n : nat) (now : Z) (ip0 : string) (st : limiter)
  : list bool * limiter :=
  match n with
  | O => ([], st)
  | S n' =>
      let '(r, st1) := tbg_rate_limit_connect true now (Some ip0) st in
      let '(rs, st2) := connect_n n' now ip0 st1 in
      (r :: rs, st2)
  end.

(** [n] successive calls of [tbg_rate_limit_disconnect] for one IP. *)
Fixpoint disconnect_n (n : nat) (ip0 : string) (st : limiter) : limiter :=
  match n with
  | O => st
  | S n' => disconnect_n n' ip0 (tbg_rate_limit_disconnect (Some ip0) st)
  end.

(** The per-IP counter of an address, 0 when it has no entry. *)
Definition active_of (st : limiter) (ip0 : string) : Z :=
  match find_ip_entry (ip_table st) ip0 with
  | Some i =>
      match ip_table st !! i with
      | Some e => active_connections e
      | None => 0
      end
  | None => 0
  end.

(** Connections currently open: the sum of the per-IP counters. *)
Definition open_connections (st : limiter) : Z :=
  fold_right (fun e acc => active_connections e + acc) 0 (ip_table st).

(** The entry of an address sits at position [i] of the table. *)
Definition entry_at (st : limiter) (ipstr : string) (i : nat)
  (e : ip_rate_entry) : Prop :=
  find_ip_entry (ip_table st) ipstr = Some i /\ ip_table st !! i = Some e.

(** The soft-ban test of [tbg_rate_limit_connect]. *)
Definition banned (now : Z) (e : ip_rate_entry) : bool :=
  (softban_until e >? 0) && (now <? softban_until e).

(** The address has not been seen before, or its entry was made at this
    very instant, is not soft-banned and has its bucket untouched. *)
Definition first_connect (now : Z) (st : limiter) (ipstr : string) : Prop :=
  match find_ip_entry (ip_table st) ipstr with
  | None => True
  | Some i =>
      exists e, ip_table st !! i = Some e /\ banned now e = false /\
                connect_bucket e = bucket_init 10 10 now
  end.

(** An address as [inet_ntop] prints it: a C string that fits the
    [ip] field with its terminator. *)
Definition ip_text (ipstr : string) : Prop :=
  c_str ipstr = ipstr /\ (String.length ipstr < INET6_ADDRSTRLEN)%nat.

(** A configuration whose fields are C [int]s. *)
Definition config_wf (c : rate_limit_config) : Prop :=
  int_range (connections_per_ip_per_minute c) /\
  int_range (max_connections_per_ip c) /\
  int_range (max_subscribes_per_minute c) /\
  int_range (max_authorizes_per_minute c) /\
  int_range (max_shares_per_minute c) /\
  int_range (max_invalid_shares_per_minute c) /\
  int_range (global_max_connections c) /\
  int_range (softban_duration_seconds c).

(** The operations other threads and callers perform on the limiter. *)
Inductive op :=
| OpConnect (calloc_ok : bool) (now : Z) (ip0 : option string)
| OpDisconnect (ip0 : option string)
| OpSoftban (calloc_ok : bool) (now : Z) (ip0 : option string)
| OpCleanup (now : Z).

Definition run_op (o : op) (st : limiter) : limiter :=
  match o with
  | OpConnect ok now ip0 => snd (tbg_rate_limit_connect ok now ip0 st)
  | OpDisconnect ip0 => tbg_rate_limit_disconnect ip0 st
  | OpSoftban ok now ip0 => tbg_rate_limit_softban ok now ip0 st
  | OpCleanup now => cleanup_cycle now st
  end.

(** The limiters a process can be in: initialised with a configuration
    of C [int]s over an empty table, then driven through the API and the
    reaper. *)
Inductive reachable : limiter -> Prop :=
| reach_init (config : option rate_limit_config) :
    match config with
    | Some c => config_wf c
    | None => True
    end ->
    reachable (tbg_rate_limit_init config [])
| reach_step (o : op) (st : limiter) :
    reachable st -> reachable (run_op o st).

(** A limiter with one address connected at time 0, and its entry. *)
Definition reaper_example : limiter :=
  run_op (OpConnect true 0 (Some "10.0.0.1"%string))
         (tbg_rate_limit_init None []).

Definition reaper_example_entry : ip_rate_entry :=
  {| ip := "10.0.0.1";
     connect_bucket := {| tokens := 9; max_tokens := 10;
                          refill_per_min := 10; last_refill := 0 |};
     active_connections := 1;
     first_seen := 0;
     last_seen := 0;
     softban_until := 0 |}.

(** *** Per-connection limits *)

(** [rate_limit_type_t]; the type is passed as an [int]. *)
Definition RATE_CONNECT : Z := 0.
Definition RATE_SUBSCRIBE : Z := 1.
Definition RATE_AUTHORIZE : Z := 2.
Definition RATE_SUBMIT : Z := 3.
Definition RATE_INVALID_SHARE : Z := 4.
Definition RATE_TYPE_COUNT : Z := 5.

Record conn_rate_state := {
  subscribe_bucket : rate_bucket;
  authorize_bucket : rate_bucket;
  submit_bucket : rate_bucket;
  invalid_bucket : rate_bucket
}.

(** [tbg_rate_limit_conn_init]; [None] is a NULL [state], [now] the
    value of [time(NULL)] during the call. *)
Definition tbg_rate_limit_conn_init (cfg : rate_limit_config) (now : Z)
  (state : option conn_rate_state) : option conn_rate_state :=
  match state with
  | None => None
  | Some _ =>
      Some
        {| subscribe_bucket :=
             bucket_init (wrap32u (max_subscribes_per_minute cfg))
                         (wrap32u (max_subscribes_per_minute cfg)) now;
           authorize_bucket :=
             bucket_init (wrap32u (max_authorizes_per_minute cfg))
                         (wrap32u (max_authorizes_per_minute cfg)) now;
           submit_bucket :=
             bucket_init (wrap32u (max_shares_per_minute cfg))
                         (wrap32u (max_shares_per_minute cfg)) now;
           invalid_bucket :=
             bucket_init (wrap32u (max_invalid_shares_per_minute cfg))
                         (wrap32u (max_invalid_shares_per_minute cfg)) now |}
  end.

(** The member of [conn_rate_state] that the [switch] of
    [tbg_rate_limit_check_conn] takes the address of. *)
Inductive bucket_field :=
| SubscribeBucket | AuthorizeBucket | SubmitBucket | InvalidBucket.

Definition select_bucket (type : Z) : option bucket_field :=
  if type =? RATE_SUBSCRIBE then Some SubscribeBucket
  else if type =? RATE_AUTHORIZE then Some AuthorizeBucket
  else if type =? RATE_SUBMIT then Some SubmitBucket
  else if type =? RATE_INVALID_SHARE then Some InvalidBucket
  else None.

Definition get_bucket (f : bucket_field) (s : conn_rate_state) : rate_bucket :=
  match f with
  | SubscribeBucket => subscribe_bucket s
  | AuthorizeBucket => authorize_bucket s
  | SubmitBucket => submit_bucket s
  | InvalidBucket => invalid_bucket s
  end.

Definition set_bucket (f : bucket_field) (b : rate_bucket)
  (s : conn_rate_state) : conn_rate_state :=
  match f with
  | SubscribeBucket =>
      {| subscribe_bucket := b; authorize_bucket := authorize_bucket s;
         submit_bucket := submit_bucket s; invalid_bucket := invalid_bucket s |}
  | AuthorizeBucket =>
      {| subscribe_bucket := subscribe_bucket s; authorize_bucket := b;
         submit_bucket := submit_bucket s; invalid_bucket := invalid_bucket s |}
  | SubmitBucket =>
      {| subscribe_bucket := subscribe_bucket s;
         authorize_bucket := authorize_bucket s;
         submit_bucket := b; invalid_bucket := invalid_bucket s |}
  | InvalidBucket =>
      {| subscribe_bucket := subscribe_bucket s;
         authorize_bucket := authorize_bucket s;
         submit_bucket := submit_bucket s; invalid_bucket := b |}
  end.

Definition tbg_rate_limit_check_conn (now : Z)
  (state : option conn_rate_state) (type : Z)
  : bool * option conn_rate_state :=
  match state with
  | None => (false, None)
  | Some s =>
      match select_bucket type with
      | None => (true, Some s)
      | Some f =>
          let '(ok, b) := bucket_consume now (get_bucket f s) in
          (ok, Some (set_bucket f b s))
      end
  end.

(** Checks of one type on one connection at the times [ts], in that
    order: the answers and the final state. *)
Fixpoint check_conn_seq (ts : list Z) (type : Z) (s : conn_rate_state)
  : list bool * conn_rate_state :=
  match ts with
  | [] => ([], s)
  | t :: ts' =>
      match tbg_rate_limit_check_conn t (Some s) type with
      | (r, Some s1) =>
          let '(rs, s2) := check_conn_seq ts' type s1 in (r :: rs, s2)
      | (r, None) => ([r], s)
      end
  end.

(** The per-minute limit a bucket of a connection is made with. *)
Definition conn_limit (cfg : rate_limit_config) (f : bucket_field) : Z :=
  match f with
  | SubscribeBucket => wrap32u (max_subscribes_per_minute cfg)
  | AuthorizeBucket => wrap32u (max_authorizes_per_minute cfg)
  | SubmitBucket => wrap32u (max_shares_per_minute cfg)
  | InvalidBucket => wrap32u (max_invalid_shares_per_minute cfg)
  end.

(** The counters of a limiter are C [int]s and its per-IP counters are
    not negative. *)
Definition counters_wf (st : limiter) : Prop :=
  int_range (g_total_connections st) /\
  max_connections_per_ip (g_config st) <= INT_MAX /\
  global_max_connections (g_config st) <= INT_MAX /\
  Forall (fun e => 0 <= active_connections e <= INT_MAX) (ip_table st).

End RateLimit.

(** ** event_ring.c: lock-free event ring, producer side *)

Module EventRing.
Import CInt.
Local Open Scope Z_scope.

Definition EVENT_RING_SIZE : Z := 4096.
Definition EVENT_RING_MASK : Z := EVENT_RING_SIZE - 1.
Definition EVENT_MAX_SIZE : Z := 4096.
Definition EVENT_BATCH_MAX : Z := 64.

Definition SLOT_EMPTY : Z := 0.
Definition SLOT_WRITING : Z := 1.
Definition SLOT_READY : Z := 2.

Record event_slot := {
  state : Z;             (* _Atomic uint8_t *)
  len : Z;               (* uint16_t *)
  data : list byte       (* char data[EVENT_MAX_SIZE] *)
}.

Record event_ring := {
  slots : list event_slot;   (* EVENT_RING_SIZE slots *)
  write_pos : Z;             (* _Atomic uint64_t, as are the counters *)
  read_pos : Z;
  events_queued : Z;
  events_sent : Z;
  events_dropped : Z;
  batch_count : Z
}.

Definition zero_slot : event_slot :=
  {| state := SLOT_EMPTY; len := 0;
     data := replicate (Z.to_nat EVENT_MAX_SIZE) Byte.x00 |}.

Definition tbg_event_ring_init : event_ring :=
  {| slots := replicate (Z.to_nat EVENT_RING_SIZE) zero_slot;
     write_pos := 0; read_pos := 0; events_queued := 0; events_sent := 0;
     events_dropped := 0; batch_count := 0 |}.

(** [memcpy(dst, src, n)] followed by [dst[n] = 0]. *)
Definition copy_event (dst src : list byte) (n : nat) : list byte :=
  <[n := Byte.x00]> (take n src ++ drop n dst).

(** [tbg_event_ring_push] on a non-NULL ring; [json] is [None] for a
    NULL pointer, and [n] is the [len] argument. *)
Definition tbg_event_ring_push (ring : event_ring) (json : option (list byte))
  (n : Z) : bool * event_ring :=
  match json with
  | None => (false, ring)
  | Some bytes =>
      if n =? 0 then (false, ring)
      else
        let n := if n >=? EVENT_MAX_SIZE then EVENT_MAX_SIZE - 1 else n in
        let pos := write_pos ring in
        let ring1 :=
          {| slots := slots ring;
             write_pos := wrap64u (pos + 1);
             read_pos := read_pos ring;
             events_queued := events_queued ring;
             events_sent := events_sent ring;
             events_dropped := events_dropped ring;
             batch_count := batch_count ring |} in
        let idx := Z.to_nat (Z.land pos EVENT_RING_MASK) in
        match slots ring !! idx with
        | None => (false, ring1)   (* not reached: idx < EVENT_RING_SIZE *)
        | Some slot =>
            if negb (state slot =? SLOT_EMPTY)
            then
              (false,
               {| slots := slots ring;
                  write_pos := wrap64u (pos + 1);
                  read_pos := read_pos ring;
                  events_queued := events_queued ring;
                  events_sent := events_sent ring;
                  events_dropped := wrap64u (events_dropped ring + 1);
                  batch_count := batch_count ring |})
            else
              let slot' :=
                {| state := SLOT_READY;
                   len := n;
                   data := copy_event (data slot) bytes (Z.to_nat n) |} in
              (true,
               {| slots := <[idx := slot']> (slots ring);
                  write_pos := wrap64u (pos + 1);
                  read_pos := read_pos ring;
                  events_queued := wrap64u (events_queued ring + 1);
                  events_sent := events_sent ring;
                  events_dropped := events_dropped ring;
                  batch_count := batch_count ring |})
        end
  end.

Definition tbg_event_ring_dropped (ring : event_ring) : Z :=
  events_dropped ring.

(** *** Vocabulary of the specification *)

(** Every slot of the ring is occupied (being written or ready). *)
Definition ring_full (ring : event_ring) : Prop :=
  length (slots ring) = Z.to_nat EVENT_RING_SIZE /\
  Forall (fun s => state s <> SLOT_EMPTY) (slots ring).

(** A push that passes the argument check of [tbg_event_ring_push]. *)
Definition push_args_ok (a : option (list byte) * Z) : Prop :=
  fst a <> None /\ 0 < snd a.

(** A run of pushes with no drainer in between: the answers, first push
    first, and the final ring. *)
Fixpoint push_all (ring : event_ring) (l : list (option (list byte) * Z))
  : list bool * event_ring :=
  match l with
  | [] => ([], ring)
  | (json, n) :: rest =>
      let '(r, ring1) := tbg_event_ring_push ring json n in
      let '(rs, ring2) := push_all ring1 rest in
      (r :: rs, ring2)
  end.

(** A ring whose 4096 slots all hold a published one-byte event. *)
Definition ready_slot : event_slot :=
  {| state := SLOT_READY; len := 1;
     data := Byte.x61 :: replicate (Z.to_nat EVENT_MAX_SIZE - 1) Byte.x00 |}.

Definition full_ring : event_ring :=
  {| slots := replicate (Z.to_nat EVENT_RING_SIZE) ready_slot;
     write_pos := 4096; read_pos := 0; events_queued := 4096;
     events_sent := 0; events_dropped := 0; batch_count := 0 |}.

(** The ring after [i] accepted pushes on a fresh ring and no drain:
    slots below [i] are ready, the others empty, nothing was dropped. *)
Definition filled (ring : event_ring) (i : nat) : Prop :=
  length (slots ring) = Z.to_nat EVENT_RING_SIZE /\
  write_pos ring = Z.of_nat i /\
  events_dropped ring = 0 /\
  forall j s, slots ring !! j = Some s ->
    ((j < i)%nat -> state s = SLOT_READY) /\
    ((i <= j)%nat -> state s = SLOT_EMPTY).

(** [4096 + 3] one-byte pushes. *)
Definition overrun_pushes : list (option (list byte) * Z) :=
  replicate (Z.to_nat EVENT_RING_SIZE + 3) (Some [Byte.x61], 1).

(** *** Drainer *)

Definition set_state (st : Z) (s : event_slot) : event_slot :=
  {| state := st; len := len s; data := data s |}.

(** The slot index [(read_pos + count) & EVENT_RING_MASK], the sum
    taken in [uint64_t]. *)
Definition batch_index (rp count : Z) : nat :=
  Z.to_nat (Z.land (wrap64u (rp + count)) EVENT_RING_MASK).

(** The collecting loop of [flush_batch]: the number of consecutive
    ready slots from [read_pos] on, at most [EVENT_BATCH_MAX].  The loop
    makes at most [EVENT_BATCH_MAX] rounds, which is the fuel it is run
    with. *)
Fixpoint collect_ready (sl : list event_slot) (rp count : Z) (fuel : nat)
  : Z :=
  match fuel with
  | O => count
  | S fuel' =>
      if count <? EVENT_BATCH_MAX then
        match sl !! batch_index rp count with
        | Some slot =>
            if negb (state slot =? SLOT_READY) then count
            else collect_ready sl rp (count + 1) fuel'
        | None => count
        end
      else count
  end.

(** The sending loop of [flush_batch] for the events [i], [i + 1], ...
    of the batch, [n] of them: the datagrams handed to [send], in
    order, and the slots, each one marked empty once its event has been
    handed over, whatever [send] returned. *)
Fixpoint send_loop (sl : list event_slot) (rp i : Z) (n : nat)
  : list (list byte) * list event_slot :=
  match n with
  | O => ([], sl)
  | S n' =>
      let idx := batch_index rp i in
      match sl !! idx with
      | Some slot =>
          let '(out, sl') :=
            send_loop (<[idx := set_state SLOT_EMPTY slot]> sl) rp (i + 1) n' in
          (take (Z.to_nat (len slot)) (data slot) :: out, sl')
      | None => ([], sl)   (* not reached: idx < EVENT_RING_SIZE *)
      end
  end.

(** [flush_batch], with no push running at the same time: the
    datagrams handed to [send] and the ring. *)
Definition flush_batch (ring : event_ring) : list (list byte) * event_ring :=
  let rp := read_pos ring in
  let count := collect_ready (slots ring) rp 0 (Z.to_nat EVENT_BATCH_MAX) in
  if count =? 0 then ([], ring)
  else
    let '(out, sl) := send_loop (slots ring) rp 0 (Z.to_nat count) in
    (out,
     {| slots := sl;
        write_pos := write_pos ring;
        read_pos := wrap64u (rp + count);
        events_queued := events_queued ring;
        events_sent := wrap64u (events_sent ring + count);
        events_dropped := events_dropped ring;
        batch_count := wrap64u (batch_count ring + 1) |}).

Definition tbg_event_ring_queued (ring : event_ring) : Z := events_queued ring.
Definition tbg_event_ring_sent (ring : event_ring) : Z := events_sent ring.

(** [k] rounds of the drainer: all the datagrams, in order. *)
Fixpoint flush_n (k : nat) (ring : event_ring)
  : list (list byte) * event_ring :=
  match k with
  | O => ([], ring)
  | S k' =>
      let '(o, ring1) := flush_batch ring in
      let '(os, ring2) := flush_n k' ring1 in
      (o ++ os, ring2)
  end.

(** Producers and the drainer taking turns on a ring. *)
Inductive ring_op :=
| RingPush (json : option (list byte)) (n : Z)
| RingFlush.

(** A run of such turns: the answers of the pushes, the datagrams sent,
    and the final ring. *)
Fixpoint run_ring (ops : list ring_op) (ring : event_ring)
  : list bool * list (list byte) * event_ring :=
  match ops with
  | [] => ([], [], ring)
  | RingPush json n :: rest =>
      let '(r, ring1) := tbg_event_ring_push ring json n in
      let '(rs, out, ring2) := run_ring rest ring1 in
      (r :: rs, out, ring2)
  | RingFlush :: rest =>
      let '(o, ring1) := flush_batch ring in
      let '(rs, out, ring2) := run_ring rest ring1 in
      (rs, o ++ out, ring2)
  end.

(** The bytes of an event as the ring stores them: at most
    [EVENT_MAX_SIZE - 1] of them. *)
Definition payload (a : option (list byte) * Z) : list byte :=
  match fst a with
  | Some bytes =>
      take (Z.to_nat (if snd a >=? EVENT_MAX_SIZE then EVENT_MAX_SIZE - 1
                      else snd a)) bytes
  | None => []
  end.

(** A push whose buffer holds the [n] > 0 bytes it announces. *)
Definition push_fits (a : option (list byte) * Z) : Prop :=
  match fst a with
  | Some bytes => 0 < snd a <= Z.of_nat (length bytes)
  | None => False
  end.

(** The pushes of a run, in order. *)
Definition pushes_of (ops : list ring_op) : list (option (list byte) * Z) :=
  flat_map (fun o => match o with
                     | RingPush json n => [(json, n)]
                     | RingFlush => []
                     end) ops.

(** The slot of position [p]. *)
Definition slot_of (p : Z) : nat := Z.to_nat (p mod EVENT_RING_SIZE).

(** The slots from position [r] on hold the events [q], oldest first,
    and the rest of the ring is empty. *)
Definition slots_window (sl : list event_slot) (q : list (list byte)) (r : Z)
  : Prop :=
  length sl = Z.to_nat EVENT_RING_SIZE /\
  (length q <= Z.to_nat EVENT_RING_SIZE)%nat /\
  forall j, (j < Z.to_nat EVENT_RING_SIZE)%nat ->
    exists s,
      sl !! slot_of (r + Z.of_nat j) = Some s /\
      match q !! j with
      | Some ev => state s = SLOT_READY /\
                   take (Z.to_nat (len s)) (data s) = ev
      | None => state s = SLOT_EMPTY
      end.

(** The ring holds the events [q] from its read position [r] on. *)
Definition ring_window (ring : event_ring) (q : list (list byte)) (r : Z)
  : Prop :=
  0 <= r /\ read_pos ring = wrap64u r /\ slots_window (slots ring) q r.

(** The number of pushes of a run that pass the argument check. *)
Definition checked_pushes (ops : list ring_op) : nat :=
  length (List.filter
            (fun a => match fst a with
                      | Some _ => negb (snd a =? 0)
                      | None => false
                      end) (pushes_of ops)).

Definition count_true (l : list bool) : nat :=
  length (List.filter (fun b => b) l).

(** A short run: two events with a round of the drainer in between. *)
Definition ring_example : list ring_op :=
  [RingPush (Some [Byte.x61]) 1; RingFlush;
   RingPush (Some [Byte.x62; Byte.x63]) 2].

(** [4096] one-byte pushes. *)
Definition filling_pushes : list (option (list byte) * Z) :=
  replicate (Z.to_nat EVENT_RING_SIZE) (Some [Byte.x61], 1).

End EventRing.

(** ** tbg_relay.h, tbg_relay_server.c, tbg_relay_client.c *)

Module Relay.
Import CInt.
Local Open Scope Z_scope.

Definition TBG_RELAY_MAGIC : list byte :=
  [Byte.x54; Byte.x42; Byte.x47; Byte.x52].   (* "TBGR" *)
Definition TBG_RELAY_MAGIC_LEN : nat := 4.
Definition TBG_RELAY_VERSION : Z := 1.
Definition TBG_RELAY_HDR_LEN : nat := 12.
Definition TBG_RELAY_MAX_MSG : Z := 4 * 1024 * 1024.
Definition TBG_RELAY_HB_INTERVAL : Z := 3.
Definition TBG_RELAY_HB_TIMEOUT : Z := 10.
Definition TBG_RELAY_MAX_PEERS : Z := 16.

Definition TBG_MSG_TEMPLATE : Z := 1.
Definition TBG_MSG_HEARTBEAT : Z := 2.
Definition TBG_MSG_CONFIG_SYNC : Z := 4.
Definition TBG_MSG_REGISTER : Z := 5.

(** *** Wire header *)

(** The packed [tbg_relay_hdr_t]; [length] holds the value in host
    order, the byte order is fixed when the header is laid out. *)
Record tbg_relay_hdr := {
  magic : list byte;     (* char magic[4] *)
  version : Z;           (* uint8_t *)
  msg_type : Z;          (* uint8_t *)
  reserved : Z;          (* uint16_t *)
  length_be : list byte  (* uint32_t in network order: 4 bytes *)
}.

(** The bytes in memory of [htonl(n)] for a [uint32_t] [n]: its four
    base-256 digits, most significant first. *)
Definition htonl (n : Z) : list byte :=
  [byte.of_Z (n / 2 ^ 24); byte.of_Z (n / 2 ^ 16);
   byte.of_Z (n / 2 ^ 8); byte.of_Z n].

(** [ntohl] of the [uint32_t] whose bytes in memory are [bs]. *)
Definition ntohl (bs : list byte) : Z :=
  match bs with
  | [b3; b2; b1; b0] =>
      byte.unsigned b3 * 2 ^ 24 + byte.unsigned b2 * 2 ^ 16 +
      byte.unsigned b1 * 2 ^ 8 + byte.unsigned b0
  | _ => 0
  end.

(** The 12 bytes of a header as [send(fd, &hdr, 12, ...)] writes them. *)
Definition hdr_bytes (h : tbg_relay_hdr) : list byte :=
  magic h ++ [byte.of_Z (version h); byte.of_Z (msg_type h)] ++
  [byte.of_Z (reserved h); byte.of_Z (reserved h / 2 ^ 8)] ++
  length_be h.

(** The header [recv_exact(fd, &hdr, 12)] fills from 12 bytes. *)
Definition hdr_of_bytes (bs : list byte) : tbg_relay_hdr :=
  {| magic := take 4 bs;
     version := byte.unsigned (nth 4 bs Byte.x00);
     msg_type := byte.unsigned (nth 5 bs Byte.x00);
     reserved := byte.unsigned (nth 6 bs Byte.x00) +
                 byte.unsigned (nth 7 bs Byte.x00) * 2 ^ 8;
     length_be := take 4 (drop 8 bs) |}.

(** *** send_msg (server and client copies are the same code) *)

(** [send_msg] on a socket that takes every byte it is given: the return
    value and the bytes put on the wire.  [len] is a [uint32_t]. *)
Definition send_msg (msg_type0 : Z) (payload : option (list byte)) (len : Z)
  : Z * list byte :=
  let hdr :=
    {| magic := take TBG_RELAY_MAGIC_LEN TBG_RELAY_MAGIC;
       version := TBG_RELAY_VERSION;
       msg_type := msg_type0;
       reserved := 0;
       length_be := htonl len |} in
  let body :=
    match payload with
    | Some p => if len >? 0 then take (Z.to_nat len) p else []
    | None => []
    end in
  (0, hdr_bytes hdr ++ body).

(** *** recv_msg (server and client copies are the same code) *)

(** [memcmp(a, b, n) == 0] *)
Fixpoint memcmp_eq (a b : list byte) (n : nat) : bool :=
  match n, a, b with
  | O, _, _ => true
  | S n', x :: a', y :: b' => Byte.eqb x y && memcmp_eq a' b' n'
  | S _, _, _ => false
  end.

(** [recv_exact]: [n] bytes and the rest of the stream, or [None] when
    the stream ends (or the read fails) before [n] bytes arrived. *)
Definition recv_exact (stream : list byte) (n : nat)
  : option (list byte * list byte) :=
  if (n <=? length stream)%nat then Some (take n stream, drop n stream)
  else None.

(** What [recv_msg] hands back: the returned [int], [*payload] and
    [*out_len]. *)
Record recv_out := {
  ret : Z;
  out_payload : option (list byte);
  out_len : Z
}.

Definition recv_fail : recv_out :=
  {| ret := -1; out_payload := None; out_len := 0 |}.

(** [recv_msg] reading from [stream]; [malloc_ok] tells whether the
    payload buffer can be allocated.  The second component is what is
    left unread on the stream. *)
Definition recv_msg (malloc_ok : bool) (stream : list byte)
  : recv_out * list byte :=
  match recv_exact stream TBG_RELAY_HDR_LEN with
  | None => (recv_fail, [])
  | Some (raw, rest) =>
      let hdr := hdr_of_bytes raw in
      if negb (memcmp_eq (magic hdr) TBG_RELAY_MAGIC TBG_RELAY_MAGIC_LEN)
      then (recv_fail, rest)
      else if negb (version hdr =? TBG_RELAY_VERSION) then (recv_fail, rest)
      else
        let len := ntohl (length_be hdr) in
        if len >? TBG_RELAY_MAX_MSG then (recv_fail, rest)
        else if len >? 0 then
          if negb malloc_ok then (recv_fail, rest)
          else
            match recv_exact rest (Z.to_nat len) with
            | None => (recv_fail, [])
            | Some (p, rest') =>
                ({| ret := msg_type hdr; out_payload := Some p;
                    out_len := len |}, rest')
            end
        else
          ({| ret := msg_type hdr; out_payload := None; out_len := len |},
           rest)
  end.

(** *** Relay client: receiver thread and heartbeat monitor *)

Record tbg_relay_client_state := {
  fd : Z;
  failover_timeout : Z;
  last_heartbeat : Z;
  connected : bool;
  independent_mode : bool
}.

(** What the client does to the outside world. *)
Inductive effect :=
| Closed (fd0 : Z)
| Sent (msg_type0 : Z)
| Delivered (payload : list byte) (len : Z).

(** The client: its state, whether a template callback is registered,
    and the effects so far, latest first. *)
Record client := {
  client_state : tbg_relay_client_state;
  template_callback : bool;
  trace : list effect
}.

Definition tbg_relay_client_init (failover_timeout0 : Z) : client :=
  {| client_state :=
       {| fd := -1;
          failover_timeout := if failover_timeout0 >? 0 then failover_timeout0
                              else TBG_RELAY_HB_TIMEOUT;
          last_heartbeat := 0;
          connected := false;
          independent_mode := false |};
     template_callback := false;
     trace := [] |}.

Definition tbg_relay_set_template_callback (cb : bool) (c : client) : client :=
  {| client_state := client_state c; template_callback := cb;
     trace := trace c |}.

(** The [if (client_state.fd < 0)] block at the top of the receiver
    loop; [new_fd] is the answer of [connect_to_primary]. *)
Definition receiver_connect (now new_fd : Z) (c : client) : client :=
  let s := client_state c in
  if fd s <? 0 then
    if new_fd <? 0 then
      {| client_state :=
           {| fd := new_fd;
              failover_timeout := failover_timeout s;
              last_heartbeat := last_heartbeat s;
              connected := connected s;
              independent_mode := independent_mode s |};
         template_callback := template_callback c;
         trace := trace c |}
    else
      {| client_state :=
           {| fd := new_fd;
              failover_timeout := failover_timeout s;
              last_heartbeat := now;
              connected := true;
              independent_mode := false |};
         template_callback := template_callback c;
         trace := Sent TBG_MSG_REGISTER :: trace c |}
  else c.

(** The branch taken when [recv_msg] fails for a reason other than a
    timeout. *)
Definition receiver_lost (c : client) : client :=
  let s := client_state c in
  {| client_state :=
       {| fd := -1;
          failover_timeout := failover_timeout s;
          last_heartbeat := last_heartbeat s;
          connected := false;
          independent_mode := independent_mode s |};
     template_callback := template_callback c;
     trace := Closed (fd s) :: trace c |}.

Definition touch_heartbeat (now : Z) (c : client) : client :=
  let s := client_state c in
  {| client_state :=
       {| fd := fd s;
          failover_timeout := failover_timeout s;
          last_heartbeat := now;
          connected := connected s;
          independent_mode := independent_mode s |};
     template_callback := template_callback c;
     trace := trace c |}.

(** The [switch (msg_type)] of the receiver loop. *)
Definition receiver_dispatch (now : Z) (m : recv_out) (c : client) : client :=
  if ret m =? TBG_MSG_HEARTBEAT then touch_heartbeat now c
  else if ret m =? TBG_MSG_TEMPLATE then
    let c1 := touch_heartbeat now c in
    match out_payload m with
    | Some p =>
        if template_callback c1 &&
           negb (independent_mode (client_state c1))
        then {| client_state := client_state c1;
                template_callback := template_callback c1;
                trace := Delivered p (out_len m) :: trace c1 |}
        else c1
    | None => c1
    end
  else if ret m =? TBG_MSG_CONFIG_SYNC then touch_heartbeat now c
  else c.

(** One pass of the heartbeat monitor after its sleep. *)
Definition heartbeat_monitor (now : Z) (c : client) : client :=
  let s := client_state c in
  let tr := if connected s && (fd s >=? 0)
            then Sent TBG_MSG_HEARTBEAT :: trace c else trace c in
  if connected s then
    let elapsed := now - last_heartbeat s in
    if (elapsed >? failover_timeout s) && negb (independent_mode s) then
      if fd s >=? 0 then
        {| client_state :=
             {| fd := -1;
                failover_timeout := failover_timeout s;
                last_heartbeat := last_heartbeat s;
                connected := false;
                independent_mode := true |};
           template_callback := template_callback c;
           trace := Closed (fd s) :: tr |}
      else
        {| client_state :=
             {| fd := fd s;
                failover_timeout := failover_timeout s;
                last_heartbeat := last_heartbeat s;
                connected := connected s;
                independent_mode := true |};
           template_callback := template_callback c;
           trace := tr |}
    else {| client_state := s; template_callback := template_callback c;
            trace := tr |}
  else {| client_state := s; template_callback := template_callback c;
          trace := tr |}.

(** The steps the two threads and the caller take on the shared client;
    each is one uninterrupted block of the source. *)
Inductive client_step :=
| StepSetCallback (cb : bool)
| StepConnect (now new_fd : Z)
| StepLost
| StepDispatch (now : Z) (m : recv_out)
| StepMonitor (now : Z).

Definition run_client_step (st : client_step) (c : client) : client :=
  match st with
  | StepSetCallback cb => tbg_relay_set_template_callback cb c
  | StepConnect now new_fd => receiver_connect now new_fd c
  | StepLost => receiver_lost c
  | StepDispatch now m => receiver_dispatch now m c
  | StepMonitor now => heartbeat_monitor now c
  end.

Inductive client_reachable : client -> Prop :=
| creach_init (t : Z) : client_reachable (tbg_relay_client_init t)
| creach_step (st : client_step) (c : client) :
    client_reachable c -> client_reachable (run_client_step st c).

(** A step hands the payload [p] to the template callback. *)
Definition delivers (before after : client) (p : list byte) : Prop :=
  trace after = Delivered p (Z.of_nat (length p)) :: trace before.

(** The effects of the client hold no delivery of a template. *)
Definition no_delivery (tr : list effect) : Prop :=
  forall p n, ~ In (Delivered p n) tr.

(** What [recv_msg] returns for a well-formed frame of type [t] with
    payload [p]: a NULL payload when the frame carries no bytes. *)
Definition msg_of (t : Z) (p : list byte) : recv_out :=
  {| ret := t;
     out_payload := match p with [] => None | _ => Some p end;
     out_len := Z.of_nat (length p) |}.

(** *** Primary side: per-peer handler *)

Record tbg_relay_peer := {
  peer_fd : Z;
  region : list byte;          (* char region[32] *)
  peer_last_heartbeat : Z;
  active : bool
}.

Definition REGION_SIZE : nat := 32.

(** The bytes of a buffer before its first NUL. *)
Fixpoint cstring (buf : list byte) : list byte :=
  match buf with
  | [] => []
  | b :: r => if Byte.eqb b Byte.x00 then [] else b :: cstring r
  end.

(** [strncpy(dst, src, n)]: the string in [src] cut to [n] bytes and
    padded with NULs to [n] bytes, over the first [n] bytes of [dst]. *)
Definition strncpy (dst src : list byte) (n : nat) : list byte :=
  let s := take n (cstring src) in
  s ++ replicate (n - length s) Byte.x00 ++ drop n dst.

(** The [switch (msg_type)] of [peer_handler] for a message [recv_msg]
    returned; the buffer behind a non-NULL payload is the payload
    followed by the NUL that [recv_msg] appends. *)
Definition peer_dispatch (now : Z) (m : recv_out) (peer : tbg_relay_peer)
  : tbg_relay_peer :=
  if ret m =? TBG_MSG_HEARTBEAT then
    {| peer_fd := peer_fd peer; region := region peer;
       peer_last_heartbeat := now; active := active peer |}
  else if ret m =? TBG_MSG_REGISTER then
    let region' :=
      match out_payload m with
      | Some p =>
          if out_len m <? Z.of_nat REGION_SIZE
          then <[(REGION_SIZE - 1)%nat := Byte.x00]>
                 (strncpy (region peer) (p ++ [Byte.x00]) (REGION_SIZE - 1))
          else region peer
      | None => region peer
      end in
    {| peer_fd := peer_fd peer; region := region';
       peer_last_heartbeat := now; active := active peer |}
  else peer.

(** A client with a template callback, connected at time 100 on
    descriptor 5 with a failover timeout of 10 seconds. *)
Definition connected_client : client :=
  run_client_step (StepConnect 100 5)
    (run_client_step (StepSetCallback true) (tbg_relay_client_init 10)).

(** The region tag "eu-west", and a tag of 32 letters. *)
Definition region_tag : list byte :=
  [Byte.x65; Byte.x75; Byte.x2d; Byte.x77; Byte.x65; Byte.x73; Byte.x74].

Definition long_tag : list byte := replicate 32 Byte.x61.

(** A TEMPLATE payload, and a frame whose magic is "XBGR". *)
Definition job_payload : list byte :=
  [Byte.x7b; Byte.x22; Byte.x6a; Byte.x6f; Byte.x62; Byte.x22; Byte.x3a;
   Byte.x31; Byte.x7d].

Definition bad_magic_header : list byte :=
  [Byte.x58; Byte.x42; Byte.x47; Byte.x52; Byte.x01; Byte.x01; Byte.x00;
   Byte.x00; Byte.x00; Byte.x00; Byte.x00; Byte.x09].

(** A header that a reader must refuse: wrong magic, wrong version, or
    a length above the maximum. *)
Definition bad_header (raw : list byte) : Prop :=
  take TBG_RELAY_MAGIC_LEN raw <> TBG_RELAY_MAGIC \/
  byte.unsigned (nth 4 raw Byte.x00) <> TBG_RELAY_VERSION \/
  ntohl (take 4 (drop 8 raw)) > TBG_RELAY_MAX_MSG.

(** The peer slot as the listener sets it up: region "unknown". *)
Definition fresh_peer (fd0 now : Z) : tbg_relay_peer :=
  {| peer_fd := fd0;
     region := [Byte.x75; Byte.x6e; Byte.x6b; Byte.x6e; Byte.x6f; Byte.x77;
                Byte.x6e] ++ replicate 25 Byte.x00;
     peer_last_heartbeat := now;
     active := true |}.

(** *** Primary side: peer table, listener, heartbeat sender *)

(** [tbg_relay_server_state_t] without the listening socket, the port
    and the thread handles, which no function below reads. *)
Record tbg_relay_server_state := {
  peers : list tbg_relay_peer;    (* peers[TBG_RELAY_MAX_PEERS] *)
  peer_count : Z;                 (* int *)
  running : bool
}.

Definition set_active (a : bool) (p : tbg_relay_peer) : tbg_relay_peer :=
  {| peer_fd := peer_fd p; region := region p;
     peer_last_heartbeat := peer_last_heartbeat p; active := a |}.

(** A peer slot of all-zero bytes, and the state after [memset]. *)
Definition zero_peer : tbg_relay_peer :=
  {| peer_fd := 0; region := replicate REGION_SIZE Byte.x00;
     peer_last_heartbeat := 0; active := false |}.

Definition zero_server : tbg_relay_server_state :=
  {| peers := replicate (Z.to_nat TBG_RELAY_MAX_PEERS) zero_peer;
     peer_count := 0; running := false |}.

(** [tbg_relay_server_init]: [sockets_ok] tells whether [socket], [bind]
    and [listen] succeed, [thread_ok] whether the listener thread
    starts. *)
Definition tbg_relay_server_init (sockets_ok thread_ok : bool)
  (st : tbg_relay_server_state) : Z * tbg_relay_server_state :=
  if running st then (0, st)
  else if negb sockets_ok then (-1, zero_server)
  else if negb thread_ok then (-1, zero_server)
  else (0, {| peers := peers zero_server; peer_count := 0; running := true |}).

(** The search of [listener_thread] for a slot that is not active. *)
Fixpoint first_inactive (ps : list tbg_relay_peer) : option nat :=
  match ps with
  | [] => None
  | p :: rest =>
      if negb (active p) then Some O
      else match first_inactive rest with
           | Some i => Some (S i)
           | None => None
           end
  end.

(** The body of the loop of [listener_thread] once [accept] has
    returned [client_fd]: the slot given to the peer when its handler
    thread runs, the descriptors closed, and the state. *)
Definition listener_accept (now client_fd : Z) (thread_ok : bool)
  (st : tbg_relay_server_state)
  : option nat * list Z * tbg_relay_server_state :=
  match first_inactive (take (Z.to_nat TBG_RELAY_MAX_PEERS) (peers st)) with
  | None => (None, [client_fd], st)
  | Some slot =>
      let peer := fresh_peer client_fd now in
      let count := if Z.of_nat slot >=? peer_count st then Z.of_nat slot + 1
                   else peer_count st in
      if thread_ok
      then (Some slot, [],
            {| peers := <[slot := peer]> (peers st); peer_count := count;
               running := running st |})
      else (None, [client_fd],
            {| peers := <[slot := set_active false peer]> (peers st);
               peer_count := count; running := running st |})
  end.

(** What one pass of [heartbeat_sender] does to a peer; [send_ok] tells
    whether the heartbeat could be sent. *)
Definition heartbeat_peer (now : Z) (send_ok : bool) (peer : tbg_relay_peer)
  : tbg_relay_peer :=
  if negb (active peer) then peer
  else if negb send_ok then set_active false peer
  else if now - peer_last_heartbeat peer >? TBG_RELAY_HB_INTERVAL * 3
       then set_active false peer
  else peer.

(** One pass of [heartbeat_sender] over the slots below [peer_count];
    [send_ok i] tells whether the send to slot [i] succeeds. *)
Definition heartbeat_sender (now : Z) (send_ok : nat -> bool)
  (st : tbg_relay_server_state) : tbg_relay_server_state :=
  {| peers := imap (fun i p => if Z.of_nat i <? peer_count st
                               then heartbeat_peer now (send_ok i) p
                               else p) (peers st);
     peer_count := peer_count st;
     running := running st |}.

(** [tbg_relay_push_template]: the descriptors written to and the bytes
    put on each. *)
Definition tbg_relay_push_template (send_ok : nat -> bool)
  (template_json : option (list byte)) (len : Z)
  (st : tbg_relay_server_state) : list (Z * list byte) :=
  match template_json with
  | None => []
  | Some t =>
      if negb (running st) || (len <=? 0) then []
      else
        concat
          (imap (fun i p =>
                   if (Z.of_nat i <? peer_count st) && active p && send_ok i
                   then [(peer_fd p,
                          snd (send_msg TBG_MSG_TEMPLATE (Some t) len))]
                   else []) (peers st))
  end.

Fixpoint count_active (ps : list tbg_relay_peer) : Z :=
  match ps with
  | [] => 0
  | p :: rest => (if active p then 1 else 0) + count_active rest
  end.

Definition tbg_relay_peer_count (st : tbg_relay_server_state) : Z :=
  count_active (take (Z.to_nat (peer_count st)) (peers st)).

(** The end of [peer_handler] for the peer in slot [i]. *)
Definition peer_handler_exit (i : nat) (st : tbg_relay_server_state)
  : tbg_relay_server_state :=
  match peers st !! i with
  | Some p =>
      {| peers := <[i := {| peer_fd := -1; region := region p;
                            peer_last_heartbeat := peer_last_heartbeat p;
                            active := false |}]> (peers st);
         peer_count := peer_count st; running := running st |}
  | None => st
  end.

(** A message handled by the [peer_handler] of slot [i]. *)
Definition peer_handler_dispatch (i : nat) (now : Z) (m : recv_out)
  (st : tbg_relay_server_state) : tbg_relay_server_state :=
  match peers st !! i with
  | Some p =>
      {| peers := <[i := peer_dispatch now m p]> (peers st);
         peer_count := peer_count st; running := running st |}
  | None => st
  end.

(** The steps of the listener, the heartbeat sender and the peer
    handlers on the shared state, each one uninterrupted block of the
    source. *)
Inductive server_step :=
| SrvAccept (now client_fd : Z) (thread_ok : bool)
| SrvHeartbeat (now : Z) (send_ok : nat -> bool)
| SrvDispatch (i : nat) (now : Z) (m : recv_out)
| SrvHandlerExit (i : nat).

Definition run_server_step (s : server_step) (st : tbg_relay_server_state)
  : tbg_relay_server_state :=
  match s with
  | SrvAccept now client_fd thread_ok =>
      snd (listener_accept now client_fd thread_ok st)
  | SrvHeartbeat now send_ok => heartbeat_sender now send_ok st
  | SrvDispatch i now m => peer_handler_dispatch i now m st
  | SrvHandlerExit i => peer_handler_exit i st
  end.

Inductive server_reachable : tbg_relay_server_state -> Prop :=
| sreach_init :
    server_reachable (snd (tbg_relay_server_init true true zero_server))
| sreach_step (s : server_step) (st : tbg_relay_server_state) :
    server_reachable st -> server_reachable (run_server_step s st).

(** The peer table has its 16 slots, and every active peer lies below
    [peer_count]. *)
Definition server_inv (st : tbg_relay_server_state) : Prop :=
  length (peers st) = Z.to_nat TBG_RELAY_MAX_PEERS /\
  0 <= peer_count st <= TBG_RELAY_MAX_PEERS /\
  forall i p, peers st !! i = Some p -> active p = true ->
              Z.of_nat i < peer_count st.

(** *** Relay side: the region tag *)

(** [client_region] as initialised: "unknown" in 32 bytes. *)
Definition client_region_default : list byte :=
  [Byte.x75; Byte.x6e; Byte.x6b; Byte.x6e; Byte.x6f; Byte.x77; Byte.x6e] ++
  replicate 25 Byte.x00.

(** [client_region] after [tbg_relay_client_init] was given [region]
    ([None] for NULL). *)
Definition client_region_init (region0 : option (list byte)) : list byte :=
  match region0 with
  | Some r => strncpy client_region_default r (REGION_SIZE - 1)
  | None => client_region_default
  end.

(** The bytes of the REGISTER message the receiver thread sends after
    connecting. *)
Definition register_frame (client_region : list byte) : list byte :=
  snd (send_msg TBG_MSG_REGISTER (Some client_region)
         (Z.of_nat (length (cstring client_region)))).



End Relay.

(** * Properties *)

(** ** Bitcoin address shape check *)

Module InputValidationFacts.
Import CLib InputValidation.

Ltac ascii_cases c :=
  let b0 := fresh in let b1 := fresh in let b2 := fresh in
  let b3 := fresh in let b4 := fresh in let b5 := fresh in
  let b6 := fresh in let b7 := fresh in
  destruct c as [b0 b1 b2 b3 b4 b5 b6 b7];
  destruct b0, b1, b2, b3, b4, b5, b6, b7.

Lemma tolower_nul (c : ascii) : is_nul (tolower c) = is_nul c.
Proof. ascii_cases c; reflexivity. Qed.

Lemma tolower_b (c : ascii) :
  tolower c = "b"%char -> c = "b"%char \/ c = "B"%char.
Proof. ascii_cases c; cbv; intros E; try discriminate E; auto. Qed.

Lemma tolower_t (c : ascii) :
  tolower c = "t"%char -> c = "t"%char \/ c = "T"%char.
Proof. ascii_cases c; cbv; intros E; try discriminate E; auto. Qed.

Lemma tolower_c (c : ascii) :
  tolower c = "c"%char -> c = "c"%char \/ c = "C"%char.
Proof. ascii_cases c; cbv; intros E; try discriminate E; auto. Qed.

Lemma is_nul_true (c : ascii) : is_nul c = true <-> c = NUL.
Proof. unfold is_nul. apply Ascii.eqb_eq. Qed.

(** [strchr] finds exactly the characters of the C string and NUL. *)
Lemma strchr_found_iff (s : string) (c : ascii) :
  strchr_found s c = true <->
  In c (list_ascii_of_string (c_str s)) \/ c = NUL.
Proof.
  induction s as [|d r IH]; simpl.
  - rewrite is_nul_true. tauto.
  - destruct (Ascii.eqb d c) eqn:Edc.
    + apply Ascii.eqb_eq in Edc. subst d.
      destruct (is_nul c) eqn:En.
      * apply is_nul_true in En. tauto.
      * simpl. tauto.
    + apply Ascii.eqb_neq in Edc.
      destruct (is_nul d) eqn:En.
      * simpl. split; [discriminate|].
        intros [[]|E]. apply is_nul_true in En. congruence.
      * simpl. rewrite IH. intuition congruence.
Qed.

Lemma bech32_found_iff (c : ascii) :
  is_nul c = false ->
  strchr_found BECH32_CHARS c = true <-> in_bech32_charset c.
Proof.
  intros Hc. rewrite strchr_found_iff. unfold in_bech32_charset.
  change (c_str BECH32_CHARS) with BECH32_CHARS.
  split; [intros [H|H]; [exact H|] | auto].
  apply is_nul_true in H. congruence.
Qed.

(** The data loop accepts exactly the strings made of bech32
    characters. *)
Lemma bech32_data_loop_iff (s : string) :
  bech32_data_loop s = true <->
  forall i, (i < strlen s)%nat -> in_bech32_charset (tolower (char_at s i)).
Proof.
  induction s as [|d r IH]; cbn [bech32_data_loop strlen].
  - split; [intros _ i Hi; lia | reflexivity].
  - destruct (is_nul d) eqn:En.
    + split; [intros _ i Hi; lia | reflexivity].
    + assert (Hl : is_nul (tolower d) = false) by (rewrite tolower_nul; exact En).
      destruct (strchr_found BECH32_CHARS (tolower d)) eqn:Ef; cbn [negb].
      * rewrite IH. split.
        -- intros H [|i] Hi.
           ++ apply bech32_found_iff; assumption.
           ++ apply (H i). lia.
        -- intros H i Hi. apply (H (S i)). lia.
      * split; [discriminate|]. intros H.
        assert (Hin : in_bech32_charset (tolower d)) by (apply (H 0%nat); lia).
        apply bech32_found_iff in Hin; [congruence | assumption].
Qed.

Lemma char_at_nul_strlen (s : string) (i : nat) :
  (i < strlen s)%nat -> is_nul (char_at s i) = false.
Proof.
  revert i. induction s as [|d r IH]; simpl; intros i Hi; [lia|].
  destruct (is_nul d) eqn:En; [lia|].
  destruct i as [|i]; [exact En|]. apply (IH i). lia.
Qed.

(** A string with the segwit prefix has three leading non-NUL bytes and
    passes the prefix tests of the source. *)
Lemma segwit_prefix_inv (a : string) :
  segwit_prefix a ->
  exists c0 c1 r,
    a = String c0 (String c1 (String "1" r)) /\
    (strncasecmp a "bc1" 3 =? 0)%Z || (strncasecmp a "tb1" 3 =? 0)%Z = true /\
    is_nul c0 = false /\ is_nul c1 = false /\
    (Ascii.eqb c0 "1" || Ascii.eqb c0 "3" || Ascii.eqb c0 "m" ||
     Ascii.eqb c0 "n" || Ascii.eqb c0 "2") = false.
Proof.
  intros [Hp H2].
  destruct a as [|c0 [|c1 [|c2 r]]];
    try (cbv in H2; discriminate H2);
    try (destruct Hp as [[_ Hp]|[_ Hp]]; cbv in Hp; discriminate Hp);
    try (destruct Hp as [[Hp _]|[Hp _]]; cbv in Hp; discriminate Hp).
  unfold char_at in H2. simpl in H2. subst c2.
  exists c0, c1, r. split; [reflexivity|].
  unfold char_at in Hp. simpl in Hp.
  destruct Hp as [[Hb Hc]|[Ht Hb]].
  - apply tolower_b in Hb. apply tolower_c in Hc.
    destruct Hb as [-> | ->], Hc as [-> | ->]; repeat split; reflexivity.
  - apply tolower_t in Ht. apply tolower_b in Hb.
    destruct Ht as [-> | ->], Hb as [-> | ->]; repeat split; reflexivity.
Qed.

Lemma tolower_eqb_q_p_in_charset (c : ascii) :
  tolower c = "q"%char \/ tolower c = "p"%char ->
  in_bech32_charset (tolower c).
Proof.
  intros [-> | ->]; unfold in_bech32_charset; simpl; auto.
Qed.

Lemma validate_bech32_address_iff (a : string) :
  segwit_prefix a ->
  validate_bech32_address (Some a) = true <-> bech32_shape a.
Proof.
  intros Hp. destruct (segwit_prefix_inv a Hp)
    as (c0 & c1 & r & -> & Hpre & H0 & H1 & _).
  unfold validate_bech32_address, bech32_shape.
  set (a := String c0 (String c1 (String "1" r))) in *.
  destruct ((strlen a <? 14)%nat || (74 <? strlen a)%nat) eqn:Elen.
  { split; [discriminate|]. intros [Hl _].
    apply orb_true_iff in Elen.
    destruct Elen as [E|E]; [apply Nat.ltb_lt in E | apply Nat.ltb_lt in E]; lia. }
  apply orb_false_iff in Elen. destruct Elen as [E1 E2].
  apply Nat.ltb_ge in E1. apply Nat.ltb_ge in E2.
  replace (negb (strncasecmp a "bc1" 3 =? 0)%Z &&
           negb (strncasecmp a "tb1" 3 =? 0)%Z) with false
    by (rewrite <- negb_orb, Hpre; reflexivity).
  assert (Hlen : strlen a = (3 + strlen r)%nat).
  { subst a. simpl. rewrite H0, H1. reflexivity. }
  destruct r as [|c3 r']; [change (strlen "") with 0%nat in Hlen; lia|].
  change (strlen (String c3 r'))
    with (if is_nul c3 then 0%nat else S (strlen r')) in Hlen.
  assert (H3 : is_nul c3 = false).
  { destruct (is_nul c3) eqn:E; [|reflexivity]. lia. }
  rewrite H3 in Hlen.
  change (char_at a 3) with c3.
  change (advance 4 a) with r'.
  assert (Hlen' : strlen a = (4 + strlen r')%nat) by lia.
  destruct (negb (Ascii.eqb (tolower c3) "q") &&
            negb (Ascii.eqb (tolower c3) "p")) eqn:E4.
  { split; [discriminate|]. intros (_ & [Hq|Hq] & _);
      rewrite Hq in E4; discriminate E4. }
  assert (Hqp : tolower c3 = "q"%char \/ tolower c3 = "p"%char).
  { apply andb_false_iff in E4.
    destruct E4 as [E|E]; apply negb_false_iff, Ascii.eqb_eq in E; auto. }
  rewrite bech32_data_loop_iff. split.
  - intros H. split; [lia|]. split; [exact Hqp|].
    intros i Hi. destruct (Nat.eq_dec i 3) as [-> | Hne].
    + change (char_at a 3) with c3.
      apply tolower_eqb_q_p_in_charset. exact Hqp.
    + replace i with (4 + (i - 4))%nat by lia.
      change (char_at a (4 + (i - 4))) with (char_at r' (i - 4)).
      apply H. lia.
  - intros (_ & _ & H) i Hi.
    change (char_at r' i) with (char_at a (4 + i)).
    apply H. lia.
Qed.

Lemma tbg_validate_is_bech32 (a : string) :
  segwit_prefix a ->
  tbg_validate_btc_address (Some a) = validate_bech32_address (Some a).
Proof.
  intros Hp. destruct (segwit_prefix_inv a Hp)
    as (c0 & c1 & r & -> & Hpre & H0 & H1 & Hc0).
  unfold tbg_validate_btc_address.
  set (a := String c0 (String c1 (String "1" r))) in *.
  change (char_at a 0) with c0. rewrite Hc0, Hpre.
  destruct ((strlen a =? 0)%nat || (MAX_BTC_ADDRESS_LEN <? strlen a)%nat) eqn:E;
    [|reflexivity].
  apply orb_true_iff in E. destruct E as [E|E].
  - apply Nat.eqb_eq in E. subst a. simpl in E. rewrite H0 in E. discriminate E.
  - apply Nat.ltb_lt in E. unfold MAX_BTC_ADDRESS_LEN in E.
    unfold validate_bech32_address.
    replace (74 <? strlen a)%nat with true by (symmetry; apply Nat.ltb_lt; lia).
    rewrite orb_true_r. reflexivity.
Qed.

(** C1 (amended): for every string that starts, case-insensitively,
    with [bc1] or [tb1], [tbg_validate_btc_address] accepts it iff its
    length is between 14 and 74, its 4th character is [q] or [p] in
    either case, and every character after the first three is, once
    lower-cased, in the bech32 charset.  Nothing is asked about the mix of
    upper and lower case. *)
Theorem C1_segwit_shape_check (a : string) :
  segwit_prefix a ->
  tbg_validate_btc_address (Some a) = true <-> bech32_shape a.
Proof.
  intros Hp. rewrite (tbg_validate_is_bech32 a Hp).
  apply validate_bech32_address_iff. exact Hp.
Qed.

Lemma C1_segwit_shape_check_witness :
  segwit_prefix bip173_address /\
  (tbg_validate_btc_address (Some bip173_address) = true <->
   bech32_shape bip173_address).
Proof.
  assert (Hp : segwit_prefix bip173_address).
  { split; [left; split|]; reflexivity. }
  split; [exact Hp | apply (C1_segwit_shape_check bip173_address Hp)].
Defined.

(** C1, as stated, fails: an address of the right shape that mixes upper
    and lower case is accepted. *)
Lemma C1_mixed_case_accepted :
  segwit_prefix mixed_case_address /\
  mixed_case mixed_case_address = true /\
  tbg_validate_btc_address (Some mixed_case_address) = true.
Proof.
  split; [split; [left; split|]; reflexivity|].
  split; vm_compute; reflexivity.
Qed.

End InputValidationFacts.

(** ** Slab pool counters *)

Module MemoryPoolFacts.
Import MemoryPool.
Local Open Scope Z_scope.

Lemma pool_grow_counters env m pool count :
  counters_ok pool ->
  counters_ok (snd (pool_grow env m pool count)) /\
  max_items (snd (pool_grow env m pool count)) = max_items pool.
Proof.
  unfold counters_ok, pool_grow. intros H.
  destruct (total_allocated pool + count >? max_items pool) eqn:Ex.
  - destruct (max_items pool - total_allocated pool <=? 0) eqn:Ec;
      cbn [andb]; [simpl; lia|].
    apply Z.leb_gt in Ec.
    destruct (env_slab env =? NULL); [simpl; lia|].
    destruct ((slab_count pool >=? slabs_capacity pool) &&
              negb (env_realloc_ok env)); [simpl; lia|].
    destruct (push_items _ _ _ _ _ _) as [m' head]. simpl. lia.
  - cbn [andb].
    assert (total_allocated pool + count <= max_items pool) by lia.
    destruct (env_slab env =? NULL); [simpl; lia|].
    destruct ((slab_count pool >=? slabs_capacity pool) &&
              negb (env_realloc_ok env)); [simpl; lia|].
    destruct (push_items _ _ _ _ _ _) as [m' head]. simpl. lia.
Qed.

(** Allocation keeps the counters in order, whether the item comes from
    the free list, a new slab or the direct fallback. *)
Lemma tbg_pool_alloc_counters env m pool :
  counters_ok pool ->
  counters_ok (snd (tbg_pool_alloc env m pool)).
Proof.
  intros H. unfold tbg_pool_alloc.
  destruct (negb (free_list pool =? NULL)).
  - unfold pop_free, counters_ok in *. simpl. lia.
  - match goal with
    | |- context [pool_grow env m pool ?g] =>
        pose proof (pool_grow_counters env m pool g H) as [Hg _];
        destruct (pool_grow env m pool g) as [[ok m'] pool']
    end.
    simpl in Hg. destruct ok; unfold pop_free, counters_ok in *; simpl; lia.
Qed.

(** Freeing keeps the counters in order as long as fewer items are on
    the free list than were carved out of slabs. *)
Lemma tbg_pool_free_counters m pool item :
  counters_ok pool ->
  total_free pool < total_allocated pool ->
  counters_ok (snd (tbg_pool_free m pool item)).
Proof.
  unfold counters_ok, tbg_pool_free. intros H Hlt.
  destruct (item =? NULL); simpl; lia.
Qed.

(** C2 fails on the code: a pool limited to one item hands out a second
    item by direct allocation; once both are freed the free counter is 2
    while [total_allocated] and [max_items] are 1. *)
Theorem C2_fallback_free_breaks_counters :
  (let '(a, b, _, p2) := scenario_allocs in
   a = 4096 /\ b = env_direct scenario_env /\
   total_free p2 = 0 /\ total_allocated p2 = 1) /\
  total_free scenario_pool = 2 /\
  total_allocated scenario_pool = 1 /\
  max_items scenario_pool = 1 /\
  tbg_pool_in_use scenario_pool = -1 /\
  ~ counters_ok scenario_pool.
Proof.
  assert (Hf : total_free scenario_pool = 2) by (vm_compute; reflexivity).
  assert (Ha : total_allocated scenario_pool = 1) by (vm_compute; reflexivity).
  split; [vm_compute; repeat split; reflexivity|].
  repeat split; try (vm_compute; reflexivity).
  unfold counters_ok. rewrite Hf, Ha. lia.
Qed.

End MemoryPoolFacts.

(** ** Token bucket and per-IP admission *)

Module RateLimitFacts.
Import CInt CLib RateLimit.
Local Open Scope Z_scope.

Lemma wrap32u_small z : 0 <= z < 2 ^ 32 -> wrap32u z = z.
Proof. intros H. unfold wrap32u. apply Z.mod_small. exact H. Qed.

Lemma wrap32s_small z : int_range z -> wrap32s z = z.
Proof.
  unfold int_range, INT_MIN, INT_MAX, wrap32s. intros H.
  rewrite Z.mod_small; lia.
Qed.

Lemma wrap32u_range z : 0 <= wrap32u z < 2 ^ 32.
Proof. unfold wrap32u. apply Z.mod_pos_bound. lia. Qed.

(** *** Token bucket *)

(** Refill never leaves more than [max_tokens] in the bucket, wrapped
    sum or not. *)
Lemma bucket_refill_le_max now b :
  tokens b <= max_tokens b ->
  tokens (bucket_refill now b) <= max_tokens (bucket_refill now b) /\
  max_tokens (bucket_refill now b) = max_tokens b /\
  refill_per_min (bucket_refill now b) = refill_per_min b.
Proof.
  intros H. unfold bucket_refill.
  destruct (now - last_refill b <=? 0); [auto|].
  destruct (wrap32u _ =? 0); [auto|].
  cbn [tokens max_tokens refill_per_min].
  destruct (wrap32u (tokens b + _) >? max_tokens b) eqn:E; [lia|].
  split; [lia | auto].
Qed.

Lemma bucket_consume_le_max now b :
  0 <= tokens b <= max_tokens b ->
  0 <= tokens (snd (bucket_consume now b))
    <= max_tokens (snd (bucket_consume now b)) /\
  max_tokens (snd (bucket_consume now b)) = max_tokens b.
Proof.
  intros [H0 H]. unfold bucket_consume.
  destruct (bucket_refill_le_max now b H) as (Hr & Hm & _).
  assert (Hnn : 0 <= tokens (bucket_refill now b)).
  { unfold bucket_refill.
    destruct (now - last_refill b <=? 0); [exact H0|].
    destruct (wrap32u _ =? 0); [exact H0|].
    cbn [tokens].
    destruct (wrap32u (tokens b + _) >? max_tokens b); [lia|].
    apply wrap32u_range. }
  destruct (tokens (bucket_refill now b) =? 0) eqn:E; cbn [snd tokens max_tokens].
  - lia.
  - apply Z.eqb_neq in E. lia.
Qed.

(** Where the 32-bit sum does not wrap, refill computes what the
    specification says and moves [last_refill] only when tokens are
    added. *)
Lemma bucket_refill_in_range now b :
  bucket_wf b ->
  tokens b <= max_tokens b ->
  0 <= now - last_refill b ->
  tokens b + (now - last_refill b) * refill_per_min b / 60 < 2 ^ 32 ->
  tokens (bucket_refill now b) = refill_spec now b /\
  last_refill (bucket_refill now b) =
    (if 0 <? (now - last_refill b) * refill_per_min b / 60
     then now else last_refill b).
Proof.
  intros (Ht & Hm & Hr) Hle HT Hno. unfold bucket_refill, refill_spec.
  set (T := now - last_refill b) in *.
  assert (Hq : 0 <= T * refill_per_min b / 60)
    by (apply Z.div_pos; nia).
  destruct (T <=? 0) eqn:ET.
  - apply Z.leb_le in ET. assert (T = 0) by lia.
    replace (T * refill_per_min b / 60) with 0
      by (replace T with 0 by lia; reflexivity).
    cbn. split; [lia | reflexivity].
  - apply Z.leb_gt in ET.
    rewrite Z.quot_div_nonneg by nia.
    rewrite (wrap32u_small (T * refill_per_min b / 60)) by lia.
    destruct (T * refill_per_min b / 60 =? 0) eqn:E0.
    + apply Z.eqb_eq in E0. rewrite E0. cbn. split; [lia | reflexivity].
    + apply Z.eqb_neq in E0. cbn [tokens last_refill].
      rewrite wrap32u_small by lia.
      replace (0 <? T * refill_per_min b / 60) with true
        by (symmetry; apply Z.ltb_lt; lia).
      split; [|reflexivity].
      destruct (_ >? max_tokens b) eqn:Eg; lia.
Qed.

(** A bucket that starts empty holds [min(max_tokens, floor(T*r/60))]
    after [T] seconds, where that amount fits in 32 bits. *)
Lemma bucket_refill_from_zero now b :
  bucket_wf b -> tokens b = 0 ->
  0 <= now - last_refill b ->
  (now - last_refill b) * refill_per_min b / 60 < 2 ^ 32 ->
  tokens (bucket_refill now b) =
    Z.min (max_tokens b) ((now - last_refill b) * refill_per_min b / 60).
Proof.
  intros Hwf H0 HT Hno.
  assert (Hm : 0 <= max_tokens b) by (destruct Hwf as (_ & ? & _); lia).
  assert (E : tokens (bucket_refill now b) = refill_spec now b).
  { apply bucket_refill_in_range; try assumption; rewrite H0; lia. }
  rewrite E. unfold refill_spec. rewrite H0. reflexivity.
Qed.

(** C3 fails on the code where the 32-bit sum wraps: a bucket for
    [INT_MAX] connections per minute that is one token short of full is
    left, by a refill 61 seconds later, with 35791391 tokens instead of
    the [max_tokens] = 2147483647 the specification gives. *)
Theorem C3_refill_sum_wraps :
  bucket_wf overflow_bucket /\
  tokens overflow_bucket <= max_tokens overflow_bucket /\
  1061 - last_refill overflow_bucket = 61 /\
  tokens (bucket_refill 1061 overflow_bucket) = 35791391 /\
  refill_spec 1061 overflow_bucket = 2147483647.
Proof.
  unfold bucket_wf. vm_compute. intuition discriminate.
Qed.

(** *** IP table *)

Lemma truncate_ge n s : (String.length s <= n)%nat -> truncate n s = s.
Proof.
  revert n. induction s as [|c r IH]; intros [|n] H; cbn in *;
    try reflexivity; try lia.
  f_equal. apply IH. lia.
Qed.

Lemma stored_key_ip_text ipstr : ip_text ipstr -> stored_key ipstr = ipstr.
Proof.
  intros [Hc Hl]. unfold stored_key. rewrite Hc. apply truncate_ge.
  unfold INET6_ADDRSTRLEN in *. lia.
Qed.

Lemma find_ip_entry_lookup table ipstr i :
  find_ip_entry table ipstr = Some i ->
  exists e, table !! i = Some e /\ ip e = c_str ipstr.
Proof.
  revert i. induction table as [|e rest IH]; intros i H; cbn in H.
  - discriminate H.
  - destruct (String.eqb (ip e) (c_str ipstr)) eqn:E.
    + injection H as <-. exists e. split; [reflexivity|].
      apply String.eqb_eq. exact E.
    + destruct (find_ip_entry rest ipstr) as [j|]; [|discriminate H].
      injection H as <-. apply (IH j). reflexivity.
Qed.

Lemma find_ip_entry_insert table ipstr i e' :
  find_ip_entry table ipstr = Some i ->
  ip e' = c_str ipstr ->
  find_ip_entry (<[i := e']> table) ipstr = Some i.
Proof.
  revert i. induction table as [|e rest IH]; intros i H Hk; cbn in H.
  - discriminate H.
  - destruct (String.eqb (ip e) (c_str ipstr)) eqn:E.
    + injection H as <-. cbn. rewrite Hk, String.eqb_refl. reflexivity.
    + destruct (find_ip_entry rest ipstr) as [j|] eqn:Ej; [|discriminate H].
      injection H as <-.
      change (<[S j := e']> (e :: rest)) with (e :: <[j := e']> rest).
      cbn. rewrite E, (IH j); auto.
Qed.

Lemma find_ip_entry_app_new table ipstr e :
  find_ip_entry table ipstr = None ->
  ip e = c_str ipstr ->
  find_ip_entry (table ++ [e]) ipstr = Some (length table).
Proof.
  induction table as [|d rest IH]; intros H Hk; cbn in *.
  - rewrite Hk, String.eqb_refl. reflexivity.
  - destruct (String.eqb (ip d) (c_str ipstr)); [discriminate H|].
    destruct (find_ip_entry rest ipstr); [discriminate H|].
    rewrite IH; auto.
Qed.

(** Overwriting the entry of an address in place keeps it where it is. *)
Lemma entry_at_insert st table ipstr i e e' :
  find_ip_entry table ipstr = Some i -> table !! i = Some e ->
  ip e' = ip e ->
  ip_table st = <[i := e']> table ->
  entry_at st ipstr i e'.
Proof.
  intros Hf Hl Hk Ht. unfold entry_at. rewrite Ht. split.
  - apply find_ip_entry_insert; [exact Hf|].
    destruct (find_ip_entry_lookup _ _ _ Hf) as (e0 & Hl0 & Hk0).
    congruence.
  - apply list_lookup_insert_eq. eapply lookup_lt_Some. exact Hl.
Qed.

Lemma active_of_entry_at st ipstr i e :
  entry_at st ipstr i e -> active_of st ipstr = active_connections e.
Proof. intros [Hf Hl]. unfold active_of. rewrite Hf, Hl. reflexivity. Qed.

(** [get_or_create_ip_entry] either finds the entry, refreshing
    [last_seen], or appends a new one with a full bucket. *)
Lemma get_or_create_spec cfg now table ipstr :
  ip_text ipstr ->
  exists i e table1,
    get_or_create_ip_entry true cfg now table ipstr = Some (i, e, table1) /\
    find_ip_entry table1 ipstr = Some i /\ table1 !! i = Some e /\
    match find_ip_entry table ipstr with
    | Some j => exists e0, table !! j = Some e0 /\ e = set_last_seen now e0
    | None => e = new_ip_entry cfg now ipstr
    end.
Proof.
  intros Hip. unfold get_or_create_ip_entry.
  destruct (find_ip_entry table ipstr) as [j|] eqn:Ef.
  - destruct (find_ip_entry_lookup _ _ _ Ef) as (e0 & Hl & Hk).
    rewrite Hl. exists j, (set_last_seen now e0), (<[j := set_last_seen now e0]> table).
    split; [reflexivity|]. split; [|split].
    + apply find_ip_entry_insert; [exact Ef | exact Hk].
    + apply list_lookup_insert_eq. eapply lookup_lt_Some. exact Hl.
    + exists e0. auto.
  - exists (length table), (new_ip_entry cfg now ipstr),
      (table ++ [new_ip_entry cfg now ipstr]).
    split; [reflexivity|]. split; [|split].
    + apply find_ip_entry_app_new; [exact Ef|].
      change (ip (new_ip_entry cfg now ipstr)) with (stored_key ipstr).
      rewrite (stored_key_ip_text _ Hip). symmetry. apply Hip.
    + apply list_lookup_middle. reflexivity.
    + reflexivity.
Qed.

(** *** Admission *)

Lemma connect_global_cap ok now ipstr st :
  global_max_connections (g_config st) <= g_total_connections st ->
  tbg_rate_limit_connect ok now (Some ipstr) st = (false, st).
Proof.
  intros H. unfold tbg_rate_limit_connect.
  replace (g_total_connections st >=? global_max_connections (g_config st))
    with true by (symmetry; apply Z.geb_le; lia).
  reflexivity.
Qed.

(** What [tbg_rate_limit_connect] does once the entry is at hand and the
    global cap is not reached. *)
Lemma connect_after_lookup ok now ipstr st i e table1 :
  g_total_connections st < global_max_connections (g_config st) ->
  get_or_create_ip_entry ok (g_config st) now (ip_table st) ipstr
    = Some (i, e, table1) ->
  find_ip_entry table1 ipstr = Some i -> table1 !! i = Some e ->
  exists e',
    entry_at (snd (tbg_rate_limit_connect ok now (Some ipstr) st)) ipstr i e' /\
    g_config (snd (tbg_rate_limit_connect ok now (Some ipstr) st)) = g_config st /\
    (softban_until e' = 0 \/ softban_until e' = softban_until e) /\
    if negb (banned now e) &&
       negb (active_connections e >=? max_connections_per_ip (g_config st)) &&
       negb (tokens (bucket_refill now (connect_bucket e)) =? 0)
    then
      fst (tbg_rate_limit_connect ok now (Some ipstr) st) = true /\
      active_connections e' = wrap32s (active_connections e + 1) /\
      g_total_connections (snd (tbg_rate_limit_connect ok now (Some ipstr) st))
        = wrap32s (g_total_connections st + 1) /\
      connect_bucket e' = snd (bucket_consume now (connect_bucket e))
    else
      fst (tbg_rate_limit_connect ok now (Some ipstr) st) = false /\
      active_connections e' = active_connections e /\
      g_total_connections (snd (tbg_rate_limit_connect ok now (Some ipstr) st))
        = g_total_connections st.
Proof.
  intros Hg Hgoc Hf Hl. unfold tbg_rate_limit_connect.
  replace (g_total_connections st >=? global_max_connections (g_config st))
    with false by (symmetry; rewrite Z.geb_leb; apply Z.leb_gt; lia).
  rewrite Hgoc. fold (banned now e).
  assert (Hi : (i < length table1)%nat) by (eapply lookup_lt_Some; exact Hl).
  destruct (banned now e) eqn:Eb.
  { exists e. cbn [negb andb fst snd]. split; [split; assumption|]. auto. }
  cbn [negb andb].
  set (e1 := if (softban_until e >? 0) && (now >=? softban_until e)
             then set_softban_until 0 e else e).
  assert (He1 : ip e1 = ip e /\ active_connections e1 = active_connections e /\
                connect_bucket e1 = connect_bucket e /\
                (softban_until e1 = 0 \/ softban_until e1 = softban_until e)).
  { subst e1. destruct (_ && _); cbn; auto. }
  destruct He1 as (Hk1 & Ha1 & Hb1 & Hs1).
  rewrite Ha1, Hb1.
  destruct (active_connections e >=? max_connections_per_ip (g_config st)) eqn:Ea.
  { exists e1. cbn [negb andb fst snd].
    split; [eapply entry_at_insert; eauto|]. auto. }
  cbn [negb andb]. unfold bucket_consume.
  destruct (tokens (bucket_refill now (connect_bucket e)) =? 0) eqn:Et.
  - exists (set_connect_bucket (bucket_refill now (connect_bucket e)) e1).
    cbn [negb fst snd].
    split; [eapply entry_at_insert; eauto|]. cbn. auto.
  - eexists. cbn [negb fst snd].
    split; [eapply entry_at_insert; [exact Hf | exact Hl | | reflexivity];
            cbn; exact Hk1|].
    cbn. repeat split; auto.
Qed.

(** After a consume at [now], a further refill at [now] adds nothing. *)
Lemma bucket_consume_settled now b :
  bucket_refill now (snd (bucket_consume now b)) = snd (bucket_consume now b).
Proof.
  unfold bucket_consume.
  assert (Hr : forall t,
    bucket_refill now
      {| tokens := t; max_tokens := max_tokens (bucket_refill now b);
         refill_per_min := refill_per_min (bucket_refill now b);
         last_refill := last_refill (bucket_refill now b) |} =
      {| tokens := t; max_tokens := max_tokens (bucket_refill now b);
         refill_per_min := refill_per_min (bucket_refill now b);
         last_refill := last_refill (bucket_refill now b) |}).
  { intros t. unfold bucket_refill.
    destruct (now - last_refill b <=? 0) eqn:E1.
    - cbn. rewrite E1. reflexivity.
    - destruct (wrap32u (Z.quot ((now - last_refill b) * refill_per_min b) 60) =? 0)
        eqn:E2.
      + cbn. rewrite E1, E2. reflexivity.
      + cbn. rewrite Z.sub_diag. reflexivity. }
  destruct (tokens (bucket_refill now b) =? 0); cbn [snd].
  - specialize (Hr (tokens (bucket_refill now b))).
    destruct (bucket_refill now b). exact Hr.
  - apply Hr.
Qed.

Lemma bucket_consume_tokens now b :
  bucket_refill now b = b -> tokens b <> 0 ->
  tokens (snd (bucket_consume now b)) = tokens b - 1.
Proof.
  intros Hs Hn. unfold bucket_consume. rewrite Hs.
  destruct (tokens b =? 0) eqn:E; [apply Z.eqb_eq in E; contradiction|].
  reflexivity.
Qed.

Lemma connect_n_S n now ipstr st :
  connect_n (S n) now ipstr st =
  (fst (tbg_rate_limit_connect true now (Some ipstr) st) ::
     fst (connect_n n now ipstr
            (snd (tbg_rate_limit_connect true now (Some ipstr) st))),
   snd (connect_n n now ipstr
          (snd (tbg_rate_limit_connect true now (Some ipstr) st)))).
Proof.
  cbn [connect_n].
  destruct (tbg_rate_limit_connect true now (Some ipstr) st) as [r st1].
  cbn [fst snd]. destruct (connect_n n now ipstr st1). reflexivity.
Qed.

Lemma connect_n_app a b now ipstr st :
  connect_n (a + b) now ipstr st =
  (fst (connect_n a now ipstr st) ++
     fst (connect_n b now ipstr (snd (connect_n a now ipstr st))),
   snd (connect_n b now ipstr (snd (connect_n a now ipstr st)))).
Proof.
  revert st. induction a as [|a IH]; intros st.
  - cbn [Nat.add connect_n fst snd app].
    destruct (connect_n b now ipstr st). reflexivity.
  - change (S a + b)%nat with (S (a + b)).
    rewrite !connect_n_S, IH. reflexivity.
Qed.

Lemma get_or_create_existing ok cfg now st ipstr i e :
  entry_at st ipstr i e ->
  get_or_create_ip_entry ok cfg now (ip_table st) ipstr
    = Some (i, set_last_seen now e, <[i := set_last_seen now e]> (ip_table st)) /\
  find_ip_entry (<[i := set_last_seen now e]> (ip_table st)) ipstr = Some i /\
  <[i := set_last_seen now e]> (ip_table st) !! i = Some (set_last_seen now e).
Proof.
  intros [Hf Hl]. unfold get_or_create_ip_entry. rewrite Hf, Hl.
  split; [reflexivity|]. split.
  - apply find_ip_entry_insert; [exact Hf|].
    destruct (find_ip_entry_lookup _ _ _ Hf) as (e0 & Hl0 & Hk0).
    cbn. congruence.
  - apply list_lookup_insert_eq. eapply lookup_lt_Some. exact Hl.
Qed.

Lemma banned_of_softban now e e' :
  banned now e = false ->
  softban_until e' = 0 \/ softban_until e' = softban_until e ->
  banned now e' = false.
Proof.
  unfold banned. intros H [E|E]; rewrite E; [reflexivity | exact H].
Qed.

(** With [k] tokens left and room under both caps, the next [k] calls
    at the same instant are all let in and empty the bucket. *)
Lemma connect_n_settled now ipstr i k :
  forall st e,
    entry_at st ipstr i e ->
    bucket_refill now (connect_bucket e) = connect_bucket e ->
    tokens (connect_bucket e) = Z.of_nat k ->
    banned now e = false ->
    0 <= active_connections e ->
    active_connections e + Z.of_nat k <= max_connections_per_ip (g_config st) ->
    max_connections_per_ip (g_config st) <= INT_MAX ->
    INT_MIN <= g_total_connections st ->
    g_total_connections st + Z.of_nat k <= global_max_connections (g_config st) ->
    global_max_connections (g_config st) <= INT_MAX ->
    exists e',
      fst (connect_n k now ipstr st) = replicate k true /\
      entry_at (snd (connect_n k now ipstr st)) ipstr i e' /\
      bucket_refill now (connect_bucket e') = connect_bucket e' /\
      tokens (connect_bucket e') = 0 /\
      banned now e' = false /\
      active_connections e' = active_connections e + Z.of_nat k /\
      g_total_connections (snd (connect_n k now ipstr st))
        = g_total_connections st + Z.of_nat k /\
      g_config (snd (connect_n k now ipstr st)) = g_config st.
Proof.
  induction k as [|k IH]; intros st e Hat Hs Ht Hb Ha0 Ha Hm Hg0 Hg HM.
  - exists e. cbn [connect_n fst snd replicate].
    repeat split; try assumption; try apply Hat; cbn; lia.
  - rewrite connect_n_S. cbn [fst snd].
    destruct (get_or_create_existing true (g_config st) now st ipstr i e Hat)
      as (Hgoc & Hf1 & Hl1).
    destruct (connect_after_lookup true now ipstr st i _ _ ltac:(lia) Hgoc Hf1 Hl1)
      as (e1 & Hat1 & Hc1 & Hsb1 & Hif).
    change (banned now (set_last_seen now e)) with (banned now e) in Hif.
    change (active_connections (set_last_seen now e))
      with (active_connections e) in Hif.
    change (connect_bucket (set_last_seen now e)) with (connect_bucket e) in Hif.
    change (softban_until (set_last_seen now e)) with (softban_until e) in Hsb1.
    rewrite Hb, Hs, Ht in Hif.
    replace (active_connections e >=? max_connections_per_ip (g_config st))
      with false in Hif by (symmetry; rewrite Z.geb_leb; apply Z.leb_gt; lia).
    replace (Z.of_nat (S k) =? 0) with false in Hif
      by (symmetry; apply Z.eqb_neq; lia).
    cbn [negb andb] in Hif.
    destruct Hif as (Hr & Hact & Hgt & Hbk).
    rewrite wrap32s_small in Hact by (unfold int_range, INT_MIN, INT_MAX in *; lia).
    rewrite wrap32s_small in Hgt by (unfold int_range, INT_MIN, INT_MAX in *; lia).
    set (st1 := snd (tbg_rate_limit_connect true now (Some ipstr) st)) in *.
    destruct (IH st1 e1) as (e' & Hrs & Hat' & Hs' & Ht' & Hb' & Ha' & Hg' & Hc');
      try (rewrite ?Hc1, ?Hact, ?Hgt; lia); try assumption.
    + rewrite Hbk. apply bucket_consume_settled.
    + rewrite Hbk, bucket_consume_tokens by (rewrite ?Ht; auto; lia). lia.
    + eapply banned_of_softban; eauto.
    + exists e'. rewrite Hr, Hrs. repeat split; try assumption; try apply Hat';
        try congruence; lia.
Qed.

(** With an empty bucket the call is refused and changes no counter. *)
Lemma connect_empty_bucket now ipstr i st e :
  entry_at st ipstr i e ->
  bucket_refill now (connect_bucket e) = connect_bucket e ->
  tokens (connect_bucket e) = 0 ->
  exists e',
    fst (tbg_rate_limit_connect true now (Some ipstr) st) = false /\
    entry_at (snd (tbg_rate_limit_connect true now (Some ipstr) st)) ipstr i e' /\
    active_connections e' = active_connections e /\
    g_total_connections (snd (tbg_rate_limit_connect true now (Some ipstr) st))
      = g_total_connections st.
Proof.
  intros Hat Hs Ht.
  destruct (Z_lt_le_dec (g_total_connections st)
                        (global_max_connections (g_config st))) as [Hg|Hg].
  - destruct (get_or_create_existing true (g_config st) now st ipstr i e Hat)
      as (Hgoc & Hf1 & Hl1).
    destruct (connect_after_lookup true now ipstr st i _ _ Hg Hgoc Hf1 Hl1)
      as (e1 & Hat1 & Hc1 & Hsb1 & Hif).
    change (connect_bucket (set_last_seen now e)) with (connect_bucket e) in Hif.
    rewrite Hs, Ht in Hif. cbn [Z.eqb negb] in Hif.
    rewrite andb_false_r in Hif.
    destruct Hif as (Hr & Hact & Hgt). exists e1. auto.
  - rewrite connect_global_cap by exact Hg. exists e. auto.
Qed.

Lemma bucket_refill_init m r now :
  bucket_refill now (bucket_init m r now) = bucket_init m r now.
Proof. unfold bucket_refill, bucket_init. cbn. rewrite Z.sub_diag. reflexivity. Qed.

(** The first call for an address with an untouched bucket of 10 tokens
    is let in and leaves 9 tokens. *)
Lemma connect_first now st ipstr :
  ip_text ipstr ->
  connections_per_ip_per_minute (g_config st) = 10 ->
  first_connect now st ipstr ->
  0 <= active_of st ipstr ->
  active_of st ipstr < max_connections_per_ip (g_config st) <= INT_MAX ->
  INT_MIN <= g_total_connections st ->
  g_total_connections st < global_max_connections (g_config st) <= INT_MAX ->
  exists i e',
    fst (tbg_rate_limit_connect true now (Some ipstr) st) = true /\
    entry_at (snd (tbg_rate_limit_connect true now (Some ipstr) st)) ipstr i e' /\
    bucket_refill now (connect_bucket e') = connect_bucket e' /\
    tokens (connect_bucket e') = 9 /\
    banned now e' = false /\
    active_connections e' = active_of st ipstr + 1 /\
    g_total_connections (snd (tbg_rate_limit_connect true now (Some ipstr) st))
      = g_total_connections st + 1 /\
    g_config (snd (tbg_rate_limit_connect true now (Some ipstr) st)) = g_config st.
Proof.
  intros Hip Hcfg Hfc Ha0 Ha Hg0 Hg.
  destruct (get_or_create_spec (g_config st) now (ip_table st) ipstr Hip)
    as (i & e & table1 & Hgoc & Hf & Hl & Hcase).
  assert (He : connect_bucket e = bucket_init 10 10 now /\
               banned now e = false /\
               active_connections e = active_of st ipstr).
  { unfold first_connect, active_of in *.
    destruct (find_ip_entry (ip_table st) ipstr) as [j|] eqn:Ef.
    - destruct Hfc as (e0 & Hl0 & Hb0 & Hk0).
      destruct Hcase as (e0' & Hl0' & ->).
      rewrite Hl0 in Hl0'. injection Hl0' as <-. rewrite Hl0. auto.
    - subst e. unfold new_ip_entry. cbn. rewrite Hcfg. auto. }
  destruct He as (Hbk & Hb & Hact).
  destruct (connect_after_lookup true now ipstr st i e table1 ltac:(lia) Hgoc Hf Hl)
    as (e1 & Hat1 & Hc1 & Hsb1 & Hif).
  rewrite Hb, Hbk, bucket_refill_init in Hif.
  replace (active_connections e >=? max_connections_per_ip (g_config st))
    with false in Hif by (symmetry; rewrite Z.geb_leb; apply Z.leb_gt; lia).
  cbn [negb andb tokens bucket_init Z.eqb] in Hif.
  destruct Hif as (Hr & Hact1 & Hgt & Hbk1).
  rewrite wrap32s_small in Hact1 by (unfold int_range, INT_MIN, INT_MAX in *; lia).
  rewrite wrap32s_small in Hgt by (unfold int_range, INT_MIN, INT_MAX in *; lia).
  exists i, e1. repeat split; try assumption; try apply Hat1; try lia.
  - rewrite Hbk1. apply bucket_consume_settled.
  - rewrite Hbk1, bucket_consume_tokens.
    + reflexivity.
    + apply bucket_refill_init.
    + cbn. lia.
  - eapply banned_of_softban; eauto.
Qed.

(** *** Disconnect *)

Lemma disconnect_entry_at st ipstr i e :
  entry_at st ipstr i e -> int_range (active_connections e) ->
  exists e',
    entry_at (tbg_rate_limit_disconnect (Some ipstr) st) ipstr i e' /\
    active_connections e' = Z.max 0 (active_connections e - 1) /\
    g_total_connections (tbg_rate_limit_disconnect (Some ipstr) st)
      = wrap32s (g_total_connections st - 1).
Proof.
  intros [Hf Hl] Hr. unfold tbg_rate_limit_disconnect. rewrite Hf, Hl.
  eexists. split; [|split; [|reflexivity]].
  - eapply entry_at_insert; [exact Hf | exact Hl | | reflexivity].
    destruct (active_connections e <=? 0); reflexivity.
  - destruct (active_connections e <=? 0) eqn:E; cbn.
    + apply Z.leb_le in E. lia.
    + apply Z.leb_gt in E. rewrite wrap32s_small; [lia|].
      unfold int_range, INT_MIN, INT_MAX in *. lia.
Qed.

(** The per-IP counter after a disconnect is the counter before, less
    one, clamped at zero. *)
Lemma disconnect_active_of st ipstr :
  int_range (active_of st ipstr) ->
  active_of (tbg_rate_limit_disconnect (Some ipstr) st) ipstr
    = Z.max 0 (active_of st ipstr - 1).
Proof.
  intros Hr. destruct (find_ip_entry (ip_table st) ipstr) as [i|] eqn:Ef.
  - destruct (find_ip_entry_lookup _ _ _ Ef) as (e & Hl & _).
    assert (Hat : entry_at st ipstr i e) by (split; assumption).
    rewrite (active_of_entry_at _ _ _ _ Hat) in *.
    destruct (disconnect_entry_at st ipstr i e Hat Hr) as (e' & Hat' & Ha & _).
    rewrite (active_of_entry_at _ _ _ _ Hat'). exact Ha.
  - unfold active_of, tbg_rate_limit_disconnect. rewrite Ef.
    cbn [ip_table]. rewrite Ef. reflexivity.
Qed.

(** C4: with [connections_per_ip_per_minute] = 10 and the clock standing
    still, for an address that is not soft-banned and has room under the
    global and the per-IP cap, the first 10 consecutive calls of
    [tbg_rate_limit_connect] return true and the 11th returns false; a
    following [tbg_rate_limit_disconnect] takes one off the per-IP counter
    and one off the global counter; and, for any limiter and address, the
    per-IP counter after a disconnect is the old one less one, clamped at
    zero. *)
Theorem C4_connect_rate_cap (st : limiter) (ipstr : string) (now : Z) :
  ip_text ipstr ->
  connections_per_ip_per_minute (g_config st) = 10 ->
  first_connect now st ipstr ->
  0 <= active_of st ipstr ->
  active_of st ipstr + 9 < max_connections_per_ip (g_config st) <= INT_MAX ->
  INT_MIN <= g_total_connections st ->
  g_total_connections st + 9 < global_max_connections (g_config st) <= INT_MAX ->
  let run := connect_n 11 now ipstr st in
  let st' := tbg_rate_limit_disconnect (Some ipstr) (snd run) in
  fst run = replicate 10 true ++ [false] /\
  active_of (snd run) ipstr = active_of st ipstr + 10 /\
  tbg_rate_limit_global_connections (snd run) = g_total_connections st + 10 /\
  active_of st' ipstr = active_of st ipstr + 9 /\
  tbg_rate_limit_global_connections st' = g_total_connections st + 9 /\
  (forall st0 ip0,
     int_range (active_of st0 ip0) ->
     active_of (tbg_rate_limit_disconnect (Some ip0) st0) ip0
       = Z.max 0 (active_of st0 ip0 - 1)).
Proof.
  intros Hip Hcfg Hfc Ha0 Ha Hg0 Hg run st'.
  destruct (connect_first now st ipstr Hip Hcfg Hfc Ha0 ltac:(lia) Hg0 ltac:(lia))
    as (i & e1 & Hr1 & Hat1 & Hs1 & Ht1 & Hb1 & Hact1 & Hg1 & Hc1).
  set (st1 := snd (tbg_rate_limit_connect true now (Some ipstr) st)) in *.
  destruct (connect_n_settled now ipstr i 9 st1 e1 Hat1 Hs1 Ht1 Hb1)
    as (e10 & Hr10 & Hat10 & Hs10 & Ht10 & Hb10 & Hact10 & Hg10 & Hc10);
    try (rewrite ?Hc1, ?Hact1, ?Hg1; lia).
  set (st10 := snd (connect_n 9 now ipstr st1)) in *.
  destruct (connect_empty_bucket now ipstr i st10 e10 Hat10 Hs10 Ht10)
    as (e11 & Hr11 & Hat11 & Hact11 & Hg11).
  set (st11 := snd (tbg_rate_limit_connect true now (Some ipstr) st10)) in *.
  assert (Hrun : run = (replicate 10 true ++ [false], st11)).
  { subst run. change 11%nat with (S (9 + 1)).
    rewrite connect_n_S, connect_n_app. fold st1. fold st10. rewrite Hr1, Hr10.
    rewrite (connect_n_S 0). cbn [connect_n fst snd]. fold st11. rewrite Hr11.
    reflexivity. }
  subst st'. rewrite Hrun. cbn [fst snd].
  assert (Hrange : int_range (active_connections e11)).
  { unfold int_range, INT_MIN, INT_MAX in *. lia. }
  destruct (disconnect_entry_at st11 ipstr i e11 Hat11 Hrange)
    as (e12 & Hat12 & Hact12 & Hg12).
  unfold tbg_rate_limit_global_connections.
  rewrite (active_of_entry_at _ _ _ _ Hat11), (active_of_entry_at _ _ _ _ Hat12).
  rewrite Hg12, wrap32s_small
    by (unfold int_range, INT_MIN, INT_MAX in *; lia).
  repeat split; try lia.
  intros st0 ip0. apply disconnect_active_of.
Qed.

Lemma C4_connect_rate_cap_witness :
  let st := tbg_rate_limit_init None [] in
  let ipstr := "10.0.0.1"%string in
  let run := connect_n 11 1000 ipstr st in
  let st' := tbg_rate_limit_disconnect (Some ipstr) (snd run) in
  (ip_text ipstr /\
   connections_per_ip_per_minute (g_config st) = 10 /\
   first_connect 1000 st ipstr /\
   0 <= active_of st ipstr /\
   active_of st ipstr + 9 < max_connections_per_ip (g_config st) <= INT_MAX /\
   INT_MIN <= g_total_connections st /\
   g_total_connections st + 9 < global_max_connections (g_config st) <= INT_MAX) /\
  fst run = replicate 10 true ++ [false] /\
  active_of (snd run) ipstr = 10 /\
  tbg_rate_limit_global_connections (snd run) = 10 /\
  active_of st' ipstr = 9 /\
  tbg_rate_limit_global_connections st' = 9.
Proof.
  intros st ipstr run st'.
  assert (H1 : ip_text ipstr) by (split; [reflexivity | vm_compute; lia]).
  assert (H2 : connections_per_ip_per_minute (g_config st) = 10) by reflexivity.
  assert (H3 : first_connect 1000 st ipstr) by exact I.
  assert (H4 : 0 <= active_of st ipstr) by (vm_compute; discriminate).
  assert (H5 : active_of st ipstr + 9 < max_connections_per_ip (g_config st)
               <= INT_MAX) by (vm_compute; split; [reflexivity | discriminate]).
  assert (H6 : INT_MIN <= g_total_connections st) by (vm_compute; discriminate).
  assert (H7 : g_total_connections st + 9 < global_max_connections (g_config st)
               <= INT_MAX) by (vm_compute; split; [reflexivity | discriminate]).
  split; [tauto|].
  destruct (C4_connect_rate_cap st ipstr 1000 H1 H2 H3 H4 H5 H6 H7)
    as (R1 & R2 & R3 & R4 & R5 & _).
  split; [exact R1|].
  split; [etransitivity; [exact R2 | reflexivity]|].
  split; [etransitivity; [exact R3 | reflexivity]|].
  split; [etransitivity; [exact R4 | reflexivity]|].
  etransitivity; [exact R5 | reflexivity].
Defined.

(** *** Disconnect of an address without an entry *)

Lemma disconnect_unknown st ipstr :
  find_ip_entry (ip_table st) ipstr = None ->
  tbg_rate_limit_disconnect (Some ipstr) st =
  {| ip_table := ip_table st; g_config := g_config st;
     g_total_connections := wrap32s (g_total_connections st - 1) |}.
Proof. intros H. unfold tbg_rate_limit_disconnect. rewrite H. reflexivity. Qed.

Lemma disconnect_n_unknown n :
  forall st ipstr,
    find_ip_entry (ip_table st) ipstr = None ->
    g_total_connections st <= INT_MAX ->
    INT_MIN <= g_total_connections st - Z.of_nat n ->
    ip_table (disconnect_n n ipstr st) = ip_table st /\
    g_total_connections (disconnect_n n ipstr st)
      = g_total_connections st - Z.of_nat n.
Proof.
  induction n as [|n IH]; intros st ipstr Hf Hmax Hmin.
  - cbn. split; [reflexivity | lia].
  - cbn [disconnect_n]. rewrite (disconnect_unknown st ipstr Hf).
    destruct (IH {| ip_table := ip_table st; g_config := g_config st;
                    g_total_connections := wrap32s (g_total_connections st - 1) |}
                 ipstr) as [Ht Hg].
    + exact Hf.
    + cbn. rewrite wrap32s_small; unfold int_range, INT_MIN, INT_MAX in *; lia.
    + cbn. rewrite wrap32s_small; unfold int_range, INT_MIN, INT_MAX in *; lia.
    + rewrite Ht, Hg. cbn.
      rewrite wrap32s_small by (unfold int_range, INT_MIN, INT_MAX in *; lia).
      split; [reflexivity | lia].
Qed.

(** C10: a disconnect for an address that has no entry in the IP table
    takes one off the global counter all the same and leaves the table
    alone, so [n] such calls bring the value of
    [tbg_rate_limit_global_connections] down by [n]: below the number of
    open connections, and below zero, once [n] is large enough. *)
Theorem C10_disconnect_unknown_ip (st : limiter) (ipstr : string) (n : nat) :
  find_ip_entry (ip_table st) ipstr = None ->
  g_total_connections st <= INT_MAX ->
  INT_MIN <= g_total_connections st - Z.of_nat n ->
  let st1 := tbg_rate_limit_disconnect (Some ipstr) st in
  let stn := disconnect_n n ipstr st in
  tbg_rate_limit_global_connections st1 = wrap32s (g_total_connections st - 1) /\
  ip_table st1 = ip_table st /\
  tbg_rate_limit_global_connections stn = g_total_connections st - Z.of_nat n /\
  open_connections stn = open_connections st /\
  (g_total_connections st - open_connections st < Z.of_nat n ->
   tbg_rate_limit_global_connections stn < open_connections stn) /\
  (g_total_connections st < Z.of_nat n ->
   tbg_rate_limit_global_connections stn < 0).
Proof.
  intros Hf Hmax Hmin st1 stn. subst st1 stn.
  rewrite (disconnect_unknown st ipstr Hf).
  destruct (disconnect_n_unknown n st ipstr Hf Hmax Hmin) as [Ht Hg].
  unfold tbg_rate_limit_global_connections, open_connections. rewrite Ht, Hg. cbn.
  repeat split; try reflexivity; lia.
Qed.

Lemma C10_disconnect_unknown_ip_witness :
  let st := snd (tbg_rate_limit_connect true 1000 (Some "10.0.0.1"%string)
                   (tbg_rate_limit_init None [])) in
  let stn := disconnect_n 2 "10.9.9.9" st in
  (find_ip_entry (ip_table st) "10.9.9.9" = None /\
   g_total_connections st <= INT_MAX /\
   INT_MIN <= g_total_connections st - Z.of_nat 2) /\
  open_connections stn = 1 /\
  tbg_rate_limit_global_connections stn = -1.
Proof.
  intros st stn.
  assert (H1 : find_ip_entry (ip_table st) "10.9.9.9" = None) by reflexivity.
  assert (H2 : g_total_connections st <= INT_MAX) by (vm_compute; discriminate).
  assert (H3 : INT_MIN <= g_total_connections st - Z.of_nat 2)
    by (vm_compute; discriminate).
  split; [tauto|].
  destruct (C10_disconnect_unknown_ip st "10.9.9.9" 2 H1 H2 H3)
    as (_ & _ & Hg & Ha & _).
  split; (etransitivity; [eassumption | reflexivity]).
Defined.

(** *** Reaper *)

Lemma get_or_create_active ok cfg now table ipstr i e table1 :
  Forall (fun e => 0 <= active_connections e <= INT_MAX) table ->
  get_or_create_ip_entry ok cfg now table ipstr = Some (i, e, table1) ->
  Forall (fun e => 0 <= active_connections e <= INT_MAX) table1 /\
  table1 !! i = Some e.
Proof.
  intros HF. unfold get_or_create_ip_entry.
  destruct (find_ip_entry table ipstr) as [j|].
  - destruct (table !! j) as [e0|] eqn:El; [|discriminate].
    intros [= <- <- <-]. split.
    + apply Forall_insert; [exact HF|].
      apply (Forall_lookup_1 _ _ _ _ HF El).
    + apply list_lookup_insert_eq. eapply lookup_lt_Some. exact El.
  - destruct ok; [|discriminate]. intros [= <- <- <-]. split.
    + apply Forall_app. split; [exact HF|].
      constructor; [|constructor]. cbn. unfold INT_MAX. lia.
    + apply list_lookup_middle. reflexivity.
Qed.

Lemma connect_active ok now ip0 st :
  max_connections_per_ip (g_config st) <= INT_MAX ->
  Forall (fun e => 0 <= active_connections e <= INT_MAX) (ip_table st) ->
  Forall (fun e => 0 <= active_connections e <= INT_MAX)
         (ip_table (snd (tbg_rate_limit_connect ok now ip0 st))) /\
  g_config (snd (tbg_rate_limit_connect ok now ip0 st)) = g_config st.
Proof.
  intros Hm HF. unfold tbg_rate_limit_connect.
  destruct ip0 as [ipstr|]; [|auto].
  destruct (_ >=? _); [auto|].
  destruct (get_or_create_ip_entry _ _ _ _ _) as [[[i e] table1]|] eqn:Eg; [|auto].
  destruct (get_or_create_active _ _ _ _ _ _ _ _ HF Eg) as [HF1 Hl1].
  pose proof (Forall_lookup_1 _ _ _ _ HF1 Hl1) as He. cbn beta in He.
  destruct (_ && _); [cbn; auto|].
  match goal with
  | |- context [active_connections ?x >=? _] => set (e1 := x)
  end.
  assert (He1 : active_connections e1 = active_connections e)
    by (subst e1; destruct (_ && _); reflexivity).
  destruct (active_connections e1 >=? _) eqn:Ea.
  { cbn. split; [|reflexivity]. apply Forall_insert; [exact HF1|]. cbn beta. lia. }
  rewrite Z.geb_leb in Ea. apply Z.leb_gt in Ea.
  destruct (bucket_consume now (connect_bucket e1)) as [okb b].
  destruct okb; cbn.
  - split; [|reflexivity]. apply Forall_insert; [exact HF1|]. cbn.
    rewrite wrap32s_small; unfold int_range, INT_MIN, INT_MAX in *; lia.
  - split; [|reflexivity]. apply Forall_insert; [exact HF1|]. cbn. lia.
Qed.

Lemma disconnect_active ip0 st :
  Forall (fun e => 0 <= active_connections e <= INT_MAX) (ip_table st) ->
  Forall (fun e => 0 <= active_connections e <= INT_MAX)
         (ip_table (tbg_rate_limit_disconnect ip0 st)).
Proof.
  intros HF. unfold tbg_rate_limit_disconnect.
  destruct ip0 as [ipstr|]; [|exact HF]. cbn.
  destruct (find_ip_entry _ _) as [i|]; [|exact HF].
  destruct (ip_table st !! i) as [e|] eqn:El; [|exact HF].
  pose proof (Forall_lookup_1 _ _ _ _ HF El) as He. cbn beta in He.
  apply Forall_insert; [exact HF|].
  destruct (active_connections e <=? 0) eqn:E; cbn.
  - unfold INT_MAX. lia.
  - apply Z.leb_gt in E.
    rewrite wrap32s_small; unfold int_range, INT_MIN, INT_MAX in *; lia.
Qed.

Lemma softban_active ok now ip0 st :
  Forall (fun e => 0 <= active_connections e <= INT_MAX) (ip_table st) ->
  Forall (fun e => 0 <= active_connections e <= INT_MAX)
         (ip_table (tbg_rate_limit_softban ok now ip0 st)).
Proof.
  intros HF. unfold tbg_rate_limit_softban.
  destruct ip0 as [ipstr|]; [|exact HF].
  destruct (get_or_create_ip_entry _ _ _ _ _) as [[[i e] table1]|] eqn:Eg;
    [|exact HF].
  destruct (get_or_create_active _ _ _ _ _ _ _ _ HF Eg) as [HF1 Hl1].
  pose proof (Forall_lookup_1 _ _ _ _ HF1 Hl1) as He.
  cbn. apply Forall_insert; [exact HF1 | exact He].
Qed.

Lemma cleanup_active now st :
  Forall (fun e => 0 <= active_connections e <= INT_MAX) (ip_table st) ->
  Forall (fun e => 0 <= active_connections e <= INT_MAX)
         (ip_table (cleanup_cycle now st)).
Proof.
  intros HF. cbn. apply List.Forall_forall. intros e He.
  apply List.filter_In in He. destruct He as [He _].
  exact (proj1 (List.Forall_forall _ _) HF e He).
Qed.

(** In every limiter the process can reach, the per-IP counters are
    non-negative. *)
Lemma reachable_active st :
  reachable st ->
  max_connections_per_ip (g_config st) <= INT_MAX /\
  Forall (fun e => 0 <= active_connections e <= INT_MAX) (ip_table st).
Proof.
  induction 1 as [config Hc | o st Hr [Hm HF]].
  - split; [|constructor].
    destruct config as [c|]; cbn.
    + destruct Hc as (_ & [_ H] & _). exact H.
    + vm_compute. discriminate.
  - destruct o as [ok now ip0 | ip0 | ok now ip0 | now]; cbn [run_op].
    + destruct (connect_active ok now ip0 st Hm HF) as [HF' Hc].
      rewrite Hc. auto.
    + split; [|apply disconnect_active; exact HF].
      unfold tbg_rate_limit_disconnect. destruct ip0; exact Hm.
    + split; [|apply softban_active; exact HF].
      unfold tbg_rate_limit_softban. destruct ip0; [|exact Hm].
      destruct (get_or_create_ip_entry _ _ _ _ _) as [[[i e] t]|]; exact Hm.
    + split; [exact Hm | apply cleanup_active; exact HF].
Qed.

(** C9: in a cleanup cycle of the reaper, an entry with
    [active_connections] > 0 is never removed, however old its
    [last_seen]; an entry is removed iff its [active_connections] is zero
    and its [last_seen] is older than [now] less the stale threshold of
    300 s, [now] being the time the cycle read. *)
Theorem C9_reaper_keeps_active (st : limiter) (now : Z) (e : ip_rate_entry) :
  reachable st ->
  In e (ip_table st) ->
  (0 < active_connections e -> In e (ip_table (cleanup_cycle now st))) /\
  (~ In e (ip_table (cleanup_cycle now st)) <->
   active_connections e = 0 /\ last_seen e < now - 300).
Proof.
  intros Hr Hin.
  destruct (reachable_active st Hr) as [_ HF].
  pose proof (proj1 (List.Forall_forall _ _) HF e Hin) as [Hnn _].
  cbn [cleanup_cycle ip_table]. rewrite List.filter_In.
  unfold reaped, RATE_STALE_THRESHOLD.
  destruct (active_connections e >? 0) eqn:Ea.
  - apply Z.gtb_lt in Ea. cbn. split; [auto|]. split.
    + intros Hn. exfalso. apply Hn. auto.
    + intros [H0 _]. lia.
  - rewrite Z.gtb_ltb in Ea. apply Z.ltb_ge in Ea. split; [lia|].
    destruct (last_seen e <? now - 300) eqn:El; cbn.
    + apply Z.ltb_lt in El. split; [intros _; lia|].
      intros _ [_ H]. discriminate H.
    + apply Z.ltb_ge in El. split; [|lia].
      intros Hn. exfalso. apply Hn. auto.
Qed.

Lemma C9_reaper_keeps_active_witness :
  (reachable reaper_example /\
   In reaper_example_entry (ip_table reaper_example)) /\
  last_seen reaper_example_entry < 100000 - 300 /\
  In reaper_example_entry (ip_table (cleanup_cycle 100000 reaper_example)).
Proof.
  assert (H1 : reachable reaper_example).
  { apply reach_step. apply (reach_init None). exact I. }
  assert (H2 : In reaper_example_entry (ip_table reaper_example)).
  { left. reflexivity. }
  split; [split; assumption|]. split; [reflexivity|].
  apply (C9_reaper_keeps_active reaper_example 100000 reaper_example_entry H1 H2).
  reflexivity.
Defined.

End RateLimitFacts.

(** ** Event ring: drops on a full ring *)

Module EventRingFacts.
Import CInt EventRing.
Local Open Scope Z_scope.

Lemma slot_index_range pos :
  (Z.to_nat (Z.land pos EVENT_RING_MASK) < Z.to_nat EVENT_RING_SIZE)%nat.
Proof.
  change EVENT_RING_MASK with (Z.ones 12).
  rewrite Z.land_ones by lia.
  pose proof (Z.mod_pos_bound pos (2 ^ 12) ltac:(lia)).
  change EVENT_RING_SIZE with (2 ^ 12). lia.
Qed.

Lemma slot_index_small pos :
  0 <= pos < EVENT_RING_SIZE -> Z.land pos EVENT_RING_MASK = pos.
Proof.
  intros H. change EVENT_RING_MASK with (Z.ones 12).
  rewrite Z.land_ones by lia. apply Z.mod_small.
  change EVENT_RING_SIZE with (2 ^ 12) in H. exact H.
Qed.

Lemma wrap64u_idem a b : wrap64u (wrap64u a + b) = wrap64u (a + b).
Proof. unfold wrap64u. apply Zplus_mod_idemp_l. Qed.

(** A push with valid arguments on a full ring is dropped: it returns
    false, counts one drop and leaves the slots alone. *)
Lemma push_full ring bytes n :
  ring_full ring -> 0 < n ->
  fst (tbg_event_ring_push ring (Some bytes) n) = false /\
  events_dropped (snd (tbg_event_ring_push ring (Some bytes) n))
    = wrap64u (events_dropped ring + 1) /\
  slots (snd (tbg_event_ring_push ring (Some bytes) n)) = slots ring.
Proof.
  intros [Hlen Hocc] Hn. unfold tbg_event_ring_push.
  replace (n =? 0) with false by (symmetry; apply Z.eqb_neq; lia).
  pose proof (slot_index_range (write_pos ring)) as Hidx.
  rewrite <- Hlen in Hidx.
  destruct (lookup_lt_is_Some_2 _ _ Hidx) as [slot Hslot].
  rewrite Hslot.
  pose proof (Forall_lookup_1 _ _ _ _ Hocc Hslot) as Hst. cbn beta in Hst.
  replace (state slot =? SLOT_EMPTY) with false
    by (symmetry; apply Z.eqb_neq; exact Hst).
  cbn. auto.
Qed.

Lemma push_full_keeps_full ring bytes n :
  ring_full ring -> 0 < n ->
  ring_full (snd (tbg_event_ring_push ring (Some bytes) n)).
Proof.
  intros Hf Hn. destruct (push_full ring bytes n Hf Hn) as (_ & _ & Hs).
  unfold ring_full. rewrite Hs. exact Hf.
Qed.

(** A push with valid arguments on a ring filled up to [i] < 4096 is
    accepted and fills slot [i]. *)
Lemma push_filled ring i bytes n :
  filled ring i -> (i < Z.to_nat EVENT_RING_SIZE)%nat -> 0 < n ->
  fst (tbg_event_ring_push ring (Some bytes) n) = true /\
  filled (snd (tbg_event_ring_push ring (Some bytes) n)) (S i).
Proof.
  intros (Hlen & Hpos & Hdrop & Hst) Hi Hn. unfold tbg_event_ring_push.
  replace (n =? 0) with false by (symmetry; apply Z.eqb_neq; lia).
  rewrite Hpos.
  rewrite slot_index_small
    by (change EVENT_RING_SIZE with 4096 in *; lia).
  rewrite Nat2Z.id.
  assert (Hi' : (i < length (slots ring))%nat) by lia.
  destruct (lookup_lt_is_Some_2 _ _ Hi') as [slot Hslot].
  rewrite Hslot.
  destruct (Hst i slot Hslot) as [_ He].
  rewrite (He (le_n i)). cbn [Z.eqb SLOT_EMPTY negb fst snd].
  split; [reflexivity|].
  unfold filled. cbn [slots write_pos events_dropped].
  split; [rewrite length_insert; exact Hlen|].
  split.
  { unfold wrap64u. rewrite Z.mod_small;
      change EVENT_RING_SIZE with 4096 in *; lia. }
  split; [exact Hdrop|].
  intros j s Hj. destruct (Nat.eq_dec i j) as [<- | Hne].
  - rewrite list_lookup_insert_eq in Hj by exact Hi'.
    injection Hj as <-. cbn. split; [reflexivity | lia].
  - rewrite list_lookup_insert_ne in Hj by exact Hne.
    destruct (Hst j s Hj) as [H1 H2].
    split; intros H; [apply H1 | apply H2]; lia.
Qed.

Lemma init_filled : filled tbg_event_ring_init 0.
Proof.
  unfold filled, tbg_event_ring_init. cbn [slots write_pos events_dropped].
  split; [apply length_replicate|]. repeat split; try lia.
  apply lookup_replicate_1 in H. destruct H as [-> _]. reflexivity.
Qed.

Lemma filled_full ring :
  filled ring (Z.to_nat EVENT_RING_SIZE) -> ring_full ring.
Proof.
  intros (Hlen & _ & _ & Hst). split; [exact Hlen|].
  apply Forall_lookup. intros j s Hj.
  destruct (Hst j s Hj) as [H1 _].
  rewrite H1; [discriminate|]. rewrite <- Hlen. eapply lookup_lt_Some. exact Hj.
Qed.

Lemma push_all_app ring l1 l2 :
  push_all ring (l1 ++ l2) =
  (fst (push_all ring l1) ++ fst (push_all (snd (push_all ring l1)) l2),
   snd (push_all (snd (push_all ring l1)) l2)).
Proof.
  revert ring. induction l1 as [|[json n] l1 IH]; intros ring.
  - cbn. destruct (push_all ring l2). reflexivity.
  - cbn [push_all app].
    destruct (tbg_event_ring_push ring json n) as [r ring1].
    rewrite IH. destruct (push_all ring1 l1). reflexivity.
Qed.

(** While there is room every push is accepted. *)
Lemma push_all_filled l :
  forall ring i,
    filled ring i -> Forall push_args_ok l ->
    (i + length l <= Z.to_nat EVENT_RING_SIZE)%nat ->
    fst (push_all ring l) = replicate (length l) true /\
    filled (snd (push_all ring l)) (i + length l).
Proof.
  induction l as [|[json n] l IH]; intros ring i Hf Hok Hlen.
  - cbn. rewrite Nat.add_0_r. auto.
  - inversion Hok as [|? ? [Hj Hn] Hok']; subst. cbn in Hj, Hn, Hlen.
    destruct json as [bytes|]; [|contradiction].
    destruct (push_filled ring i bytes n Hf ltac:(lia) Hn) as [Hr Hf1].
    cbn [push_all].
    destruct (tbg_event_ring_push ring (Some bytes) n) as [r ring1].
    cbn [fst snd] in Hr, Hf1. subst r.
    destruct (IH ring1 (S i) Hf1 Hok' ltac:(lia)) as [Hrs Hf2].
    destruct (push_all ring1 l) as [rs ring2]. cbn [fst snd] in *.
    subst rs. cbn [length replicate].
    replace (i + S (length l))%nat with (S i + length l)%nat by lia. auto.
Qed.

(** Once the ring is full every push is dropped and counted. *)
Lemma push_all_full l :
  forall ring,
    ring_full ring -> Forall push_args_ok l ->
    0 <= events_dropped ring < 2 ^ 64 ->
    fst (push_all ring l) = replicate (length l) false /\
    events_dropped (snd (push_all ring l))
      = wrap64u (events_dropped ring + Z.of_nat (length l)).
Proof.
  induction l as [|[json n] l IH]; intros ring Hf Hok Hd0.
  - cbn. split; [reflexivity|]. unfold wrap64u.
    rewrite Z.add_0_r, Z.mod_small; [reflexivity | exact Hd0].
  - inversion Hok as [|? ? [Hj Hn] Hok']; subst. cbn in Hj, Hn.
    destruct json as [bytes|]; [|contradiction].
    destruct (push_full ring bytes n Hf Hn) as (Hr & Hd & Hs).
    pose proof (push_full_keeps_full ring bytes n Hf Hn) as Hf1.
    cbn [push_all].
    destruct (tbg_event_ring_push ring (Some bytes) n) as [r ring1].
    cbn [fst snd] in *. subst r.
    destruct (IH ring1 Hf1 Hok') as [Hrs Hd'].
    { rewrite Hd. unfold wrap64u. apply Z.mod_pos_bound. lia. }
    destruct (push_all ring1 l) as [rs ring2]. cbn [fst snd] in *.
    subst rs. split; [reflexivity|].
    rewrite Hd', Hd, wrap64u_idem. f_equal. cbn [length]. lia.
Qed.

(** C5 (amended): on a ring whose slots are all occupied and which is
    not being drained, every further [tbg_event_ring_push] of a non-NULL
    payload of non-zero length returns false, adds exactly one to
    [events_dropped] and leaves every slot as it is; hence, starting from
    an empty ring of 4096 slots, of 4096 + k such pushes the first 4096
    are accepted, the other k are refused and the drop counter ends at
    k. *)
Theorem C5_full_ring_drops (ring : event_ring) (bytes : list byte) (n : Z)
  (l : list (option (list byte) * Z)) (k : nat) :
  ring_full ring -> 0 < n ->
  Forall push_args_ok l ->
  length l = (Z.to_nat EVENT_RING_SIZE + k)%nat ->
  Z.of_nat k < 2 ^ 64 ->
  (fst (tbg_event_ring_push ring (Some bytes) n) = false /\
   tbg_event_ring_dropped (snd (tbg_event_ring_push ring (Some bytes) n))
     = wrap64u (events_dropped ring + 1) /\
   slots (snd (tbg_event_ring_push ring (Some bytes) n)) = slots ring) /\
  (fst (push_all tbg_event_ring_init l)
     = replicate (Z.to_nat EVENT_RING_SIZE) true ++ replicate k false /\
   tbg_event_ring_dropped (snd (push_all tbg_event_ring_init l)) = Z.of_nat k).
Proof.
  intros Hfull Hn Hok Hlen Hk.
  split; [apply push_full; assumption|].
  rewrite <- (take_drop (Z.to_nat EVENT_RING_SIZE) l) in Hok |- *.
  apply Forall_app in Hok. destruct Hok as [Hok1 Hok2].
  assert (Hl1 : length (take (Z.to_nat EVENT_RING_SIZE) l)
                = Z.to_nat EVENT_RING_SIZE) by (rewrite length_take; lia).
  assert (Hl2 : length (drop (Z.to_nat EVENT_RING_SIZE) l) = k)
    by (rewrite length_drop; lia).
  rewrite push_all_app. cbn [fst snd].
  destruct (push_all_filled _ tbg_event_ring_init 0%nat init_filled Hok1)
    as [Hr1 Hf1]; [lia|].
  rewrite Hl1 in Hr1, Hf1. cbn [Nat.add] in Hf1.
  assert (Hfull1 : ring_full (snd (push_all tbg_event_ring_init
                                (take (Z.to_nat EVENT_RING_SIZE) l))))
    by (apply filled_full; exact Hf1).
  destruct Hf1 as (Hlen1 & Hpos1 & Hdrop1 & Hst1).
  destruct (push_all_full _ _ Hfull1 Hok2) as [Hr2 Hd2];
    [rewrite Hdrop1; lia|].
  rewrite Hl2 in Hr2, Hd2. rewrite Hr1, Hr2. split; [reflexivity|].
  unfold tbg_event_ring_dropped. rewrite Hd2, Hdrop1. unfold wrap64u.
  apply Z.mod_small. lia.
Qed.

Lemma full_ring_is_full : ring_full full_ring.
Proof.
  split; [apply length_replicate|].
  apply Forall_replicate. discriminate.
Qed.

Lemma C5_full_ring_drops_witness :
  (ring_full full_ring /\ 0 < 1 /\
   Forall push_args_ok overrun_pushes /\
   length overrun_pushes = (Z.to_nat EVENT_RING_SIZE + 3)%nat /\
   Z.of_nat 3 < 2 ^ 64) /\
  fst (tbg_event_ring_push full_ring (Some [Byte.x61]) 1) = false /\
  tbg_event_ring_dropped (snd (push_all tbg_event_ring_init overrun_pushes)) = 3.
Proof.
  assert (H1 : ring_full full_ring) by exact full_ring_is_full.
  assert (H2 : 0 < 1) by reflexivity.
  assert (H3 : Forall push_args_ok overrun_pushes).
  { apply Forall_replicate. split; [discriminate | reflexivity]. }
  assert (H4 : length overrun_pushes = (Z.to_nat EVENT_RING_SIZE + 3)%nat)
    by apply length_replicate.
  assert (H5 : Z.of_nat 3 < 2 ^ 64) by reflexivity.
  split; [tauto|].
  destruct (C5_full_ring_drops full_ring [Byte.x61] 1 overrun_pushes 3
              H1 H2 H3 H4 H5) as [(R1 & _) (_ & R2)].
  split; [exact R1 | exact R2].
Defined.

(** C5, as stated, fails: a push of length 0 on a full ring returns
    false without counting a drop. *)
Lemma C5_empty_push_not_counted :
  ring_full full_ring /\
  fst (tbg_event_ring_push full_ring (Some [Byte.x61]) 0) = false /\
  events_dropped (snd (tbg_event_ring_push full_ring (Some [Byte.x61]) 0))
    = events_dropped full_ring /\
  events_dropped full_ring <> events_dropped full_ring + 1.
Proof.
  split; [exact full_ring_is_full|].
  split; [reflexivity|]. split; [reflexivity|]. discriminate.
Qed.

End EventRingFacts.

(** ** Relay protocol *)

Module RelayFacts.
Import CInt Relay.
Local Open Scope Z_scope.

(** *** Framing *)

Lemma ntohl_htonl n : 0 <= n < 2 ^ 32 -> ntohl (htonl n) = n.
Proof.
  intros H. unfold ntohl, htonl. rewrite !byte.unsigned_of_Z.
  unfold byte.wrap. change (2 ^ 8) with 256. change (2 ^ 16) with 65536.
  change (2 ^ 24) with 16777216. change (2 ^ 32) with 4294967296 in H.
  Z.div_mod_to_equations. lia.
Qed.

Lemma memcmp_eq_true n :
  forall a b, length a = n -> length b = n ->
    memcmp_eq a b n = true <-> a = b.
Proof.
  induction n as [|n IH]; intros [|x a] [|y b] Ha Hb; try discriminate.
  - cbn. tauto.
  - cbn in *. rewrite andb_true_iff, IH by lia. split.
    + intros [E ->]. apply Byte.byte_dec_bl in E. congruence.
    + intros [= -> ->]. split; [apply Byte.byte_dec_lb|]; reflexivity.
Qed.

Lemma recv_exact_app raw rest n :
  length raw = n -> recv_exact (raw ++ rest) n = Some (raw, rest).
Proof.
  intros H. unfold recv_exact.
  replace (n <=? length (raw ++ rest))%nat with true
    by (symmetry; apply Nat.leb_le; rewrite length_app; lia).
  rewrite take_app_length', drop_app_length' by (symmetry; exact H).
  reflexivity.
Qed.

(** A header the reader must refuse ends [recv_msg] after the 12 header
    bytes. *)
Lemma recv_msg_bad_header ok raw rest :
  length raw = TBG_RELAY_HDR_LEN -> bad_header raw ->
  recv_msg ok (raw ++ rest) = (recv_fail, rest).
Proof.
  intros Hlen Hbad. unfold recv_msg.
  rewrite (recv_exact_app raw rest _ Hlen).
  cbn [hdr_of_bytes magic version length_be].
  destruct (memcmp_eq (take 4 raw) TBG_RELAY_MAGIC TBG_RELAY_MAGIC_LEN) eqn:Em;
    cbn [negb]; [|reflexivity].
  apply memcmp_eq_true in Em;
    [| rewrite length_take; unfold TBG_RELAY_HDR_LEN, TBG_RELAY_MAGIC_LEN in *; lia
     | reflexivity].
  destruct (byte.unsigned (nth 4 raw Byte.x00) =? TBG_RELAY_VERSION) eqn:Ev;
    cbn [negb]; [|reflexivity].
  apply Z.eqb_eq in Ev.
  destruct (ntohl (take 4 (drop 8 raw)) >? TBG_RELAY_MAX_MSG) eqn:El;
    [reflexivity|].
  rewrite Z.gtb_ltb in El. apply Z.ltb_ge in El.
  destruct Hbad as [H|[H|H]]; [contradiction | contradiction | lia].
Qed.

(** What [send_msg] writes is read back by [recv_msg] as the same type
    and payload, leaving what follows on the stream. *)
Lemma recv_msg_send_msg t p rest :
  0 <= t < 256 ->
  Z.of_nat (length p) <= TBG_RELAY_MAX_MSG ->
  recv_msg true (snd (send_msg t (Some p) (Z.of_nat (length p))) ++ rest)
    = (msg_of t p, rest).
Proof.
  intros Ht Hp. unfold send_msg. cbn [snd].
  set (len := Z.of_nat (length p)) in *.
  assert (Hbody : (if len >? 0 then take (Z.to_nat len) p else []) = p).
  { subst len. destruct (Z.of_nat (length p) >? 0) eqn:E.
    - rewrite Nat2Z.id. apply take_ge. lia.
    - rewrite Z.gtb_ltb in E. apply Z.ltb_ge in E.
      destruct p; [reflexivity | cbn in E; lia]. }
  rewrite Hbody, <- app_assoc. unfold recv_msg.
  rewrite recv_exact_app by reflexivity.
  cbn [hdr_bytes hdr_of_bytes magic version msg_type reserved length_be
       app take drop nth TBG_RELAY_MAGIC TBG_RELAY_MAGIC_LEN htonl].
  cbn [memcmp_eq Byte.eqb negb andb].
  rewrite !byte.unsigned_of_Z. unfold byte.wrap.
  change (TBG_RELAY_VERSION mod 2 ^ 8 =? TBG_RELAY_VERSION) with true.
  cbn [negb].
  change [byte.of_Z (len / 2 ^ 24); byte.of_Z (len / 2 ^ 16);
          byte.of_Z (len / 2 ^ 8); byte.of_Z len] with (htonl len).
  rewrite ntohl_htonl by (unfold TBG_RELAY_MAX_MSG in Hp; lia).
  replace (len >? TBG_RELAY_MAX_MSG) with false
    by (symmetry; rewrite Z.gtb_ltb; apply Z.ltb_ge; lia).
  rewrite (Z.mod_small t) by lia.
  unfold msg_of. fold len.
  destruct (len >? 0) eqn:E.
  - cbn [negb]. rewrite recv_exact_app by (subst len; symmetry; apply Nat2Z.id).
    destruct p; [discriminate E | reflexivity].
  - rewrite Z.gtb_ltb in E. apply Z.ltb_ge in E.
    destruct p; [reflexivity | subst len; cbn in E; lia].
Qed.

(** C6: for every message type [t] and payload [p] of at most 4 MiB,
    [recv_msg] applied to the bytes written by [send_msg] yields exactly
    [t] and [p]; and a frame whose magic is not "TBGR", whose version is
    not 1 or whose network-order length exceeds 4 MiB makes [recv_msg]
    return the error -1 having read the 12 header bytes and no payload
    byte. *)
Theorem C6_frame_round_trip (t : Z) (p rest raw rest' : list byte)
  (malloc_ok : bool) :
  0 <= t < 256 ->
  Z.of_nat (length p) <= TBG_RELAY_MAX_MSG ->
  length raw = TBG_RELAY_HDR_LEN ->
  bad_header raw ->
  recv_msg true (snd (send_msg t (Some p) (Z.of_nat (length p))) ++ rest)
    = (msg_of t p, rest) /\
  fst (send_msg t (Some p) (Z.of_nat (length p))) = 0 /\
  recv_msg malloc_ok (raw ++ rest') = (recv_fail, rest') /\
  ret recv_fail = -1.
Proof.
  intros Ht Hp Hlen Hbad.
  split; [apply recv_msg_send_msg; assumption|].
  split; [reflexivity|].
  split; [apply recv_msg_bad_header; assumption | reflexivity].
Qed.

Lemma C6_frame_round_trip_witness :
  (0 <= TBG_MSG_TEMPLATE < 256 /\
   Z.of_nat (length job_payload) <= TBG_RELAY_MAX_MSG /\
   length bad_magic_header = TBG_RELAY_HDR_LEN /\
   bad_header bad_magic_header) /\
  recv_msg true (snd (send_msg TBG_MSG_TEMPLATE (Some job_payload) 9))
    = (msg_of TBG_MSG_TEMPLATE job_payload, []) /\
  recv_msg true (bad_magic_header ++ job_payload) = (recv_fail, job_payload).
Proof.
  assert (H1 : 0 <= TBG_MSG_TEMPLATE < 256) by (split; [discriminate | reflexivity]).
  assert (H2 : Z.of_nat (length job_payload) <= TBG_RELAY_MAX_MSG) by discriminate.
  assert (H3 : length bad_magic_header = TBG_RELAY_HDR_LEN) by reflexivity.
  assert (H4 : bad_header bad_magic_header) by (left; discriminate).
  split; [tauto|].
  destruct (C6_frame_round_trip TBG_MSG_TEMPLATE job_payload [] bad_magic_header
              job_payload true H1 H2 H3 H4) as (R1 & _ & R2 & _).
  split; [|exact R2].
  rewrite app_nil_r in R1. exact R1.
Defined.

(** *** Relay client *)

(** In every state the client can reach, [connected] holds exactly when
    a descriptor is open, and never together with [independent_mode]. *)
Lemma client_reachable_inv c :
  client_reachable c ->
  (connected (client_state c) = true <-> 0 <= fd (client_state c)) /\
  (independent_mode (client_state c) = true ->
   connected (client_state c) = false).
Proof.
  induction 1 as [t | st c Hr [Hc Hi]].
  - cbn. split; [split; [discriminate | lia] | discriminate].
  - destruct st as [cb | now new_fd | | now m | now]; cbn [run_client_step].
    + cbn. auto.
    + unfold receiver_connect.
      destruct (fd (client_state c) <? 0) eqn:Ef; [|auto].
      apply Z.ltb_lt in Ef.
      destruct (new_fd <? 0) eqn:En; cbn.
      * apply Z.ltb_lt in En. split; [|exact Hi].
        split; [intros H; apply Hc in H; lia | lia].
      * apply Z.ltb_ge in En. split; [tauto | discriminate].
    + cbn. split; [split; [discriminate | lia] | reflexivity].
    + unfold receiver_dispatch, touch_heartbeat.
      repeat (match goal with
              | |- context [if ?b then _ else _] => destruct b
              | |- context [match ?o with Some _ => _ | None => _ end] =>
                  destruct o
              end; cbn [client_state fd connected independent_mode]);
        auto.
    + unfold heartbeat_monitor.
      destruct (connected (client_state c)) eqn:Ec;
        cbn [andb client_state]; [|rewrite Ec in *; auto].
      destruct ((now - last_heartbeat (client_state c)
                   >? failover_timeout (client_state c)) &&
                negb (independent_mode (client_state c))) eqn:Et;
        [|cbn [client_state]; rewrite Ec; auto].
      destruct (fd (client_state c) >=? 0) eqn:Ef.
      * cbn. split; [split; [discriminate | lia] | reflexivity].
      * rewrite Z.geb_leb in Ef. apply Z.leb_gt in Ef.
        pose proof (proj1 Hc eq_refl). lia.
Qed.

Lemma dispatch_template_delivers now p c :
  template_callback c = true -> p <> [] ->
  independent_mode (client_state c) = false ->
  delivers c (receiver_dispatch now (msg_of TBG_MSG_TEMPLATE p) c) p.
Proof.
  intros Hcb Hp Hi. unfold delivers, receiver_dispatch, msg_of.
  destruct p as [|b p']; [contradiction|].
  cbn. rewrite Hcb, Hi. reflexivity.
Qed.

Lemma dispatch_template_ignored now p c :
  independent_mode (client_state c) = true ->
  trace (receiver_dispatch now (msg_of TBG_MSG_TEMPLATE p) c) = trace c.
Proof.
  intros Hi. unfold receiver_dispatch, msg_of.
  destruct p as [|b p']; cbn; [reflexivity|].
  rewrite Hi, andb_false_r. reflexivity.
Qed.

(** C7: the relay client hands a received TEMPLATE payload to the
    template callback iff [independent_mode] is false; when the heartbeat
    monitor finds [now - last_heartbeat > failover_timeout] while
    connected it sets [independent_mode], closes the descriptor and clears
    [connected], after which a template that still arrives is not
    delivered; a later successful reconnect clears [independent_mode] and
    templates are delivered again. *)
Theorem C7_template_delivery_and_failover (c : client) (now now' new_fd : Z)
  (p : list byte) :
  client_reachable c ->
  template_callback c = true ->
  p <> [] ->
  0 <= new_fd ->
  (delivers c (receiver_dispatch now (msg_of TBG_MSG_TEMPLATE p) c) p <->
   independent_mode (client_state c) = false) /\
  (independent_mode (client_state c) = true ->
   trace (receiver_dispatch now (msg_of TBG_MSG_TEMPLATE p) c) = trace c) /\
  (connected (client_state c) = true ->
   now - last_heartbeat (client_state c) > failover_timeout (client_state c) ->
   let c' := heartbeat_monitor now c in
   independent_mode (client_state c') = true /\
   fd (client_state c') = -1 /\
   connected (client_state c') = false /\
   In (Closed (fd (client_state c))) (trace c') /\
   trace (receiver_dispatch now' (msg_of TBG_MSG_TEMPLATE p) c') = trace c') /\
  (independent_mode (client_state c) = true ->
   let c1 := receiver_connect now' new_fd c in
   independent_mode (client_state c1) = false /\
   connected (client_state c1) = true /\
   delivers c1 (receiver_dispatch now' (msg_of TBG_MSG_TEMPLATE p) c1) p).
Proof.
  intros Hr Hcb Hp Hfd.
  destruct (client_reachable_inv c Hr) as [Hc Hi].
  split; [|split; [|split]].
  - split.
    + intros Hd. destruct (independent_mode (client_state c)) eqn:E;
        [|reflexivity].
      unfold delivers in Hd.
      rewrite (dispatch_template_ignored now p c E) in Hd.
      apply (f_equal (@length effect)) in Hd. cbn in Hd. lia.
    + apply dispatch_template_delivers; assumption.
  - apply dispatch_template_ignored.
  - intros Hconn Hel c'.
    assert (Hfd0 : 0 <= fd (client_state c)) by (apply Hc; exact Hconn).
    assert (Hind : independent_mode (client_state c) = false).
    { destruct (independent_mode (client_state c)); [|reflexivity].
      specialize (Hi eq_refl). congruence. }
    assert (Hc' : c' =
      {| client_state :=
           {| fd := -1;
              failover_timeout := failover_timeout (client_state c);
              last_heartbeat := last_heartbeat (client_state c);
              connected := false;
              independent_mode := true |};
         template_callback := template_callback c;
         trace := Closed (fd (client_state c)) ::
                  Sent TBG_MSG_HEARTBEAT :: trace c |}).
    { subst c'. unfold heartbeat_monitor. rewrite Hconn, Hind.
      replace (fd (client_state c) >=? 0) with true
        by (symmetry; apply Z.geb_le; lia).
      replace (now - last_heartbeat (client_state c)
                 >? failover_timeout (client_state c)) with true
        by (symmetry; apply Z.gtb_lt; lia).
      reflexivity. }
    rewrite Hc'. cbn [client_state independent_mode fd connected trace].
    repeat split; try reflexivity.
    + left. reflexivity.
    + apply dispatch_template_ignored. reflexivity.
  - intros Hind c1.
    assert (Hfdneg : fd (client_state c) < 0).
    { specialize (Hi Hind).
      destruct (Z_lt_le_dec (fd (client_state c)) 0) as [H|H]; [exact H|].
      apply Hc in H. congruence. }
    assert (Hc1 : c1 =
      {| client_state :=
           {| fd := new_fd;
              failover_timeout := failover_timeout (client_state c);
              last_heartbeat := now';
              connected := true;
              independent_mode := false |};
         template_callback := template_callback c;
         trace := Sent TBG_MSG_REGISTER :: trace c |}).
    { subst c1. unfold receiver_connect.
      replace (fd (client_state c) <? 0) with true
        by (symmetry; apply Z.ltb_lt; lia).
      replace (new_fd <? 0) with false by (symmetry; apply Z.ltb_ge; lia).
      reflexivity. }
    rewrite Hc1. cbn [client_state independent_mode connected].
    split; [reflexivity|]. split; [reflexivity|].
    apply dispatch_template_delivers; [exact Hcb | exact Hp | reflexivity].
Qed.

Lemma C7_template_delivery_and_failover_witness :
  (client_reachable connected_client /\
   template_callback connected_client = true /\
   job_payload <> [] /\ 0 <= 6) /\
  delivers connected_client
    (receiver_dispatch 101 (msg_of TBG_MSG_TEMPLATE job_payload)
       connected_client) job_payload /\
  independent_mode (client_state (heartbeat_monitor 111 connected_client))
    = true.
Proof.
  assert (H1 : client_reachable connected_client).
  { unfold connected_client. do 2 apply creach_step. apply creach_init. }
  assert (H2 : template_callback connected_client = true) by reflexivity.
  assert (H3 : job_payload <> []) by discriminate.
  assert (H4 : 0 <= 6) by discriminate.
  split; [tauto|].
  destruct (C7_template_delivery_and_failover connected_client 101 112 6
              job_payload H1 H2 H3 H4) as (R1 & _ & _ & _).
  destruct (C7_template_delivery_and_failover connected_client 111 112 6
              job_payload H1 H2 H3 H4) as (_ & _ & R3 & _).
  split; [apply R1; reflexivity|].
  apply R3; reflexivity.
Defined.

(** *** Primary side: REGISTER *)

Lemma cstring_app_nul p : cstring (p ++ [Byte.x00]) = cstring p.
Proof.
  induction p as [|b p IH]; [reflexivity|].
  cbn. destruct (Byte.eqb b Byte.x00); [reflexivity|]. rewrite IH. reflexivity.
Qed.

Lemma cstring_length p : (length (cstring p) <= length p)%nat.
Proof.
  induction p as [|b p IH]; [reflexivity|].
  cbn. destruct (Byte.eqb b Byte.x00); cbn; lia.
Qed.

Lemma cstring_cut p r : cstring (cstring p ++ Byte.x00 :: r) = cstring p.
Proof.
  induction p as [|b p IH]; [reflexivity|].
  cbn. destruct (Byte.eqb b Byte.x00) eqn:E; [reflexivity|].
  cbn. rewrite E, IH. reflexivity.
Qed.

(** A payload of 1 to 31 bytes ends up in [region] as a C string. *)
Lemma register_copy (reg p : list byte) :
  length reg = REGION_SIZE ->
  (1 <= length p <= 31)%nat ->
  cstring (<[(REGION_SIZE - 1)%nat := Byte.x00]>
             (strncpy reg (p ++ [Byte.x00]) (REGION_SIZE - 1))) = cstring p /\
  length (<[(REGION_SIZE - 1)%nat := Byte.x00]>
            (strncpy reg (p ++ [Byte.x00]) (REGION_SIZE - 1))) = REGION_SIZE.
Proof.
  intros Hreg Hp. unfold strncpy, REGION_SIZE in *.
  change (32 - 1)%nat with 31%nat.
  rewrite cstring_app_nul.
  pose proof (cstring_length p) as Hc.
  rewrite (take_ge (cstring p)) by lia.
  assert (Hd : exists z, drop 31 reg = [z]).
  { pose proof (length_drop reg 31) as Hl. rewrite Hreg in Hl.
    destruct (drop 31 reg) as [|z [|]]; cbn in Hl; try lia. eauto. }
  destruct Hd as [z Hd]. rewrite Hd.
  split.
  - rewrite insert_app_r_alt by lia.
    destruct (31 - length (cstring p))%nat as [|k] eqn:Ek.
    + cbn. apply cstring_cut.
    + cbn [replicate app].
      change (<[S k := Byte.x00]> (Byte.x00 :: replicate k Byte.x00 ++ [z]))
        with (Byte.x00 :: <[k := Byte.x00]> (replicate k Byte.x00 ++ [z])).
      apply cstring_cut.
  - rewrite length_insert, !length_app, length_replicate. cbn. lia.
Qed.

(** C8 (amended): on a REGISTER message the per-peer handler refreshes
    [last_heartbeat] whatever the payload; a payload of 1 to 31 bytes is
    copied into [region] (up to its first NUL byte, if it has one); an
    empty payload or one of 32 bytes or more leaves [region] as it was. *)
Theorem C8_register_region (peer : tbg_relay_peer) (now : Z) (p : list byte) :
  length (region peer) = REGION_SIZE ->
  let peer' := peer_dispatch now (msg_of TBG_MSG_REGISTER p) peer in
  peer_last_heartbeat peer' = now /\
  ((1 <= length p <= 31)%nat ->
   cstring (region peer') = cstring p /\
   length (region peer') = REGION_SIZE) /\
  ((length p = 0 \/ 32 <= length p)%nat -> region peer' = region peer).
Proof.
  intros Hreg peer'. subst peer'. unfold peer_dispatch, msg_of.
  cbn [ret out_payload out_len TBG_MSG_REGISTER TBG_MSG_HEARTBEAT Z.eqb
       Pos.eqb peer_last_heartbeat region].
  split; [reflexivity|]. split.
  - intros Hp. destruct p as [|b p']; [cbn in Hp; lia|].
    replace (Z.of_nat (length (b :: p')) <? Z.of_nat REGION_SIZE) with true
      by (symmetry; apply Z.ltb_lt; unfold REGION_SIZE; lia).
    apply register_copy; assumption.
  - intros Hp. destruct p as [|b p']; [reflexivity|].
    replace (Z.of_nat (length (b :: p')) <? Z.of_nat REGION_SIZE) with false
      by (symmetry; apply Z.ltb_ge; unfold REGION_SIZE; cbn in *; lia).
    reflexivity.
Qed.

Lemma C8_register_region_witness :
  length (region (fresh_peer 7 0)) = REGION_SIZE /\
  peer_last_heartbeat
    (peer_dispatch 42 (msg_of TBG_MSG_REGISTER region_tag) (fresh_peer 7 0))
    = 42 /\
  cstring (region
    (peer_dispatch 42 (msg_of TBG_MSG_REGISTER region_tag) (fresh_peer 7 0)))
    = region_tag.
Proof.
  assert (H1 : length (region (fresh_peer 7 0)) = REGION_SIZE) by reflexivity.
  split; [exact H1|].
  destruct (C8_register_region (fresh_peer 7 0) 42 region_tag H1)
    as (R1 & R2 & _).
  split; [exact R1|].
  destruct R2 as [R2 _]; [cbn; lia|]. exact R2.
Defined.

(** C8, as stated, fails: a REGISTER payload of 32 bytes is not copied,
    truncated or otherwise; the region keeps its former content. *)
Lemma C8_long_payload_not_copied :
  region (peer_dispatch 42 (msg_of TBG_MSG_REGISTER long_tag) (fresh_peer 7 0))
    = region (fresh_peer 7 0) /\
  cstring (region
    (peer_dispatch 42 (msg_of TBG_MSG_REGISTER long_tag) (fresh_peer 7 0)))
    <> take 31 long_tag.
Proof.
  split; [reflexivity|]. vm_compute. discriminate.
Qed.

End RelayFacts.

(** * Further properties of the validators *)

Module InputValidationExtra.
Import CLib InputValidation InputValidationFacts.

Lemma CInt_wrap32u_small z : (0 <= z < 2 ^ 32)%Z -> CInt.wrap32u z = z.
Proof. intros H. unfold CInt.wrap32u. apply Z.mod_small. exact H. Qed.

Lemma one_of_existsb chars c :
  one_of chars c <->
  existsb (Ascii.eqb c) (list_ascii_of_string chars) = true.
Proof.
  unfold one_of. rewrite existsb_exists. split.
  - intros H. exists c. split; [exact H | apply Ascii.eqb_refl].
  - intros (x & Hx & E). apply Ascii.eqb_eq in E. subst x. exact Hx.
Qed.

Lemma is_hex_char_iff c : is_hex_char c = true <-> one_of HEX_DIGITS c.
Proof.
  rewrite one_of_existsb.
  replace (existsb (Ascii.eqb c) (list_ascii_of_string HEX_DIGITS))
    with (is_hex_char c); [tauto|].
  ascii_cases c; vm_compute; reflexivity.
Qed.

Lemma char_at_advance s i : char_at (advance 1 s) i = char_at s (S i).
Proof. destruct s; reflexivity. Qed.

Lemma hex_loop_iff n :
  forall s, hex_loop s n = true <->
            forall i, (i < n)%nat -> is_hex_char (char_at s i) = true.
Proof.
  induction n as [|n IH]; intros s; cbn [hex_loop].
  - split; [intros _ i Hi; lia | reflexivity].
  - destruct (is_hex_char (char_at s 0)) eqn:E; cbn [negb].
    + rewrite IH. split.
      * intros H [|i] Hi; [exact E|].
        rewrite <- char_at_advance. apply H. lia.
      * intros H i Hi. rewrite char_at_advance. apply H. lia.
    + split; [discriminate|]. intros H.
      rewrite (H 0%nat) in E by lia. discriminate E.
Qed.

(** X1: [tbg_validate_hex_string] accepts a string iff it has exactly
    the expected length and holds hex digits only; a NULL pointer is
    refused. *)
Theorem X1_hex_string_exact (h : string) (n : nat) :
  tbg_validate_hex_string None n = false /\
  (tbg_validate_hex_string (Some h) n = true <->
   strlen h = n /\ all_chars (one_of HEX_DIGITS) h).
Proof.
  split; [reflexivity|]. unfold tbg_validate_hex_string, all_chars.
  destruct (strlen h =? n)%nat eqn:E; cbn [negb].
  - apply Nat.eqb_eq in E. rewrite hex_loop_iff, E. split.
    + intros H. split; [reflexivity|]. intros i Hi.
      apply is_hex_char_iff. apply H. exact Hi.
    + intros [_ H] i Hi. apply is_hex_char_iff. apply H. exact Hi.
  - apply Nat.eqb_neq in E. split; [discriminate | tauto].
Qed.

(** X2: [tbg_validate_hex_string_max] accepts exactly the non-empty
    strings of at most [max_len] bytes that the exact-length validator
    accepts at their own length. *)
Theorem X2_hex_string_max (h : string) (m : nat) :
  tbg_validate_hex_string_max None m = false /\
  (tbg_validate_hex_string_max (Some h) m = true <->
   (1 <= strlen h <= m)%nat /\
   tbg_validate_hex_string (Some h) (strlen h) = true).
Proof.
  split; [reflexivity|].
  unfold tbg_validate_hex_string_max, tbg_validate_hex_string.
  rewrite Nat.eqb_refl. cbn [negb].
  destruct ((strlen h =? 0)%nat || (m <? strlen h)%nat) eqn:E.
  - apply orb_true_iff in E. split; [discriminate|]. intros [Hl _].
    destruct E as [E|E]; [apply Nat.eqb_eq in E | apply Nat.ltb_lt in E]; lia.
  - apply orb_false_iff in E. destruct E as [E1 E2].
    apply Nat.eqb_neq in E1. apply Nat.ltb_ge in E2.
    split; [intros H; split; [lia | exact H] | tauto].
Qed.

Lemma worker_char_iff c :
  is_nul c = false ->
  (negb (isalnum c) && negb (Ascii.eqb c "_") &&
   negb (Ascii.eqb c "-") && negb (Ascii.eqb c ".")) = false <->
  one_of WORKER_NAME_CHARS c.
Proof.
  intros _. rewrite one_of_existsb.
  replace (existsb (Ascii.eqb c) (list_ascii_of_string WORKER_NAME_CHARS))
    with (negb (negb (isalnum c) && negb (Ascii.eqb c "_") &&
                negb (Ascii.eqb c "-") && negb (Ascii.eqb c "."))).
  - destruct (_ && _); cbn; split; congruence.
  - ascii_cases c; vm_compute; reflexivity.
Qed.

Lemma worker_name_loop_iff s :
  worker_name_loop s = true <-> all_chars (one_of WORKER_NAME_CHARS) s.
Proof.
  unfold all_chars. induction s as [|c r IH]; cbn [worker_name_loop strlen].
  - split; [intros _ i Hi; lia | reflexivity].
  - destruct (is_nul c) eqn:En.
    + split; [intros _ i Hi; lia | reflexivity].
    + destruct (negb (isalnum c) && negb (Ascii.eqb c "_") &&
                negb (Ascii.eqb c "-") && negb (Ascii.eqb c ".")) eqn:E.
      * split; [discriminate|]. intros H.
        assert (Hc : one_of WORKER_NAME_CHARS c) by (apply (H 0%nat); lia).
        apply (worker_char_iff c En) in Hc. congruence.
      * apply (worker_char_iff c En) in E. rewrite IH. split.
        -- intros H [|i] Hi; [exact E | apply (H i); lia].
        -- intros H i Hi. apply (H (S i)). lia.
Qed.

(** X3: [tbg_validate_worker_name] accepts a name iff it has 1 to 128
    bytes, all of them letters, digits, [_], [-] or [.]; a NULL pointer
    is refused. *)
Theorem X3_worker_name (nm : string) :
  tbg_validate_worker_name None = false /\
  (tbg_validate_worker_name (Some nm) = true <->
   (1 <= strlen nm <= 128)%nat /\ all_chars (one_of WORKER_NAME_CHARS) nm).
Proof.
  split; [reflexivity|]. unfold tbg_validate_worker_name, MAX_WORKER_NAME_LEN.
  destruct ((strlen nm =? 0)%nat || (128 <? strlen nm)%nat) eqn:E.
  - apply orb_true_iff in E. split; [discriminate|]. intros [Hl _].
    destruct E as [E|E]; [apply Nat.eqb_eq in E | apply Nat.ltb_lt in E]; lia.
  - apply orb_false_iff in E. destruct E as [E1 E2].
    apply Nat.eqb_neq in E1. apply Nat.ltb_ge in E2.
    rewrite worker_name_loop_iff. split; [intros H; split; [lia | exact H] | tauto].
Qed.

Lemma base58_loop_iff n :
  forall s, base58_loop s n = true <->
            forall i, (i < n)%nat -> is_base58_char (char_at s i) = true.
Proof.
  induction n as [|n IH]; intros s; cbn [base58_loop].
  - split; [intros _ i Hi; lia | reflexivity].
  - destruct (is_base58_char (char_at s 0)) eqn:E; cbn [negb].
    + rewrite IH. split.
      * intros H [|i] Hi; [exact E|].
        rewrite <- char_at_advance. apply H. lia.
      * intros H i Hi. rewrite char_at_advance. apply H. lia.
    + split; [discriminate|]. intros H.
      rewrite (H 0%nat) in E by lia. discriminate E.
Qed.

Lemma is_base58_char_iff c :
  is_nul c = false ->
  is_base58_char c = true <-> one_of BASE58_CHARS c.
Proof.
  intros Hc. unfold is_base58_char, one_of. rewrite strchr_found_iff.
  change (c_str BASE58_CHARS) with BASE58_CHARS.
  split; [intros [H|H]; [exact H|] | auto].
  apply is_nul_true in H. congruence.
Qed.

Lemma validate_base58_address_iff a :
  validate_base58_address (Some a) = true <->
  (25 <= strlen a <= 34)%nat /\ all_chars (one_of BASE58_CHARS) a.
Proof.
  unfold validate_base58_address, all_chars.
  destruct ((strlen a <? 25)%nat || (34 <? strlen a)%nat) eqn:E.
  - apply orb_true_iff in E. split; [discriminate|]. intros [Hl _].
    destruct E as [E|E]; apply Nat.ltb_lt in E; lia.
  - apply orb_false_iff in E. destruct E as [E1 E2].
    apply Nat.ltb_ge in E1. apply Nat.ltb_ge in E2.
    rewrite base58_loop_iff. split.
    + intros H. split; [lia|]. intros i Hi.
      apply is_base58_char_iff; [apply char_at_nul_strlen; exact Hi | auto].
    + intros [_ H] i Hi.
      apply is_base58_char_iff; [apply char_at_nul_strlen; exact Hi | auto].
Qed.

Lemma base58_prefix_test a :
  base58_prefix a <->
  (Ascii.eqb (char_at a 0) "1" || Ascii.eqb (char_at a 0) "3" ||
   Ascii.eqb (char_at a 0) "m" || Ascii.eqb (char_at a 0) "n" ||
   Ascii.eqb (char_at a 0) "2") = true.
Proof.
  unfold base58_prefix. rewrite one_of_existsb. cbn [list_ascii_of_string existsb].
  rewrite orb_false_r, !orb_assoc.
  rewrite !(Ascii.eqb_sym (char_at a 0)). tauto.
Qed.

(** X4: for a string that starts with [1], [3], [m], [n] or [2],
    [tbg_validate_btc_address] accepts it iff it has 25 to 34 bytes, all
    of them in the base58 alphabet. *)
Theorem X4_base58_shape_check (a : string) :
  base58_prefix a ->
  tbg_validate_btc_address (Some a) = true <->
  (25 <= strlen a <= 34)%nat /\ all_chars (one_of BASE58_CHARS) a.
Proof.
  intros Hp. rewrite <- validate_base58_address_iff.
  apply base58_prefix_test in Hp. unfold tbg_validate_btc_address.
  rewrite Hp.
  destruct ((strlen a =? 0)%nat || (MAX_BTC_ADDRESS_LEN <? strlen a)%nat) eqn:E;
    [|tauto].
  split; [discriminate|]. intros H.
  apply validate_base58_address_iff in H. destruct H as [Hl _].
  apply orb_true_iff in E. unfold MAX_BTC_ADDRESS_LEN in E.
  destruct E as [E|E]; [apply Nat.eqb_eq in E | apply Nat.ltb_lt in E]; lia.
Qed.

Lemma X4_base58_shape_check_witness :
  base58_prefix p2pkh_address /\
  tbg_validate_btc_address (Some p2pkh_address) = true.
Proof.
  assert (Hp : base58_prefix p2pkh_address) by (left; reflexivity).
  split; [exact Hp|].
  apply (X4_base58_shape_check p2pkh_address Hp).
  apply validate_base58_address_iff. reflexivity.
Defined.

Lemma tolower_one (c : ascii) : tolower c = "1"%char -> c = "1"%char.
Proof. ascii_cases c; cbv; intros E; try discriminate E; auto. Qed.

Lemma nat_of_ascii_inj c d : nat_of_ascii c = nat_of_ascii d -> c = d.
Proof.
  intros H. rewrite <- (ascii_nat_embedding c), <- (ascii_nat_embedding d), H.
  reflexivity.
Qed.

(** A zero from [strncasecmp] means the lower-cased bytes agree, as far
    as the second string has no NUL. *)
Lemma strncasecmp_zero n :
  forall s1 s2,
    strncasecmp s1 s2 n = 0%Z ->
    (forall i, (i < n)%nat -> is_nul (tolower (char_at s2 i)) = false) ->
    forall i, (i < n)%nat ->
              tolower (char_at s1 i) = tolower (char_at s2 i).
Proof.
  induction n as [|n IH]; intros s1 s2 H Hn i Hi; [lia|].
  cbn [strncasecmp] in H.
  destruct (Ascii.eqb (tolower (char_at s1 0)) (tolower (char_at s2 0))) eqn:E;
    cbn [negb] in H.
  - apply Ascii.eqb_eq in E.
    rewrite E, (Hn 0%nat) in H by lia.
    destruct i as [|i]; [exact E|].
    rewrite <- !char_at_advance. apply IH; [exact H | | lia].
    intros j Hj. rewrite char_at_advance. apply Hn. lia.
  - apply Ascii.eqb_neq in E. exfalso. apply E. apply nat_of_ascii_inj. lia.
Qed.

Lemma strncasecmp_segwit_prefix a :
  (strncasecmp a "bc1" 3 =? 0)%Z || (strncasecmp a "tb1" 3 =? 0)%Z = true ->
  segwit_prefix a.
Proof.
  intros H. apply orb_true_iff in H. unfold segwit_prefix.
  destruct H as [H|H]; apply Z.eqb_eq in H.
  - pose proof (strncasecmp_zero 3 a "bc1" H) as Hc.
    assert (Hn : forall i, (i < 3)%nat ->
                   is_nul (tolower (char_at "bc1" i)) = false).
    { intros [|[|[|i]]] Hi; try reflexivity; lia. }
    split; [left; split|].
    + apply (Hc Hn 0%nat). lia.
    + apply (Hc Hn 1%nat). lia.
    + apply tolower_one. apply (Hc Hn 2%nat). lia.
  - pose proof (strncasecmp_zero 3 a "tb1" H) as Hc.
    assert (Hn : forall i, (i < 3)%nat ->
                   is_nul (tolower (char_at "tb1" i)) = false).
    { intros [|[|[|i]]] Hi; try reflexivity; lia. }
    split; [right; split|].
    + apply (Hc Hn 0%nat). lia.
    + apply (Hc Hn 1%nat). lia.
    + apply tolower_one. apply (Hc Hn 2%nat). lia.
Qed.

(** X5: whatever [tbg_validate_btc_address] accepts either starts with a
    base58 version character and has 25 to 34 bytes, or starts with [bc1]
    or [tb1] (in either case) and has 14 to 74 bytes; a NULL pointer and
    every other string are refused. *)
Theorem X5_address_dispatch (a : string) :
  tbg_validate_btc_address (Some a) = true ->
  tbg_validate_btc_address None = false /\
  ((base58_prefix a /\ (25 <= strlen a <= 34)%nat) \/
   (segwit_prefix a /\ (14 <= strlen a <= 74)%nat)).
Proof.
  intros H. split; [reflexivity|]. unfold tbg_validate_btc_address in H.
  destruct ((strlen a =? 0)%nat || (MAX_BTC_ADDRESS_LEN <? strlen a)%nat);
    [discriminate H|].
  destruct (Ascii.eqb (char_at a 0) "1" || Ascii.eqb (char_at a 0) "3" ||
            Ascii.eqb (char_at a 0) "m" || Ascii.eqb (char_at a 0) "n" ||
            Ascii.eqb (char_at a 0) "2") eqn:E1.
  - left. split; [apply base58_prefix_test; exact E1|].
    apply validate_base58_address_iff in H. tauto.
  - destruct ((strncasecmp a "bc1" 3 =? 0)%Z || (strncasecmp a "tb1" 3 =? 0)%Z)
      eqn:E2; [|discriminate H].
    right. pose proof (strncasecmp_segwit_prefix a E2) as Hp.
    split; [exact Hp|].
    apply (validate_bech32_address_iff a Hp) in H. apply H.
Qed.

Lemma X5_address_dispatch_witness :
  tbg_validate_btc_address (Some bip173_address) = true /\
  ((base58_prefix bip173_address /\ (25 <= strlen bip173_address <= 34)%nat) \/
   (segwit_prefix bip173_address /\ (14 <= strlen bip173_address <= 74)%nat)).
Proof.
  assert (H : tbg_validate_btc_address (Some bip173_address) = true)
    by reflexivity.
  split; [exact H|]. apply (X5_address_dispatch bip173_address H).
Defined.

(** *** ntime and version bits *)

Lemma is_hex_char_digit c :
  is_hex_char c =
  match hex_digit_value c with Some _ => true | None => false end.
Proof. ascii_cases c; reflexivity. Qed.

Lemma hex_digit_value_range c d :
  hex_digit_value c = Some d -> (0 <= d <= 15)%Z.
Proof. ascii_cases c; cbv; intros [= <-]; split; discriminate. Qed.

Lemma is_hex_char_plain c :
  is_hex_char c = true ->
  isspace c = false /\ Ascii.eqb c "x" || Ascii.eqb c "X" = false.
Proof. ascii_cases c; cbv; intros E; try discriminate E; auto. Qed.

Lemma char_at_advance_n n : forall s i, char_at (advance n s) i = char_at s (n + i).
Proof.
  induction n as [|n IH]; intros s i; [reflexivity|].
  destruct s as [|c r]; [reflexivity|]. cbn [advance]. rewrite IH. reflexivity.
Qed.

Lemma char_at_strlen s : is_nul (char_at s (strlen s)) = true.
Proof.
  induction s as [|c r IH]; [reflexivity|]. cbn [strlen].
  destruct (is_nul c) eqn:E; [exact E | exact IH].
Qed.

(** The digit run of [strtoul] over [n] hex digits followed by a byte
    that is not one. *)
Lemma strtoul_digits_run n :
  forall s acc t,
    (forall i, (i < n)%nat -> is_hex_char (char_at s i) = true) ->
    is_hex_char (char_at s n) = false ->
    strtoul_digits s acc t = (hex_value_from acc s, (t + n)%nat, advance n s).
Proof.
  induction n as [|n IH]; intros s acc t Hd He.
  - rewrite is_hex_char_digit in He. rewrite Nat.add_0_r.
    destruct s as [|c r]; [reflexivity|]. cbn in He |- *.
    destruct (hex_digit_value c); [discriminate He | reflexivity].
  - pose proof (Hd 0%nat ltac:(lia)) as H0. rewrite is_hex_char_digit in H0.
    destruct s as [|c r]; [discriminate H0|]. cbn in H0.
    cbn [strtoul_digits hex_value_from advance].
    destruct (hex_digit_value c) as [d|]; [|discriminate H0].
    rewrite (IH r); [f_equal; f_equal; lia | | exact He].
    intros i Hi. apply (Hd (S i)). lia.
Qed.

Lemma hex_value_from_bounds n :
  forall s acc,
    (forall i, (i < n)%nat -> is_hex_char (char_at s i) = true) ->
    is_hex_char (char_at s n) = false ->
    (acc * 16 ^ Z.of_nat n <= hex_value_from acc s
     < (acc + 1) * 16 ^ Z.of_nat n)%Z.
Proof.
  induction n as [|n IH]; intros s acc Hd He.
  - rewrite is_hex_char_digit in He.
    destruct s as [|c r]; cbn in He |- *; [lia|].
    destruct (hex_digit_value c); [discriminate He | lia].
  - pose proof (Hd 0%nat ltac:(lia)) as H0. rewrite is_hex_char_digit in H0.
    destruct s as [|c r]; [discriminate H0|]. cbn in H0.
    cbn [hex_value_from].
    destruct (hex_digit_value c) as [d|] eqn:Ed; [|discriminate H0].
    apply hex_digit_value_range in Ed.
    assert (Hr : (forall i, (i < n)%nat -> is_hex_char (char_at r i) = true))
      by (intros i Hi; apply (Hd (S i)); lia).
    specialize (IH r (acc * 16 + d)%Z Hr He).
    rewrite Nat2Z.inj_succ, Z.pow_succ_r by lia.
    assert (0 < 16 ^ Z.of_nat n)%Z by (apply Z.pow_pos_nonneg; lia).
    nia.
Qed.

(** On a string of exactly eight hex digits [strtoul] reads the whole
    string and returns the number it denotes, below [2^32]. *)
Lemma strtoul16_hex8 h :
  tbg_validate_hex_string (Some h) 8 = true ->
  strtoul16 h = (hex_value h, advance 8 h) /\
  is_nul (char_at (advance 8 h) 0) = true /\
  (0 <= hex_value h < 2 ^ 32)%Z.
Proof.
  intros H. unfold tbg_validate_hex_string in H.
  destruct (strlen h =? 8)%nat eqn:El; [|discriminate H].
  apply Nat.eqb_eq in El. cbn [negb] in H.
  pose proof (proj1 (hex_loop_iff 8 h) H) as Hd.
  assert (He : is_hex_char (char_at h 8) = false).
  { pose proof (char_at_strlen h) as Hn. rewrite El in Hn.
    apply is_nul_true in Hn. rewrite Hn. reflexivity. }
  pose proof (hex_value_from_bounds 8 h 0%Z Hd He) as Hb.
  change (16 ^ Z.of_nat 8)%Z with 4294967296%Z in Hb.
  fold (hex_value h) in Hb.
  split; [|split].
  - pose proof (Hd 0%nat ltac:(lia)) as H0.
    pose proof (Hd 1%nat ltac:(lia)) as H1.
    destruct h as [|c0 [|c1 r]]; try discriminate H0; try discriminate H1.
    change (char_at (String c0 (String c1 r)) 0) with c0 in H0.
    change (char_at (String c0 (String c1 r)) 1) with c1 in H1.
    destruct (is_hex_char_plain c0 H0) as [Hs0 _].
    destruct (is_hex_char_plain c1 H1) as [_ Hx1].
    unfold strtoul16. cbn [skip_spaces]. rewrite Hs0.
    assert (Hsign :
      (match String c0 (String c1 r) with
       | String "-" r0 => (true, r0)
       | String "+" r0 => (false, r0)
       | _ => (false, String c0 (String c1 r))
       end) = (false, String c0 (String c1 r))).
    { revert H0. clear. ascii_cases c0; cbv [is_hex_char nat_of_ascii];
        intros E; try discriminate E; reflexivity. }
    rewrite Hsign.
    assert (Hpre :
      (match String c0 (String c1 r) with
       | String "0" (String x r0) =>
           if (Ascii.eqb x "x" || Ascii.eqb x "X") &&
              match hex_digit_value (char_at r0 0) with
              | Some _ => true
              | None => false
              end
           then r0 else String c0 (String c1 r)
       | _ => String c0 (String c1 r)
       end) = String c0 (String c1 r)).
    { destruct c0 as [[] [] [] [] [] [] [] []]; try reflexivity.
      rewrite Hx1. reflexivity. }
    rewrite Hpre.
    rewrite (strtoul_digits_run 8 _ 0%Z 0%nat Hd He).
    cbn [Nat.add]. fold (hex_value (String c0 (String c1 r))).
    replace (hex_value (String c0 (String c1 r)) >? ULONG_MAX)%Z with false
      by (symmetry; rewrite Z.gtb_ltb; apply Z.ltb_ge; unfold ULONG_MAX; lia).
    reflexivity.
  - rewrite char_at_advance_n. rewrite <- El at 1. rewrite Nat.add_0_r.
    apply char_at_strlen.
  - lia.
Qed.

(** X6: [tbg_validate_ntime] accepts a field iff it is eight hex digits
    and the time they denote is within [max_drift_seconds] of the
    current time, either way. *)
Theorem X6_ntime_window (h : string) (now drift : Z) :
  tbg_validate_ntime None now drift = false /\
  (tbg_validate_ntime (Some h) now drift = true <->
   tbg_validate_hex_string (Some h) 8 = true /\
   (Z.abs (hex_value h - now) <= drift)%Z).
Proof.
  split; [reflexivity|]. unfold tbg_validate_ntime, MAX_NTIME_LEN.
  destruct (tbg_validate_hex_string (Some h) 8) eqn:Eh; cbn [negb];
    [|split; [discriminate | intros [E _]; discriminate E]].
  destruct (strtoul16_hex8 h Eh) as (Es & En & Hb).
  rewrite Es, En. cbn [negb].
  unfold to_time_t.
  replace (hex_value h >=? 2 ^ 63)%Z with false
    by (symmetry; rewrite Z.geb_leb; apply Z.leb_gt; lia).
  destruct (hex_value h >? now)%Z eqn:Eg.
  - apply Z.gtb_lt in Eg.
    destruct (hex_value h - now >? drift)%Z eqn:Ed.
    + apply Z.gtb_lt in Ed. split; [discriminate | lia].
    + rewrite Z.gtb_ltb in Ed. apply Z.ltb_ge in Ed. split; [lia | reflexivity].
  - rewrite Z.gtb_ltb in Eg. apply Z.ltb_ge in Eg.
    destruct (now - hex_value h >? drift)%Z eqn:Ed.
    + apply Z.gtb_lt in Ed. split; [discriminate | lia].
    + rewrite Z.gtb_ltb in Ed. apply Z.ltb_ge in Ed. split; [lia | reflexivity].
Qed.

Lemma mask_bits_zero v job mask :
  (0 <= v < 2 ^ 32)%Z -> (0 <= job < 2 ^ 32)%Z ->
  Z.land (Z.lxor v job) (CInt.wrap32u (Z.lnot mask)) = 0%Z <->
  forall i, (0 <= i < 32)%Z ->
            Z.testbit v i <> Z.testbit job i -> Z.testbit mask i = true.
Proof.
  intros Hv Hj. unfold CInt.wrap32u. split.
  - intros H i Hi Hne.
    apply (f_equal (fun z => Z.testbit z i)) in H.
    rewrite Z.land_spec, Z.lxor_spec, Z.mod_pow2_bits_low, Z.lnot_spec,
      Z.bits_0 in H by lia.
    destruct (Z.testbit v i), (Z.testbit job i), (Z.testbit mask i);
      cbn in H; congruence.
  - intros H. apply Z.bits_inj'. intros i Hi.
    rewrite Z.land_spec, Z.lxor_spec, Z.bits_0.
    destruct (Z_lt_le_dec i 32) as [Hlt|Hge].
    + rewrite Z.mod_pow2_bits_low, Z.lnot_spec by lia.
      specialize (H i ltac:(lia)).
      destruct (Z.testbit v i), (Z.testbit job i), (Z.testbit mask i);
        cbn; try reflexivity; exfalso;
        assert (true = true) by reflexivity;
        (assert (E : false = true) by (apply H; congruence); discriminate E).
    + rewrite Z.mod_pow2_bits_high by lia. apply andb_false_r.
Qed.

(** X7: [tbg_validate_version_bits] accepts a field iff it is eight hex
    digits and every bit in which the submitted version differs from the
    job's version is set in the version mask. *)
Theorem X7_version_bits_mask (h : string) (job mask : Z) :
  (0 <= job < 2 ^ 32)%Z ->
  tbg_validate_version_bits None job mask = false /\
  (tbg_validate_version_bits (Some h) job mask = true <->
   tbg_validate_hex_string (Some h) 8 = true /\
   forall i, (0 <= i < 32)%Z ->
             Z.testbit (hex_value h) i <> Z.testbit job i ->
             Z.testbit mask i = true).
Proof.
  intros Hj. split; [reflexivity|].
  unfold tbg_validate_version_bits, MAX_VERSION_BITS_LEN.
  destruct (tbg_validate_hex_string (Some h) 8) eqn:Eh; cbn [negb];
    [|split; [discriminate | intros [E _]; discriminate E]].
  destruct (strtoul16_hex8 h Eh) as (Es & En & Hb).
  rewrite Es, En. cbn [negb].
  rewrite (CInt_wrap32u_small (hex_value h)) by exact Hb.
  rewrite <- (mask_bits_zero (hex_value h) job mask Hb Hj).
  destruct (Z.land _ _ =? 0)%Z eqn:E; cbn [negb].
  - apply Z.eqb_eq in E. tauto.
  - apply Z.eqb_neq in E. split; [discriminate | tauto].
Qed.

Lemma X7_version_bits_mask_witness :
  (0 <= 536870912 < 2 ^ 32)%Z /\
  tbg_validate_version_bits (Some version_example) 536870912 536862720 = true.
Proof.
  assert (Hj : (0 <= 536870912 < 2 ^ 32)%Z) by (split; [discriminate | reflexivity]).
  split; [exact Hj|].
  destruct (X7_version_bits_mask version_example 536870912 536862720 Hj)
    as [_ H].
  apply H. split; [reflexivity|].
  intros i Hi Hne.
  assert (Hm : Z.land (Z.lxor (hex_value version_example) 536870912)
                 (CInt.wrap32u (Z.lnot 536862720)) = 0%Z) by reflexivity.
  apply (proj1 (mask_bits_zero (hex_value version_example) 536870912 536862720
                  ltac:(split; [discriminate | reflexivity]) Hj) Hm i Hi Hne).
Defined.

(** *** JSON payload gate *)

Lemma json_skip_ws_spec len :
  forall b,
    exists k, (k <= len)%nat /\
      json_skip_ws b len = (advance k b, (len - k)%nat) /\
      (forall i, (i < k)%nat -> json_ws (char_at b i) = true) /\
      ((k < len)%nat -> json_ws (char_at b k) = false).
Proof.
  induction len as [|len IH]; intros b.
  - exists 0%nat. split; [lia|]. split; [reflexivity|].
    split; intros; lia.
  - cbn [json_skip_ws]. destruct (json_ws (char_at b 0)) eqn:E.
    + destruct (IH (advance 1 b)) as (k & Hk & Hs & Hws & Hstop).
      exists (S k). split; [lia|]. split; [|split].
      * rewrite Hs. destruct b; [destruct k|]; reflexivity.
      * intros [|i] Hi; [exact E|].
        rewrite <- char_at_advance. apply Hws. lia.
      * intros Hlt. rewrite <- char_at_advance. apply Hstop. lia.
    + exists 0%nat. split; [lia|]. split; [reflexivity|].
      split; [intros; lia | intros _; exact E].
Qed.

(** X8: [tbg_validate_json_payload] accepts a buffer iff it is non-NULL,
    its length is between 1 and [max_size], its first byte after leading
    spaces, tabs and line ends is an opening brace, and the nesting depth
    counted from there is at most 3. *)
Theorem X8_json_gate (b : string) (len max_size : nat) :
  tbg_validate_json_payload None len max_size = false /\
  (tbg_validate_json_payload (Some b) len max_size = true <->
   (1 <= len <= max_size)%nat /\
   exists k, (k < len)%nat /\
     (forall i, (i < k)%nat -> json_ws (char_at b i) = true) /\
     char_at b k = "{"%char /\
     (json_nesting_depth (advance k b) (len - k) <= MAX_JSON_NESTING)%Z).
Proof.
  split; [reflexivity|]. unfold tbg_validate_json_payload.
  destruct (len =? 0)%nat eqn:E0.
  { apply Nat.eqb_eq in E0. split; [discriminate | intros [H _]; lia]. }
  apply Nat.eqb_neq in E0.
  destruct (max_size <? len)%nat eqn:Em.
  { apply Nat.ltb_lt in Em. split; [discriminate | intros [H _]; lia]. }
  apply Nat.ltb_ge in Em.
  destruct (json_skip_ws_spec len b) as (k & Hk & Hs & Hws & Hstop).
  rewrite Hs.
  assert (Huniq : forall k', (k' < len)%nat ->
            (forall i, (i < k')%nat -> json_ws (char_at b i) = true) ->
            char_at b k' = "{"%char -> k' = k).
  { intros k' Hk' Hws' Hb.
    destruct (Nat.lt_trichotomy k' k) as [Hlt|[He|Hgt]]; [|exact He|].
    - specialize (Hws k' Hlt). rewrite Hb in Hws. discriminate Hws.
    - specialize (Hstop ltac:(lia)). rewrite (Hws' k Hgt) in Hstop.
      discriminate Hstop. }
  destruct ((len - k =? 0)%nat ||
            negb (Ascii.eqb (char_at (advance k b) 0) "{")) eqn:E1.
  - split; [discriminate|]. intros (_ & k' & Hk' & Hws' & Hb & _).
    pose proof (Huniq k' Hk' Hws' Hb) as ->.
    apply orb_true_iff in E1. destruct E1 as [E1|E1].
    + apply Nat.eqb_eq in E1. lia.
    + rewrite char_at_advance_n, Nat.add_0_r, Hb in E1. discriminate E1.
  - apply orb_false_iff in E1. destruct E1 as [E1 E2].
    apply Nat.eqb_neq in E1. apply negb_false_iff, Ascii.eqb_eq in E2.
    rewrite char_at_advance_n, Nat.add_0_r in E2.
    destruct (json_nesting_depth (advance k b) (len - k) >? MAX_JSON_NESTING)%Z
      eqn:Ed.
    + apply Z.gtb_lt in Ed. split; [discriminate|].
      intros (_ & k' & Hk' & Hws' & Hb & Hd).
      pose proof (Huniq k' Hk' Hws' Hb) as ->. lia.
    + rewrite Z.gtb_ltb in Ed. apply Z.ltb_ge in Ed.
      split; [|reflexivity]. intros _. split; [lia|].
      exists k. repeat split; try assumption; lia.
Qed.

Lemma json_scan_step_mono st c :
  (max_depth st <= max_depth (json_scan_step st c))%Z.
Proof.
  unfold json_scan_step.
  repeat match goal with
         | |- context [if ?b then _ else _] => destruct b eqn:?
         end; cbn [max_depth]; lia.
Qed.

Lemma json_scan_loop_mono len :
  forall b st, (max_depth st <= max_depth (json_scan_loop b len st))%Z.
Proof.
  induction len as [|len IH]; intros b st; cbn [json_scan_loop]; [lia|].
  etransitivity; [apply json_scan_step_mono | apply IH].
Qed.

Lemma json_scan_open st c :
  is_open_bracket c -> in_string st = false -> escape st = false ->
  (depth st <= max_depth st)%Z ->
  let st' := json_scan_step st c in
  depth st' = (depth st + 1)%Z /\ in_string st' = false /\
  escape st' = false /\ (depth st' <= max_depth st')%Z.
Proof.
  intros Hc Hs He Hd. unfold json_scan_step. rewrite He, Hs.
  destruct Hc as [-> | ->]; cbn;
    destruct (depth st + 1 >? max_depth st)%Z eqn:E; cbn; repeat split; try lia;
    rewrite Z.gtb_ltb in E; apply Z.ltb_ge in E; lia.
Qed.

(** X9: a buffer that opens four brackets in a row is refused whatever
    follows: the gate never lets more than three levels through. *)
Theorem X9_json_deep_nesting_refused (o2 o3 o4 : ascii) (rest : string)
  (len max_size : nat) :
  is_open_bracket o2 -> is_open_bracket o3 -> is_open_bracket o4 ->
  (4 <= len)%nat ->
  tbg_validate_json_payload
    (Some (String "{" (String o2 (String o3 (String o4 rest))))) len max_size
  = false.
Proof.
  intros H2 H3 H4 Hlen. unfold tbg_validate_json_payload.
  destruct len as [|[|[|[|len]]]]; try lia.
  cbn [Nat.eqb]. destruct (max_size <? S (S (S (S len))))%nat; [reflexivity|].
  cbn [json_skip_ws char_at String.get json_ws Ascii.eqb Bool.eqb orb andb].
  cbn [Nat.eqb orb negb Ascii.eqb Bool.eqb andb].
  unfold json_nesting_depth. cbn [json_scan_loop advance char_at String.get].
  set (s1 := json_scan_step json_scan_start "{").
  destruct (json_scan_open json_scan_start "{" (or_introl eq_refl)
              eq_refl eq_refl ltac:(cbn; lia)) as (D1 & S1 & E1 & M1).
  fold s1 in D1, S1, E1, M1.
  destruct (json_scan_open s1 o2 H2 S1 E1 M1) as (D2 & S2 & E2 & M2).
  destruct (json_scan_open _ o3 H3 S2 E2 M2) as (D3 & S3 & E3 & M3).
  destruct (json_scan_open _ o4 H4 S3 E3 M3) as (D4 & S4 & E4 & M4).
  set (s4 := json_scan_step (json_scan_step (json_scan_step s1 o2) o3) o4) in *.
  pose proof (json_scan_loop_mono len rest s4) as Hm.
  change (depth json_scan_start) with 0%Z in D1.
  replace (max_depth (json_scan_loop rest len s4) >? MAX_JSON_NESTING)%Z
    with true; [reflexivity|].
  symmetry. apply Z.gtb_lt. unfold MAX_JSON_NESTING. lia.
Qed.

Lemma X9_json_deep_nesting_refused_witness :
  (is_open_bracket "[" /\ is_open_bracket "{" /\ (4 <= 8)%nat) /\
  tbg_validate_json_payload (Some "{[{[]}]}"%string) 8 4096 = false.
Proof.
  assert (H1 : is_open_bracket "[") by (right; reflexivity).
  assert (H2 : is_open_bracket "{") by (left; reflexivity).
  assert (H3 : (4 <= 8)%nat) by lia.
  split; [tauto|].
  apply (X9_json_deep_nesting_refused "[" "{" "[" "]}]}" 8 4096 H1 H2 H1 H3).
Defined.

Lemma json_scan_loop_app a :
  forall b n st,
    json_scan_loop (String.append a b) (String.length a + n) st =
    json_scan_loop b n (json_scan_loop a (String.length a) st).
Proof.
  induction a as [|c a IH]; intros b n st; [reflexivity|].
  cbn [String.append String.length Nat.add json_scan_loop advance].
  change (char_at (String c (String.append a b)) 0) with c.
  change (char_at (String c a) 0) with c.
  apply IH.
Qed.

Lemma json_scan_inside_string s :
  forall st,
    in_string st = true -> escape st = false -> plain_text s ->
    json_scan_loop s (String.length s) st = st.
Proof.
  unfold plain_text.
  induction s as [|c s IH]; intros st Hs He Hp; [reflexivity|].
  cbn [list_ascii_of_string] in Hp. inversion Hp as [|? ? [Hq Hb] Hp']; subst.
  cbn [String.length json_scan_loop advance].
  change (char_at (String c s) 0) with c.
  assert (Hstep : json_scan_step st c = st).
  { unfold json_scan_step. rewrite He, Hs.
    apply Ascii.eqb_neq in Hq. apply Ascii.eqb_neq in Hb.
    rewrite Hq, Hb. reflexivity. }
  rewrite Hstep. apply IH; assumption.
Qed.

Lemma json_scan_quoted s st :
  in_string st = false -> escape st = false -> plain_text s ->
  json_scan_loop (json_quoted s) (String.length (json_quoted s)) st = st.
Proof.
  intros Hs He Hp. destruct st as [d m i e]. cbn in Hs, He. subst i e.
  unfold json_quoted.
  cbn [String.length json_scan_loop advance].
  match goal with
  | |- context [char_at (String ?c ?r) 0] =>
      change (char_at (String c r) 0) with c
  end.
  set (st := {| depth := d; max_depth := m; in_string := false;
                escape := false |}).
  set (st1 := json_scan_step st "034").
  assert (H1 : st1 = {| depth := d; max_depth := m;
                        in_string := true; escape := false |})
    by reflexivity.
  assert (Hl : String.length (String.append s (String "034" EmptyString))
               = (String.length s + 1)%nat).
  { clear. induction s as [|c s IH]; cbn; [reflexivity | rewrite IH; reflexivity]. }
  rewrite Hl, json_scan_loop_app.
  rewrite (json_scan_inside_string s st1);
    [| rewrite H1; reflexivity | rewrite H1; reflexivity | exact Hp].
  cbn [json_scan_loop]. change (char_at (String "034" EmptyString) 0) with "034"%char.
  rewrite H1. reflexivity.
Qed.

(** X10: brackets inside a string literal do not count: where the
    scanner is outside a string, a literal without quotes and
    backslashes in it can be dropped from the buffer without changing the
    nesting depth that [json_nesting_depth] reports. *)
Theorem X10_json_string_literal_ignored (pre s post : string) :
  in_string (json_scan_of pre) = false ->
  escape (json_scan_of pre) = false ->
  plain_text s ->
  json_nesting_depth
    (String.append pre (String.append (json_quoted s) post))
    (String.length pre + (String.length (json_quoted s) + String.length post))
  = json_nesting_depth (String.append pre post)
      (String.length pre + String.length post).
Proof.
  intros Hs He Hp. unfold json_nesting_depth.
  rewrite !json_scan_loop_app.
  fold (json_scan_of pre).
  rewrite (json_scan_quoted s (json_scan_of pre) Hs He Hp). reflexivity.
Qed.

Lemma X10_json_string_literal_ignored_witness :
  (in_string (json_scan_of "{") = false /\
   escape (json_scan_of "{") = false /\ plain_text "[[[[") /\
  json_nesting_depth
    (String.append "{" (String.append (json_quoted "[[[[") "}")) 8
  = json_nesting_depth "{}" 2.
Proof.
  assert (H1 : in_string (json_scan_of "{") = false) by reflexivity.
  assert (H2 : escape (json_scan_of "{") = false) by reflexivity.
  assert (H3 : plain_text "[[[[").
  { repeat constructor; discriminate. }
  split; [tauto|].
  exact (X10_json_string_literal_ignored "{" "[[[[" "}" H1 H2 H3).
Defined.

(** *** User agent and log sanitising *)

Lemma printable_not_nul c : printable c = true -> is_nul c = false.
Proof. ascii_cases c; cbv; intros E; try discriminate E; reflexivity. Qed.

Lemma printable_c_str s :
  Forall (fun c => printable c = true) (list_ascii_of_string s) ->
  c_str s = s /\ strlen s = String.length s.
Proof.
  induction s as [|c s IH]; intros H; [split; reflexivity|].
  cbn [list_ascii_of_string] in H. inversion H as [|? ? Hc Hs]; subst.
  destruct (IH Hs) as [E1 E2]. cbn [c_str strlen String.length].
  rewrite (printable_not_nul c Hc), E1, E2. split; reflexivity.
Qed.

Lemma c_str_length s : String.length (c_str s) = strlen s.
Proof.
  induction s as [|c s IH]; [reflexivity|]. cbn [c_str strlen].
  destruct (is_nul c); [reflexivity|]. cbn. rewrite IH. reflexivity.
Qed.

Lemma cut_length n : forall s, String.length (cut n s) = Nat.min n (String.length s).
Proof.
  induction n as [|n IH]; intros [|c s]; cbn; try reflexivity.
  rewrite IH. reflexivity.
Qed.

Lemma cut_all n : forall s, (String.length s <= n)%nat -> cut n s = s.
Proof.
  induction n as [|n IH]; intros [|c s] H; cbn in *; try reflexivity; try lia.
  rewrite IH by lia. reflexivity.
Qed.

Lemma sanitize_loop_spec s :
  String.length (fst (sanitize_loop s)) = String.length s /\
  Forall (fun c => printable c = true)
         (list_ascii_of_string (fst (sanitize_loop s))) /\
  (snd (sanitize_loop s) = true <-> fst (sanitize_loop s) = s).
Proof.
  induction s as [|c s (Hl & Hp & Hc)]; [cbn; repeat split; constructor|].
  cbn [sanitize_loop]. destruct (sanitize_loop s) as [r clean].
  cbn [fst snd] in *.
  destruct (printable c) eqn:E; cbn [negb fst snd String.length list_ascii_of_string].
  - split; [lia|]. split; [constructor; assumption|].
    rewrite Hc. split; [intros ->; reflexivity | intros [= ->]; reflexivity].
  - split; [lia|]. split; [constructor; [reflexivity | assumption]|].
    split; [discriminate|]. intros [= <- _]. discriminate E.
Qed.

Lemma sanitize_loop_printable s :
  Forall (fun c => printable c = true) (list_ascii_of_string s) ->
  sanitize_loop s = (s, true).
Proof.
  induction s as [|c s IH]; intros H; [reflexivity|].
  cbn [list_ascii_of_string] in H. inversion H as [|? ? Hc Hs]; subst.
  cbn [sanitize_loop]. rewrite (IH Hs), Hc. reflexivity.
Qed.

(** X11: [tbg_sanitize_user_agent] leaves in the buffer a string of at
    most [max_len] bytes, all printable ASCII; it returns true exactly when
    that string is the one it was given; and sanitising the result again
    changes nothing and returns true. *)
Theorem X11_sanitize_user_agent (ua : string) (max_len : nat) :
  tbg_sanitize_user_agent None max_len = (true, None) /\
  exists s',
    snd (tbg_sanitize_user_agent (Some ua) max_len) = Some s' /\
    String.length s' = Nat.min (strlen ua) max_len /\
    Forall (fun c => printable c = true) (list_ascii_of_string s') /\
    (fst (tbg_sanitize_user_agent (Some ua) max_len) = true <-> s' = c_str ua) /\
    tbg_sanitize_user_agent (Some s') max_len = (true, Some s').
Proof.
  split; [reflexivity|]. unfold tbg_sanitize_user_agent at 1 2.
  set (s := if (max_len <? strlen ua)%nat then cut max_len (c_str ua)
            else c_str ua).
  assert (Hs : (if (max_len <? strlen ua)%nat
                then (cut max_len (c_str ua), false)
                else (c_str ua, true)) = (s, negb (max_len <? strlen ua)%nat)).
  { subst s. destruct (max_len <? strlen ua)%nat; reflexivity. }
  rewrite Hs.
  destruct (sanitize_loop_spec s) as (Hl & Hp & Hc).
  destruct (sanitize_loop s) as [s' clean] eqn:Eloop. cbn [fst snd] in *.
  exists s'.
  assert (Hlen : String.length s = Nat.min (strlen ua) max_len).
  { subst s. destruct (max_len <? strlen ua)%nat eqn:E.
    - apply Nat.ltb_lt in E. rewrite cut_length, c_str_length. lia.
    - apply Nat.ltb_ge in E. rewrite c_str_length. lia. }
  split; [reflexivity|]. split; [lia|]. split; [exact Hp|]. split.
  - rewrite andb_true_iff, negb_true_iff, Hc. split.
    + intros [E ->]. subst s. rewrite E. reflexivity.
    + intros ->. rewrite c_str_length in Hl.
      assert (E : (max_len <? strlen ua)%nat = false)
        by (apply Nat.ltb_ge; lia).
      split; [exact E|]. subst s. rewrite E. reflexivity.
  - destruct (printable_c_str s' Hp) as [E1 E2].
    unfold tbg_sanitize_user_agent. rewrite E1, E2.
    replace (max_len <? String.length s')%nat with false
      by (symmetry; apply Nat.ltb_ge; lia).
    rewrite (sanitize_loop_printable s' Hp). reflexivity.
Qed.

Lemma safe_truncate_loop_spec s :
  String.length (safe_truncate_loop s) = String.length s /\
  Forall (fun c => printable c = true)
         (list_ascii_of_string (safe_truncate_loop s)) /\
  (Forall (fun c => printable c = true) (list_ascii_of_string s) ->
   safe_truncate_loop s = s).
Proof.
  induction s as [|c s (Hl & Hp & Hc)]; [cbn; repeat split; constructor|].
  cbn [safe_truncate_loop String.length list_ascii_of_string].
  split; [lia|]. split.
  - constructor; [|exact Hp]. destruct (printable c) eqn:E; [exact E | reflexivity].
  - intros H. inversion H as [|? ? Hc' Hs']; subst.
    rewrite Hc', (Hc Hs'). reflexivity.
Qed.

(** X12: what [safe_truncate] writes for the log has at most
    [max_out - 1] bytes and no byte outside printable ASCII, so no line
    break or control sequence of the input reaches the log; a short
    printable input is written unchanged and a NULL input as the empty
    string. *)
Theorem X12_safe_truncate (input : string) (max_out : nat) :
  (1 <= max_out)%nat ->
  safe_truncate None max_out = EmptyString /\
  String.length (safe_truncate (Some input) max_out)
    = Nat.min (strlen input) (max_out - 1) /\
  Forall (fun c => printable c = true)
         (list_ascii_of_string (safe_truncate (Some input) max_out)) /\
  ((strlen input <= max_out - 1)%nat ->
   Forall (fun c => printable c = true) (list_ascii_of_string (c_str input)) ->
   safe_truncate (Some input) max_out = c_str input).
Proof.
  intros Hm. split; [reflexivity|]. unfold safe_truncate.
  replace (max_out =? 0)%nat with false by (symmetry; apply Nat.eqb_neq; lia).
  set (len := if (max_out - 1 <? strlen input)%nat then (max_out - 1)%nat
              else strlen input).
  assert (Hlen : len = Nat.min (strlen input) (max_out - 1)).
  { subst len. destruct (max_out - 1 <? strlen input)%nat eqn:E;
      [apply Nat.ltb_lt in E | apply Nat.ltb_ge in E]; lia. }
  destruct (safe_truncate_loop_spec (cut len (c_str input))) as (Hl & Hp & Hc).
  split; [|split; [exact Hp|]].
  - rewrite Hl, cut_length, c_str_length. lia.
  - intros Hshort Hpr.
    assert (Hcut : cut len (c_str input) = c_str input)
      by (apply cut_all; rewrite c_str_length; lia).
    rewrite Hcut in Hc |- *. apply Hc. exact Hpr.
Qed.

Lemma X12_safe_truncate_witness :
  (1 <= 65)%nat /\
  String.length (safe_truncate (Some dirty_agent) 65) = 5%nat /\
  Forall (fun c => printable c = true)
         (list_ascii_of_string (safe_truncate (Some dirty_agent) 65)).
Proof.
  assert (H : (1 <= 65)%nat) by lia.
  split; [exact H|].
  destruct (X12_safe_truncate dirty_agent 65 H) as (_ & Hl & Hp & _).
  split; [exact Hl | exact Hp].
Defined.

End InputValidationExtra.

(** * Further properties of the slab pool *)

Module MemoryPoolExtra.
Import MemoryPool.
Local Open Scope Z_scope.

Lemma align_up_64 s :
  0 <= s ->
  align_up s POOL_CACHE_LINE_SIZE mod 64 = 0 /\
  s <= align_up s POOL_CACHE_LINE_SIZE < s + 64.
Proof.
  intros Hs. unfold align_up, POOL_CACHE_LINE_SIZE.
  change (64 - 1) with (Z.ones 6).
  replace (s + 64 - 1) with (s + 63) by lia.
  rewrite <- Z.ldiff_land, Z.ldiff_ones_r by lia.
  rewrite Z.shiftr_div_pow2, Z.shiftl_mul_pow2 by lia.
  change (2 ^ 6) with 64.
  split; [apply Z.mod_mul; lia|].
  pose proof (Z.div_mod (s + 63) 64 ltac:(lia)).
  pose proof (Z.mod_pos_bound (s + 63) 64 ltac:(lia)). lia.
Qed.

Lemma pool_grow_fields env m pool count :
  0 < count -> pool_inv pool ->
  pool_inv (snd (pool_grow env m pool count)) /\
  max_items (snd (pool_grow env m pool count)) = max_items pool /\
  item_size (snd (pool_grow env m pool count)) = item_size pool /\
  aligned_size (snd (pool_grow env m pool count)) = aligned_size pool /\
  total_allocated pool <= total_allocated (snd (pool_grow env m pool count)).
Proof.
  intros Hc (Ha & Hs & Hl). unfold pool_grow.
  set (cnt := if total_allocated pool + count >? max_items pool
              then max_items pool - total_allocated pool else count).
  assert (Hsame : pool_inv pool /\ max_items pool = max_items pool /\
                  item_size pool = item_size pool /\
                  aligned_size pool = aligned_size pool /\
                  total_allocated pool <= total_allocated pool)
    by (unfold pool_inv; repeat split; lia).
  destruct ((total_allocated pool + count >? max_items pool) && (cnt <=? 0))
    eqn:E1; [exact Hsame|].
  destruct (env_slab env =? NULL); [exact Hsame|].
  destruct ((slab_count pool >=? slabs_capacity pool) &&
            negb (env_realloc_ok env)) eqn:E2; [exact Hsame|].
  destruct (push_items _ _ _ _ _ _) as [m' head].
  assert (Hcnt : 0 < cnt /\ total_allocated pool + cnt <= max_items pool).
  { subst cnt. destruct (total_allocated pool + count >? max_items pool) eqn:E;
      cbn [andb] in E1; lia. }
  unfold pool_inv. cbn [snd total_allocated max_items slab_count slabs
    slabs_capacity item_size aligned_size].
  rewrite length_app. cbn [length].
  repeat split; try lia.
  destruct (slab_count pool >=? slabs_capacity pool) eqn:E3; [|lia].
  destruct (slabs_capacity pool * 2 =? 0) eqn:E4; lia.
Qed.

Lemma pop_free_fields m pool :
  pool_inv pool ->
  pool_inv (snd (pop_free m pool)) /\
  max_items (snd (pop_free m pool)) = max_items pool /\
  item_size (snd (pop_free m pool)) = item_size pool /\
  aligned_size (snd (pop_free m pool)) = aligned_size pool /\
  total_allocated pool <= total_allocated (snd (pop_free m pool)).
Proof.
  unfold pool_inv, pop_free. cbn. intros H. repeat split; lia.
Qed.

Lemma tbg_pool_alloc_fields env m pool :
  pool_inv pool ->
  pool_inv (snd (tbg_pool_alloc env m pool)) /\
  max_items (snd (tbg_pool_alloc env m pool)) = max_items pool /\
  item_size (snd (tbg_pool_alloc env m pool)) = item_size pool /\
  aligned_size (snd (tbg_pool_alloc env m pool)) = aligned_size pool /\
  total_allocated pool <= total_allocated (snd (tbg_pool_alloc env m pool)).
Proof.
  intros H. unfold tbg_pool_alloc.
  destruct (negb (free_list pool =? NULL)).
  - pose proof (pop_free_fields m pool H) as P.
    destruct (pop_free m pool) as [item pool']. exact P.
  - match goal with
    | |- context [pool_grow env m pool ?g] =>
        assert (Hg : 0 < g)
          by (destruct (total_allocated pool >? 0);
              repeat match goal with
                     | |- context [if ?b then _ else _] => destruct b eqn:?
                     end; lia);
        pose proof (pool_grow_fields env m pool g Hg H) as P;
        destruct (pool_grow env m pool g) as [[ok m'] pool']
    end.
    cbn [snd] in P. destruct P as (P1 & P2 & P3 & P4 & P5).
    destruct ok; [|cbn [snd]; auto].
    pose proof (pop_free_fields m' pool' P1) as Q.
    destruct (pop_free m' pool') as [item pool'']. cbn [snd] in *.
    destruct Q as (Q1 & Q2 & Q3 & Q4 & Q5).
    split; [exact Q1|]. repeat split; try congruence; lia.
Qed.

Lemma tbg_pool_free_fields m pool item :
  pool_inv pool ->
  pool_inv (snd (tbg_pool_free m pool item)) /\
  max_items (snd (tbg_pool_free m pool item)) = max_items pool /\
  item_size (snd (tbg_pool_free m pool item)) = item_size pool /\
  aligned_size (snd (tbg_pool_free m pool item)) = aligned_size pool /\
  total_allocated pool <= total_allocated (snd (tbg_pool_free m pool item)).
Proof.
  unfold pool_inv, tbg_pool_free. intros H.
  destruct (item =? NULL); cbn; repeat split; lia.
Qed.

Lemma run_pool_op_fields o s :
  pool_inv (snd s) ->
  pool_inv (snd (run_pool_op o s)) /\
  max_items (snd (run_pool_op o s)) = max_items (snd s) /\
  item_size (snd (run_pool_op o s)) = item_size (snd s) /\
  aligned_size (snd (run_pool_op o s)) = aligned_size (snd s) /\
  total_allocated (snd s) <= total_allocated (snd (run_pool_op o s)).
Proof.
  intros H. destruct o as [env|item]; cbn [run_pool_op].
  - pose proof (tbg_pool_alloc_fields env (fst s) (snd s) H) as P.
    destruct (tbg_pool_alloc env (fst s) (snd s)) as [[it m'] pool'].
    exact P.
  - apply tbg_pool_free_fields. exact H.
Qed.

Lemma run_pool_fields ops :
  forall s,
    pool_inv (snd s) ->
    pool_inv (snd (run_pool ops s)) /\
    max_items (snd (run_pool ops s)) = max_items (snd s) /\
    item_size (snd (run_pool ops s)) = item_size (snd s) /\
    aligned_size (snd (run_pool ops s)) = aligned_size (snd s) /\
    total_allocated (snd s) <= total_allocated (snd (run_pool ops s)).
Proof.
  induction ops as [|o ops IH]; intros s H.
  - cbn. split; [exact H|]. repeat split; lia.
  - cbn [run_pool fold_left]. fold (run_pool ops (run_pool_op o s)).
    destruct (run_pool_op_fields o s H) as (P1 & P2 & P3 & P4 & P5).
    destruct (IH _ P1) as (Q1 & Q2 & Q3 & Q4 & Q5).
    split; [exact Q1|]. repeat split; try congruence; lia.
Qed.

Lemma tbg_pool_init_fields env m isz init maxi :
  let pool := snd (tbg_pool_init env m isz init maxi) in
  pool_inv pool /\
  max_items pool = (if maxi >? 0 then maxi else POOL_MAX_ITEMS) /\
  item_size pool = (if isz <? SIZEOF_PTR then SIZEOF_PTR else isz) /\
  aligned_size pool = align_up (item_size pool) POOL_CACHE_LINE_SIZE.
Proof.
  unfold tbg_pool_init.
  set (p0 := {| free_list := NULL; item_size := _ |}).
  assert (H0 : pool_inv p0).
  { unfold pool_inv, p0, POOL_MAX_ITEMS. cbn.
    destruct (maxi >? 0) eqn:E; repeat split; lia. }
  destruct (init >? 0) eqn:Ei.
  - destruct (pool_grow_fields env m p0 init ltac:(lia) H0)
      as (P1 & P2 & P3 & P4 & _).
    destruct (pool_grow env m p0 init) as [[ok m'] pool']. cbn [snd] in *.
    rewrite P2, P3, P4. split; [exact P1|]. repeat split; reflexivity.
  - cbn [snd]. split; [exact H0|]. repeat split; reflexivity.
Qed.

(** X13: every pool item is a whole number of cache lines: at any time
    after [tbg_pool_init], whatever was allocated and freed since, the
    item stride [aligned_size] is a multiple of 64, at least the item size
    asked for and at least a pointer, and less than a line larger. *)
Theorem X13_item_stride_is_cache_aligned env m isz init maxi ops :
  0 <= isz < 2 ^ 64 - 64 ->
  let pool := snd (run_pool ops (tbg_pool_init env m isz init maxi)) in
  aligned_size pool mod 64 = 0 /\
  isz <= item_size pool /\ SIZEOF_PTR <= item_size pool /\
  item_size pool <= aligned_size pool < item_size pool + 64.
Proof.
  intros Hs pool. subst pool.
  destruct (tbg_pool_init_fields env m isz init maxi) as (I1 & _ & I3 & I4).
  destruct (run_pool_fields ops _ I1) as (_ & _ & R3 & R4 & _).
  rewrite R3, R4, I4.
  assert (H8 : isz <= item_size (snd (tbg_pool_init env m isz init maxi)) /\
               SIZEOF_PTR <= item_size (snd (tbg_pool_init env m isz init maxi))).
  { rewrite I3. unfold SIZEOF_PTR.
    destruct (isz <? 8) eqn:E; lia. }
  destruct (align_up_64 (item_size (snd (tbg_pool_init env m isz init maxi))))
    as [A1 A2]; [lia|].
  repeat split; try assumption; lia.
Qed.

Lemma X13_item_stride_is_cache_aligned_witness :
  (0 <= 100 < 2 ^ 64 - 64) /\
  aligned_size (snd (run_pool [PoolAlloc scenario_env; PoolFree 4096]
                       (tbg_pool_init scenario_env (fun _ => 0) 100 4 0)))
    mod 64 = 0.
Proof.
  assert (H : 0 <= 100 < 2 ^ 64 - 64) by lia.
  split; [exact H|].
  exact (proj1 (X13_item_stride_is_cache_aligned scenario_env (fun _ => 0)
                  100 4 0 [PoolAlloc scenario_env; PoolFree 4096] H)).
Defined.

(** X14: the pool never carves more items out of slabs than its limit:
    after [tbg_pool_init] and any sequence of allocations and releases
    (with any answers of the C allocator, and releases of any pointer),
    [total_allocated] lies between what it was after the
    initialisation and [max_items], the limit is the one given (or the
    default when that is not positive), and the slab registry holds
    [slab_count] slabs within its capacity. *)
Theorem X14_pool_capacity_bound env m isz init maxi ops :
  let pool0 := snd (tbg_pool_init env m isz init maxi) in
  let pool := snd (run_pool ops (tbg_pool_init env m isz init maxi)) in
  0 <= total_allocated pool0 <= total_allocated pool /\
  total_allocated pool <= max_items pool /\
  max_items pool = (if maxi >? 0 then maxi else POOL_MAX_ITEMS) /\
  0 <= slab_count pool <= slabs_capacity pool /\
  slab_count pool = Z.of_nat (length (slabs pool)).
Proof.
  intros pool0 pool. subst pool0 pool.
  destruct (tbg_pool_init_fields env m isz init maxi) as (I1 & I2 & _).
  destruct (run_pool_fields ops _ I1) as (R1 & R2 & _ & _ & R5).
  destruct I1 as (Ia & _), R1 as (Ra & Rs & Rl).
  rewrite R2, I2 in *.
  repeat split; try assumption; lia.
Qed.

Lemma with_free_same pool :
  with_free pool (free_list pool) (total_free pool) = pool.
Proof. destruct pool; reflexivity. Qed.

(** X15: the free list is last in, first out: an item given back with
    [tbg_pool_free] is the one the next [tbg_pool_alloc] returns, without
    a call to the C allocator, and the pool is then as it was before the
    release (the only trace is the link written into the item). *)
Theorem X15_free_then_alloc env m pool item :
  item <> NULL ->
  let '(m1, pool1) := tbg_pool_free m pool item in
  free_list pool1 = item /\ total_free pool1 = total_free pool + 1 /\
  tbg_pool_alloc env m1 pool1 =
    (item, store_link m item (free_list pool), pool).
Proof.
  intros Hi. unfold tbg_pool_free.
  apply Z.eqb_neq in Hi. rewrite Hi.
  split; [reflexivity|]. split; [reflexivity|].
  unfold tbg_pool_alloc. cbn [free_list]. rewrite Hi. cbn [negb].
  unfold pop_free. cbn [free_list item_size aligned_size total_allocated
    total_free max_items slab_count slabs slabs_capacity].
  rewrite Hi.
  replace (store_link m item (free_list pool) item) with (free_list pool)
    by (unfold store_link; rewrite Z.eqb_refl; reflexivity).
  rewrite Z.add_simpl_r.
  change {| free_list := free_list pool; item_size := item_size pool;
            aligned_size := aligned_size pool;
            total_allocated := total_allocated pool;
            total_free := total_free pool; max_items := max_items pool;
            slab_count := slab_count pool; slabs := slabs pool;
            slabs_capacity := slabs_capacity pool |}
    with (with_free pool (free_list pool) (total_free pool)).
  rewrite with_free_same. reflexivity.
Qed.

Lemma X15_free_then_alloc_witness :
  8192 <> NULL /\
  tbg_pool_alloc scenario_env
    (fst (tbg_pool_free (fun _ => 0) scenario_pool 8192))
    (snd (tbg_pool_free (fun _ => 0) scenario_pool 8192))
  = (8192, store_link (fun _ => 0) 8192 (free_list scenario_pool),
     scenario_pool).
Proof.
  assert (H : 8192 <> NULL) by discriminate.
  split; [exact H|].
  pose proof (X15_free_then_alloc scenario_env (fun _ => 0) scenario_pool
                8192 H) as P.
  destruct (tbg_pool_free (fun _ => 0) scenario_pool 8192) as [m1 pool1].
  exact (proj2 (proj2 P)).
Defined.

Lemma chain_app m l1 :
  forall head l2 mid next,
    chain m head l1 mid -> chain m mid l2 next ->
    chain m head (l1 ++ l2) next.
Proof.
  induction l1 as [|a l1 IH]; intros head l2 mid next H1 H2.
  - cbn in H1. subst. exact H2.
  - cbn in H1 |- *. destruct H1 as (-> & Ha & H1).
    split; [reflexivity|]. split; [exact Ha|]. eapply IH; eassumption.
Qed.

Lemma slab_items_range aligned slab n :
  forall i a,
    0 < aligned -> In a (slab_items aligned slab i n) ->
    exists j, i <= j < i + Z.of_nat n /\ a = slab + j * aligned.
Proof.
  induction n as [|n IH]; intros i a Hal Hin; [destruct Hin|].
  cbn [slab_items] in Hin. destruct Hin as [<- | Hin].
  - exists i. split; [lia | reflexivity].
  - destruct (IH _ _ Hal Hin) as (j & Hj & ->). exists j. split; [lia|reflexivity].
Qed.

Lemma slab_items_NoDup aligned slab n :
  forall i, 0 < aligned -> List.NoDup (slab_items aligned slab i n).
Proof.
  induction n as [|n IH]; intros i Hal; [apply List.NoDup_nil|].
  cbn [slab_items]. apply List.NoDup_cons; [|apply IH; exact Hal].
  intros Hin. destruct (slab_items_range _ _ _ _ _ Hal Hin) as (j & Hj & E).
  nia.
Qed.

(** The loop of [pool_grow] leaves a free list that runs through the new
    items, last one first, and then through the old list; no other link
    is touched. *)
Lemma push_items_chain aligned slab n :
  forall i m head,
    0 < aligned -> 0 < slab -> 0 <= i ->
    chain (fst (push_items aligned slab i n m head))
          (snd (push_items aligned slab i n m head))
          (rev (slab_items aligned slab i n)) head /\
    (forall x, ~ In x (slab_items aligned slab i n) ->
               fst (push_items aligned slab i n m head) x = m x).
Proof.
  induction n as [|n IH]; intros i m head Hal Hsl Hi.
  - cbn. split; [reflexivity | intros; reflexivity].
  - cbn [push_items slab_items rev].
    set (item := slab + i * aligned).
    destruct (IH (i + 1) (store_link m item head) item Hal Hsl ltac:(lia))
      as [Hc Hm].
    assert (Hni : ~ In item (slab_items aligned slab (i + 1) n)).
    { intros Hin. destruct (slab_items_range _ _ _ _ _ Hal Hin) as (j & Hj & E).
      subst item. nia. }
    split.
    + eapply chain_app; [exact Hc|]. cbn [chain].
      split; [reflexivity|]. split; [unfold NULL; subst item; nia|].
      rewrite (Hm item Hni). unfold store_link. rewrite Z.eqb_refl. reflexivity.
    + intros x Hx.
      assert (Hx1 : x <> item) by (intros ->; apply Hx; left; reflexivity).
      assert (Hx2 : ~ In x (slab_items aligned slab (i + 1) n))
        by (intros Hin; apply Hx; right; exact Hin).
      rewrite (Hm x Hx2). unfold store_link.
      apply Z.eqb_neq in Hx1. rewrite Hx1. reflexivity.
Qed.

(** Allocations along a chain return its items in order, without
    writing a link or calling the C allocator. *)
Lemma alloc_n_chain env m items :
  forall pool next,
    chain m (free_list pool) items next ->
    alloc_n env m pool (length items) =
      (items, m,
       with_free pool next (total_free pool - Z.of_nat (length items))).
Proof.
  induction items as [|a items IH]; intros pool next Hc.
  - cbn in Hc |- *. rewrite <- Hc, Z.sub_0_r, with_free_same. reflexivity.
  - cbn [chain] in Hc. destruct Hc as (Ha & Hn & Hc).
    cbn [length alloc_n]. unfold tbg_pool_alloc.
    apply Z.eqb_neq in Hn. rewrite Ha, Hn. cbn [negb].
    unfold pop_free. rewrite Ha, Hn.
    change {| free_list := m a; item_size := item_size pool;
              aligned_size := aligned_size pool;
              total_allocated := total_allocated pool;
              total_free := total_free pool - 1;
              max_items := max_items pool;
              slab_count := slab_count pool; slabs := slabs pool;
              slabs_capacity := slabs_capacity pool |}
      with (with_free pool (m a) (total_free pool - 1)).
    rewrite (IH (with_free pool (m a) (total_free pool - 1)) next Hc).
    unfold with_free. cbn [free_list item_size aligned_size total_allocated
      total_free max_items slab_count slabs slabs_capacity].
    replace (total_free pool - Z.of_nat (S (length items)))
      with (total_free pool - 1 - Z.of_nat (length items)) by lia.
    reflexivity.
Qed.

Lemma slab_items_length aligned slab n :
  forall i, length (slab_items aligned slab i n) = n.
Proof. induction n as [|n IH]; intros i; cbn; [|rewrite IH]; reflexivity. Qed.

(** X16: a pool initialised with [n] items hands out exactly the [n]
    items of its first slab, the last one of the slab first: [n]
    allocations in a row return the addresses [slab + i * aligned_size]
    in decreasing order, each once, without growing the pool or calling
    the C allocator; afterwards the free list is empty and [n] items are
    in use. *)
Theorem X16_allocs_walk_the_slab env env' m isz maxi (n : nat) :
  0 <= isz < 2 ^ 64 - 64 ->
  0 < Z.of_nat n <= (if maxi >? 0 then maxi else POOL_MAX_ITEMS) ->
  0 < env_slab env -> env_realloc_ok env = true ->
  let '(m0, pool0) := tbg_pool_init env m isz (Z.of_nat n) maxi in
  let '(items, m1, pool1) := alloc_n env' m0 pool0 n in
  items = rev (slab_items (aligned_size pool0) (env_slab env) 0 n) /\
  List.NoDup items /\
  m1 = m0 /\
  free_list pool1 = NULL /\
  tbg_pool_total_free pool1 = 0 /\
  tbg_pool_in_use pool1 = Z.of_nat n /\
  tbg_pool_total_allocated pool1 = Z.of_nat n.
Proof.
  intros Hs Hn Hslab Er. unfold tbg_pool_init.
  set (isz' := if isz <? SIZEOF_PTR then SIZEOF_PTR else isz).
  set (al := align_up isz' POOL_CACHE_LINE_SIZE).
  set (mx := if maxi >? 0 then maxi else POOL_MAX_ITEMS) in *.
  assert (Hal : 0 < al).
  { destruct (align_up_64 isz') as [_ A];
      subst isz'; unfold SIZEOF_PTR in *; destruct (isz <? 8) eqn:E; lia. }
  replace (Z.of_nat n >? 0) with true by (symmetry; apply Z.gtb_lt; lia).
  unfold pool_grow.
  cbn [total_allocated max_items slab_count slabs_capacity aligned_size
       free_list total_free item_size slabs].
  replace (0 + Z.of_nat n >? mx) with false
    by (symmetry; rewrite Z.gtb_ltb; apply Z.ltb_ge; lia).
  cbn [andb].
  replace (env_slab env =? NULL) with false
    by (symmetry; apply Z.eqb_neq; unfold NULL; lia).
  rewrite Er. change (0 >=? 0) with true. cbn [andb negb].
  rewrite Nat2Z.id.
  destruct (push_items_chain al (env_slab env) n 0 m NULL Hal Hslab ltac:(lia))
    as [Hc _].
  destruct (push_items al (env_slab env) 0 n m NULL) as [m0 head].
  cbn [fst snd] in Hc.
  match goal with
  | |- context [alloc_n env' m0 ?p n] => set (pool0 := p)
  end.
  assert (Hlen : length (rev (slab_items al (env_slab env) 0 n)) = n)
    by (rewrite length_rev; apply slab_items_length).
  pose proof (alloc_n_chain env' m0 (rev (slab_items al (env_slab env) 0 n))
                pool0 NULL Hc) as Ha.
  rewrite Hlen in Ha. rewrite Ha.
  split; [reflexivity|].
  split; [apply List.NoDup_rev, slab_items_NoDup; exact Hal|].
  split; [reflexivity|]. split; [reflexivity|].
  unfold tbg_pool_total_free, tbg_pool_in_use, tbg_pool_total_allocated.
  cbn. repeat split; lia.
Qed.

Lemma X16_allocs_walk_the_slab_witness :
  (0 <= 100 < 2 ^ 64 - 64 /\ 0 < Z.of_nat 3 <= POOL_MAX_ITEMS /\
   0 < env_slab scenario_env /\ env_realloc_ok scenario_env = true) /\
  fst (fst (alloc_n scenario_env
              (fst (tbg_pool_init scenario_env (fun _ => 0) 100 3 0))
              (snd (tbg_pool_init scenario_env (fun _ => 0) 100 3 0)) 3))
  = [4352; 4224; 4096].
Proof.
  assert (H1 : 0 <= 100 < 2 ^ 64 - 64) by lia.
  assert (H2 : 0 < Z.of_nat 3 <= POOL_MAX_ITEMS) by (vm_compute; split; congruence).
  assert (H3 : 0 < env_slab scenario_env) by reflexivity.
  assert (H4 : env_realloc_ok scenario_env = true) by reflexivity.
  split; [tauto|].
  pose proof (X16_allocs_walk_the_slab scenario_env scenario_env (fun _ => 0)
                100 0 3 H1 H2 H3 H4) as P.
  change (Z.of_nat 3) with 3 in P.
  destruct (tbg_pool_init scenario_env (fun _ => 0) 100 3 0) as [m0 pool0] eqn:E0.
  cbn [fst snd].
  destruct (alloc_n scenario_env m0 pool0 3) as [[items m1] pool1].
  cbn [fst]. destruct P as (-> & _).
  replace pool0 with (snd (tbg_pool_init scenario_env (fun _ => 0) 100 3 0))
    by (rewrite E0; reflexivity).
  reflexivity.
Defined.

End MemoryPoolExtra.

(** * Further properties of the rate limiter *)

Module RateLimitExtra.
Import CInt CLib RateLimit RateLimitFacts.
Local Open Scope Z_scope.

(** Less than a token's worth of time has passed: the refill does
    nothing. *)
Lemma bucket_refill_idle t b :
  0 <= refill_per_min b ->
  (t - last_refill b) * refill_per_min b < 60 ->
  bucket_refill t b = b.
Proof.
  intros Hr Hlt. unfold bucket_refill.
  destruct (t - last_refill b <=? 0) eqn:E; [reflexivity|].
  apply Z.leb_gt in E.
  rewrite Z.quot_small by nia. reflexivity.
Qed.

Lemma get_set_bucket_same f b s : get_bucket f (set_bucket f b s) = b.
Proof. destruct f; reflexivity. Qed.

Lemma get_set_bucket_other f f' b s :
  f' <> f -> get_bucket f' (set_bucket f b s) = get_bucket f' s.
Proof. destruct f, f'; intros H; try reflexivity; contradiction. Qed.

Lemma check_conn_seq_burst type f :
  select_bucket type = Some f ->
  forall ts s (k : nat),
    tokens (get_bucket f s) = Z.of_nat k ->
    0 <= refill_per_min (get_bucket f s) ->
    Forall (fun t => (t - last_refill (get_bucket f s)) *
                     refill_per_min (get_bucket f s) < 60) ts ->
    fst (check_conn_seq ts type s) =
      replicate (Nat.min (length ts) k) true ++
      replicate (length ts - k) false /\
    forall f', f' <> f ->
      get_bucket f' (snd (check_conn_seq ts type s)) = get_bucket f' s.
Proof.
  intros Hsel. induction ts as [|t ts IH]; intros s k Hk Hr Hts.
  - cbn. split; [reflexivity | intros; reflexivity].
  - inversion Hts as [|? ? Ht Hts']; subst.
    cbn [check_conn_seq]. unfold tbg_rate_limit_check_conn. rewrite Hsel.
    unfold bucket_consume. rewrite (bucket_refill_idle t _ Hr Ht).
    destruct k as [|k].
    + rewrite Hk. change (Z.of_nat 0 =? 0) with true. cbv iota beta.
      destruct (IH (set_bucket f (get_bucket f s) s) 0%nat) as [I1 I2];
        try (rewrite get_set_bucket_same; assumption).
      destruct (check_conn_seq ts type _) as [rs s2]. cbn [fst snd] in *.
      rewrite I1. rewrite Nat.min_0_r, !Nat.sub_0_r. cbn [replicate app length].
      split; [reflexivity|].
      intros f' Hf. rewrite (I2 f' Hf). apply get_set_bucket_other. exact Hf.
    + replace (tokens (get_bucket f s) =? 0) with false
        by (symmetry; apply Z.eqb_neq; lia).
      cbv iota beta.
      set (b' := {| tokens := tokens (get_bucket f s) - 1;
                    max_tokens := max_tokens (get_bucket f s);
                    refill_per_min := refill_per_min (get_bucket f s);
                    last_refill := last_refill (get_bucket f s) |}).
      destruct (IH (set_bucket f b' s) k) as [I1 I2];
        try (rewrite get_set_bucket_same; subst b'; cbn; try assumption; lia).
      destruct (check_conn_seq ts type _) as [rs s2]. cbn [fst snd] in *.
      rewrite I1. cbn [length Nat.min Nat.sub replicate app].
      split; [reflexivity|].
      intros f' Hf. rewrite (I2 f' Hf). apply get_set_bucket_other. exact Hf.
Qed.

(** X17: the burst budget of a connection.  After
    [tbg_rate_limit_conn_init], of the checks of one type made before a
    whole token has been earned back (less than 60 / limit seconds since
    the initialisation), exactly the first [limit] are allowed and all
    later ones refused; the buckets of the other types are not touched.
    A NULL state is refused, and a type without a bucket, such as
    [RATE_CONNECT], is always allowed and changes nothing. *)
Theorem X17_conn_burst_budget (cfg : rate_limit_config) (now : Z)
  (old : conn_rate_state) (type : Z) (f : bucket_field) (ts : list Z) :
  select_bucket type = Some f ->
  Forall (fun t => (t - now) * conn_limit cfg f < 60) ts ->
  exists s0,
    tbg_rate_limit_conn_init cfg now (Some old) = Some s0 /\
    fst (check_conn_seq ts type s0) =
      replicate (Nat.min (length ts) (Z.to_nat (conn_limit cfg f))) true ++
      replicate (length ts - Z.to_nat (conn_limit cfg f)) false /\
    (forall f', f' <> f ->
       get_bucket f' (snd (check_conn_seq ts type s0)) = get_bucket f' s0) /\
    (forall t ty, tbg_rate_limit_check_conn t None ty = (false, None)) /\
    (forall t ty, ty < RATE_SUBSCRIBE \/ RATE_INVALID_SHARE < ty ->
       tbg_rate_limit_check_conn t (Some s0) ty = (true, Some s0)).
Proof.
  intros Hsel Hts. eexists. split; [reflexivity|].
  match goal with |- context [check_conn_seq ts type ?s] => set (s0 := s) end.
  assert (Hb : get_bucket f s0 =
               bucket_init (conn_limit cfg f) (conn_limit cfg f) now)
    by (destruct f; reflexivity).
  assert (Hl : 0 <= conn_limit cfg f)
    by (destruct f; apply wrap32u_range).
  destruct (check_conn_seq_burst type f Hsel ts s0
              (Z.to_nat (conn_limit cfg f))) as [H1 H2].
  - rewrite Hb. cbn. lia.
  - rewrite Hb. exact Hl.
  - rewrite Hb. exact Hts.
  - split; [exact H1|]. split; [exact H2|]. split; [reflexivity|].
    intros t ty Hty. unfold tbg_rate_limit_check_conn, select_bucket,
      RATE_SUBSCRIBE, RATE_AUTHORIZE, RATE_SUBMIT, RATE_INVALID_SHARE in *.
    destruct (ty =? 1) eqn:E1; [lia|]. destruct (ty =? 2) eqn:E2; [lia|].
    destruct (ty =? 3) eqn:E3; [lia|]. destruct (ty =? 4) eqn:E4; [lia|].
    reflexivity.
Qed.

Lemma X17_conn_burst_budget_witness :
  (select_bucket RATE_SUBSCRIBE = Some SubscribeBucket /\
   Forall (fun t => (t - 100) * conn_limit default_config SubscribeBucket < 60)
          [100; 101; 105; 110; 119]) /\
  exists s0,
    tbg_rate_limit_conn_init default_config 100
      (Some {| subscribe_bucket := bucket_init 0 0 0;
               authorize_bucket := bucket_init 0 0 0;
               submit_bucket := bucket_init 0 0 0;
               invalid_bucket := bucket_init 0 0 0 |}) = Some s0 /\
    fst (check_conn_seq [100; 101; 105; 110; 119] RATE_SUBSCRIBE s0)
      = [true; true; true; false; false].
Proof.
  assert (H1 : select_bucket RATE_SUBSCRIBE = Some SubscribeBucket)
    by reflexivity.
  assert (H2 : Forall (fun t => (t - 100) *
                         conn_limit default_config SubscribeBucket < 60)
                      [100; 101; 105; 110; 119])
    by (repeat constructor).
  split; [tauto|].
  destruct (X17_conn_burst_budget default_config 100
              {| subscribe_bucket := bucket_init 0 0 0;
                 authorize_bucket := bucket_init 0 0 0;
                 submit_bucket := bucket_init 0 0 0;
                 invalid_bucket := bucket_init 0 0 0 |}
              RATE_SUBSCRIBE SubscribeBucket [100; 101; 105; 110; 119] H1 H2)
    as (s0 & E0 & E1 & _).
  exists s0. split; [exact E0 | exact E1].
Defined.

Lemma softban_entry_at now ipstr st :
  ip_text ipstr ->
  exists i e,
    entry_at (tbg_rate_limit_softban true now (Some ipstr) st) ipstr i e /\
    softban_until e = now + softban_duration_seconds (g_config st) /\
    g_config (tbg_rate_limit_softban true now (Some ipstr) st) = g_config st /\
    g_total_connections (tbg_rate_limit_softban true now (Some ipstr) st)
      = g_total_connections st.
Proof.
  intros Hip. unfold tbg_rate_limit_softban.
  destruct (get_or_create_spec (g_config st) now (ip_table st) ipstr Hip)
    as (i & e & table1 & Eg & Hf & Hl & _).
  rewrite Eg.
  exists i, (set_softban_until (now + softban_duration_seconds (g_config st)) e).
  split; [|split; [reflexivity | split; reflexivity]].
  eapply entry_at_insert; [exact Hf | exact Hl | | reflexivity]. reflexivity.
Qed.

Lemma is_banned_entry_at t ipstr st i e :
  entry_at st ipstr i e ->
  tbg_rate_limit_is_banned t (Some ipstr) st = banned t e.
Proof.
  intros [Hf Hl]. unfold tbg_rate_limit_is_banned. rewrite Hf, Hl. reflexivity.
Qed.

(** X18: a soft-ban holds until it expires.  After
    [tbg_rate_limit_softban] at time [now], the address is reported as
    banned at exactly the times before [now + softban_duration_seconds];
    at such a time [tbg_rate_limit_connect] refuses it, counts nothing,
    and leaves the ban in place. *)
Theorem X18_softban_blocks_until_expiry (ok : bool) (now t : Z)
  (ipstr : string) (st : limiter) :
  ip_text ipstr ->
  0 < now + softban_duration_seconds (g_config st) ->
  let st1 := tbg_rate_limit_softban true now (Some ipstr) st in
  let until := now + softban_duration_seconds (g_config st) in
  tbg_rate_limit_is_banned t (Some ipstr) st1 = (t <? until) /\
  (t < until ->
   fst (tbg_rate_limit_connect ok t (Some ipstr) st1) = false /\
   tbg_rate_limit_is_banned t (Some ipstr)
     (snd (tbg_rate_limit_connect ok t (Some ipstr) st1)) = true /\
   tbg_rate_limit_global_connections
     (snd (tbg_rate_limit_connect ok t (Some ipstr) st1))
     = tbg_rate_limit_global_connections st).
Proof.
  intros Hip Hpos st1 until.
  destruct (softban_entry_at now ipstr st Hip) as (i & e & Hat & Hu & Hc & Hg).
  fold st1 in Hat, Hc, Hg. fold until in Hu.
  assert (Hb : forall e', softban_until e' = until ->
                          banned t e' = (t <? until)).
  { intros e' E. unfold banned. rewrite E.
    replace (until >? 0) with true by (symmetry; apply Z.gtb_lt; exact Hpos).
    reflexivity. }
  split; [rewrite (is_banned_entry_at t ipstr st1 i e Hat); apply Hb, Hu|].
  intros Hlt. unfold tbg_rate_limit_global_connections.
  destruct (Z_lt_le_dec (g_total_connections st1)
              (global_max_connections (g_config st1))) as [Hcap|Hcap].
  - destruct (get_or_create_existing ok (g_config st1) t st1 ipstr i e Hat)
      as (Eg & Hf' & Hl').
    destruct (connect_after_lookup ok t ipstr st1 i _ _ Hcap Eg Hf' Hl')
      as (e' & Hat' & _ & Hs' & Hres).
    assert (Hbe : banned t (set_last_seen t e) = true).
    { rewrite (Hb (set_last_seen t e) Hu). apply Z.ltb_lt. exact Hlt. }
    rewrite Hbe in Hres. cbn [negb andb] in Hres.
    destruct Hres as (R1 & _ & R3).
    split; [exact R1|]. split; [|rewrite R3; exact Hg].
    rewrite (is_banned_entry_at t ipstr _ i e' Hat').
    unfold tbg_rate_limit_connect in Hat' |- *.
    revert Hat'.
    replace (g_total_connections st1 >=? global_max_connections (g_config st1))
      with false by (symmetry; rewrite Z.geb_leb; apply Z.leb_gt; lia).
    rewrite Eg. fold (banned t (set_last_seen t e)). rewrite Hbe.
    cbn [snd]. intros [Hf2 Hl2]. cbn [ip_table with_table] in Hl2.
    rewrite Hl' in Hl2. injection Hl2 as <-. exact Hbe.
  - rewrite (connect_global_cap ok t ipstr st1 Hcap). cbn [fst snd].
    split; [reflexivity|]. split; [|exact Hg].
    rewrite (is_banned_entry_at t ipstr st1 i e Hat), (Hb e Hu).
    apply Z.ltb_lt. exact Hlt.
Qed.

Lemma X18_softban_blocks_until_expiry_witness :
  (ip_text "10.0.0.1" /\
   0 < 1000 + softban_duration_seconds (g_config reaper_example)) /\
  tbg_rate_limit_is_banned 1299 (Some "10.0.0.1"%string)
    (tbg_rate_limit_softban true 1000 (Some "10.0.0.1"%string) reaper_example)
  = (1299 <? 1000 + softban_duration_seconds (g_config reaper_example)).
Proof.
  assert (H1 : ip_text "10.0.0.1") by (split; [reflexivity | vm_compute; lia]).
  assert (H2 : 0 < 1000 + softban_duration_seconds (g_config reaper_example))
    by reflexivity.
  split; [tauto|].
  exact (proj1 (X18_softban_blocks_until_expiry true 1000 1299 "10.0.0.1"
                  reaper_example H1 H2)).
Defined.

Lemma open_sum_insert (table : list ip_rate_entry) :
  forall i e e',
    table !! i = Some e ->
    fold_right (fun e acc => active_connections e + acc) 0 (<[i := e']> table)
    = fold_right (fun e acc => active_connections e + acc) 0 table
      - active_connections e + active_connections e'.
Proof.
  induction table as [|d rest IH]; intros [|i] e e' H; try discriminate H.
  - injection H as ->. cbn. lia.
  - change (<[S i := e']> (d :: rest)) with (d :: <[i := e']> rest).
    cbn [fold_right]. rewrite (IH i e e' H). lia.
Qed.

Lemma open_sum_app (table : list ip_rate_entry) e :
  fold_right (fun e acc => active_connections e + acc) 0 (table ++ [e])
  = fold_right (fun e acc => active_connections e + acc) 0 table
    + active_connections e.
Proof. induction table as [|d rest IH]; cbn; [lia | rewrite IH; lia]. Qed.

Lemma get_or_create_open_sum ok cfg now table ipstr i e table1 :
  get_or_create_ip_entry ok cfg now table ipstr = Some (i, e, table1) ->
  fold_right (fun e acc => active_connections e + acc) 0 table1
  = fold_right (fun e acc => active_connections e + acc) 0 table.
Proof.
  unfold get_or_create_ip_entry.
  destruct (find_ip_entry table ipstr) as [j|].
  - destruct (table !! j) as [e0|] eqn:El; [|discriminate].
    intros [= <- <- <-]. rewrite (open_sum_insert table j e0 _ El). cbn. lia.
  - destruct ok; [|discriminate]. intros [= <- <- <-].
    rewrite open_sum_app. cbn. lia.
Qed.

(** X19: admission is counted exactly.  On a limiter whose counters
    are in range, a call of [tbg_rate_limit_connect] that returns true
    was made below the global limit and adds one to the global counter
    and one to the per-IP counters; a call that returns false changes
    neither, whatever the reason of the refusal; the counters stay in
    range either way. *)
Theorem X19_admission_counted_exactly (ok : bool) (now : Z)
  (ip0 : option string) (st : limiter) :
  counters_wf st ->
  let '(r, st') := tbg_rate_limit_connect ok now ip0 st in
  counters_wf st' /\
  if r
  then g_total_connections st < global_max_connections (g_config st) /\
       g_total_connections st' = g_total_connections st + 1 /\
       open_connections st' = open_connections st + 1
  else g_total_connections st' = g_total_connections st /\
       open_connections st' = open_connections st.
Proof.
  intros (Ht & Hm & Hgm & HF).
  assert (Hsame : counters_wf st /\
                  g_total_connections st = g_total_connections st /\
                  open_connections st = open_connections st)
    by (unfold counters_wf; auto).
  pose proof (connect_active ok now ip0 st Hm HF) as [HF' Hcfg].
  revert HF' Hcfg.
  unfold tbg_rate_limit_connect.
  destruct ip0 as [ipstr|]; [|intros; exact Hsame].
  destruct (g_total_connections st >=? global_max_connections (g_config st))
    eqn:Ecap; [intros; exact Hsame|].
  rewrite Z.geb_leb in Ecap. apply Z.leb_gt in Ecap.
  destruct (get_or_create_ip_entry _ _ _ _ _) as [[[i e] table1]|] eqn:Eg;
    [|intros; exact Hsame].
  pose proof (get_or_create_open_sum _ _ _ _ _ _ _ _ Eg) as Hsum.
  destruct (get_or_create_active _ _ _ _ _ _ _ _ HF Eg) as [HF1 Hl1].
  pose proof (Forall_lookup_1 _ _ _ _ HF1 Hl1) as He. cbn beta in He.
  unfold counters_wf, open_connections.
  destruct (_ && _).
  { cbn. intros HF' _. rewrite Hsum. auto. }
  match goal with
  | |- context [active_connections ?x >=? _] => set (e1 := x)
  end.
  assert (He1 : active_connections e1 = active_connections e)
    by (subst e1; destruct (_ && _); reflexivity).
  destruct (active_connections e1 >=? _) eqn:Ea.
  { cbn. intros HF' _. rewrite (open_sum_insert table1 i e e1 Hl1), Hsum.
    split; [auto|]. split; [reflexivity | lia]. }
  rewrite Z.geb_leb in Ea. apply Z.leb_gt in Ea.
  destruct (bucket_consume now (connect_bucket e1)) as [okb b].
  destruct okb; cbn; intros HF' _.
  - rewrite (open_sum_insert table1 i e _ Hl1), Hsum. cbn.
    rewrite !wrap32s_small
      by (unfold int_range, INT_MIN, INT_MAX in *; lia).
    rewrite wrap32s_small in HF'
      by (unfold int_range, INT_MIN, INT_MAX in *; lia).
    split; [split; [|repeat split; assumption]|].
    + unfold int_range, INT_MIN, INT_MAX in *. lia.
    + split; [exact Ecap|]. split; [reflexivity | lia].
  - rewrite (open_sum_insert table1 i e _ Hl1), Hsum. cbn.
    split; [auto|]. split; [reflexivity | lia].
Qed.

Lemma X19_admission_counted_exactly_witness :
  counters_wf reaper_example /\
  g_total_connections
    (snd (tbg_rate_limit_connect true 5 (Some "10.0.0.2"%string)
            reaper_example)) = 2.
Proof.
  assert (H : counters_wf reaper_example).
  { unfold counters_wf. split; [vm_compute; split; discriminate|].
    split; [vm_compute; discriminate|]. split; [vm_compute; discriminate|].
    repeat constructor; vm_compute; discriminate. }
  split; [exact H|].
  pose proof (X19_admission_counted_exactly true 5 (Some "10.0.0.2"%string)
                reaper_example H) as P.
  destruct (tbg_rate_limit_connect true 5 (Some "10.0.0.2"%string)
              reaper_example) as [r st'] eqn:E.
  assert (Hr : r = true)
    by (change r with (fst (r, st')); rewrite <- E; reflexivity).
  subst r. destruct P as (_ & _ & P2 & _). exact P2.
Defined.

End RateLimitExtra.

(** * Further properties of the event ring: the drainer *)

Module EventRingExtra.
Import CInt EventRing EventRingFacts.
Local Open Scope Z_scope.

Lemma wrap64u_add_l a b : wrap64u (wrap64u a + b) = wrap64u (a + b).
Proof. unfold wrap64u. apply Zplus_mod_idemp_l. Qed.

Lemma wrap64u_add_r a b : wrap64u (a + wrap64u b) = wrap64u (a + b).
Proof. unfold wrap64u. apply Zplus_mod_idemp_r. Qed.

Lemma land_mask_wrap x :
  Z.to_nat (Z.land (wrap64u x) EVENT_RING_MASK) = slot_of x.
Proof.
  unfold slot_of, wrap64u. change EVENT_RING_MASK with (Z.ones 12).
  rewrite Z.land_ones by lia. change EVENT_RING_SIZE with (2 ^ 12).
  rewrite Z.mod_mod_divide; [reflexivity|].
  exists (2 ^ 52). reflexivity.
Qed.

Lemma batch_index_slot_of r c : batch_index (wrap64u r) c = slot_of (r + c).
Proof. unfold batch_index. rewrite wrap64u_add_l. apply land_mask_wrap. Qed.

Lemma slot_of_lt p : (slot_of p < Z.to_nat EVENT_RING_SIZE)%nat.
Proof.
  unfold slot_of. change EVENT_RING_SIZE with 4096.
  pose proof (Z.mod_pos_bound p 4096 ltac:(lia)). lia.
Qed.

Lemma slot_of_inj r i j :
  0 <= i < 4096 -> 0 <= j < 4096 ->
  slot_of (r + i) = slot_of (r + j) -> i = j.
Proof.
  unfold slot_of. change EVENT_RING_SIZE with 4096. intros Hi Hj H.
  pose proof (Z.mod_pos_bound (r + i) 4096 ltac:(lia)).
  pose proof (Z.mod_pos_bound (r + j) 4096 ltac:(lia)).
  pose proof (Z.div_mod (r + i) 4096 ltac:(lia)).
  pose proof (Z.div_mod (r + j) 4096 ltac:(lia)).
  assert (E : (r + i) mod 4096 = (r + j) mod 4096) by lia.
  lia.
Qed.

Lemma slot_of_period r : slot_of (r + 4096) = slot_of r.
Proof.
  unfold slot_of. change EVENT_RING_SIZE with 4096.
  replace (r + 4096) with (r + 1 * 4096) by lia.
  rewrite Z.mod_add by lia. reflexivity.
Qed.

(** The collecting loop counts the queued events, up to the batch
    size. *)
Lemma collect_ready_window ring q r :
  ring_window ring q r ->
  forall fuel c,
    0 <= c <= Z.of_nat (length q) -> c + Z.of_nat fuel <= EVENT_BATCH_MAX ->
    collect_ready (slots ring) (read_pos ring) c fuel
    = Z.min (Z.of_nat (length q)) (c + Z.of_nat fuel).
Proof.
  intros (Hr & Hrp & Hlen & Hq & Hw). rewrite Hrp.
  induction fuel as [|fuel IH]; intros c Hc Hf.
  - cbn [collect_ready]. lia.
  - cbn [collect_ready]. unfold EVENT_BATCH_MAX in *.
    replace (c <? 64) with true by (symmetry; apply Z.ltb_lt; lia).
    rewrite batch_index_slot_of.
    destruct (Hw (Z.to_nat c)) as (s & Hs & Hst);
      [change EVENT_RING_SIZE with 4096; lia|].
    rewrite Z2Nat.id in Hs by lia. rewrite Hs.
    destruct (q !! Z.to_nat c) as [ev|] eqn:Eq.
    + destruct Hst as [Hst _]. rewrite Hst, Z.eqb_refl. cbn [negb].
      apply lookup_lt_Some in Eq.
      rewrite IH by lia. lia.
    + rewrite Hst. change (SLOT_EMPTY =? SLOT_READY) with false. cbn [negb].
      apply lookup_ge_None in Eq. lia.
Qed.

Lemma send_loop_window r n :
  forall sl i q,
    0 <= i ->
    slots_window sl q (r + i) -> (n <= length q)%nat ->
    fst (send_loop sl (wrap64u r) i n) = take n q /\
    slots_window (snd (send_loop sl (wrap64u r) i n)) (drop n q)
                 (r + i + Z.of_nat n).
Proof.
  induction n as [|n IH]; intros sl i q Hi Hw Hn.
  - cbn [send_loop fst snd take drop Z.of_nat]. rewrite Z.add_0_r. auto.
  - destruct q as [|ev q]; [cbn in Hn; lia|]. cbn [length] in Hn.
    destruct Hw as (Hlen & Hq & Hw).
    cbn [send_loop]. rewrite batch_index_slot_of.
    destruct (Hw 0%nat) as (s & Hs & Hst);
      [change EVENT_RING_SIZE with 4096; lia|].
    cbn [Z.of_nat lookup] in Hs, Hst. rewrite Z.add_0_r in Hs.
    change ((ev :: q) !! 0%nat) with (Some ev) in Hst.
    destruct Hst as [Hst Hev]. rewrite Hs.
    assert (Hidx : (slot_of (r + i) < length sl)%nat)
      by (rewrite Hlen; apply slot_of_lt).
    set (sl1 := <[slot_of (r + i) := set_state SLOT_EMPTY s]> sl).
    assert (Hw1 : slots_window sl1 q (r + (i + 1))).
    { split; [subst sl1; rewrite length_insert; exact Hlen|].
      split; [cbn [length] in Hq; lia|].
      intros j Hj. change EVENT_RING_SIZE with 4096 in *. cbn [length] in Hq.
      destruct (Nat.eq_dec j 4095%nat) as [-> | Hne].
      - exists (set_state SLOT_EMPTY s). split.
        + replace (r + (i + 1) + Z.of_nat 4095%nat) with (r + i + 4096)
            by lia.
          rewrite slot_of_period. subst sl1.
          apply list_lookup_insert_eq. exact Hidx.
        + rewrite (proj2 (lookup_ge_None q 4095%nat)) by lia. reflexivity.
      - destruct (Hw (S j)) as (s' & Hs' & Hst'); [lia|].
        exists s'. split.
        + replace (r + (i + 1) + Z.of_nat j) with (r + i + Z.of_nat (S j))
            by lia.
          subst sl1. rewrite list_lookup_insert_ne; [exact Hs'|].
          intros E. replace (r + i) with (r + i + 0) in E at 1 by lia.
          apply slot_of_inj in E; lia.
        + exact Hst'. }
    destruct (IH sl1 (i + 1) q ltac:(lia) Hw1 ltac:(lia)) as [I1 I2].
    destruct (send_loop sl1 (wrap64u r) (i + 1) n) as [out sl'].
    cbn [fst snd] in *. split.
    + cbn [take]. rewrite Hev, I1. reflexivity.
    + cbn [drop].
      replace (r + i + Z.of_nat (S n)) with (r + (i + 1) + Z.of_nat n) by lia.
      exact I2.
Qed.

(** One round of the drainer hands over the oldest events, at most 64
    of them, in order, and frees their slots. *)
Lemma flush_batch_window ring q r :
  ring_window ring q r ->
  fst (flush_batch ring) = take 64 q /\
  ring_window (snd (flush_batch ring)) (drop 64 q)
              (r + Z.of_nat (Nat.min (length q) 64)) /\
  write_pos (snd (flush_batch ring)) = write_pos ring /\
  events_queued (snd (flush_batch ring)) = events_queued ring /\
  events_dropped (snd (flush_batch ring)) = events_dropped ring.
Proof.
  intros Hw. pose proof Hw as (Hr & Hrp & Hsw).
  unfold flush_batch.
  rewrite (collect_ready_window ring q r Hw (Z.to_nat EVENT_BATCH_MAX) 0)
    by (unfold EVENT_BATCH_MAX; lia).
  change (0 + Z.of_nat (Z.to_nat EVENT_BATCH_MAX)) with 64.
  destruct (Z.min (Z.of_nat (length q)) 64 =? 0) eqn:E0.
  - apply Z.eqb_eq in E0. assert (Hq : q = [])
      by (destruct q; [reflexivity | cbn [length] in E0; lia]).
    subst q. cbn [fst snd take drop length Nat.min Z.of_nat].
    rewrite Z.add_0_r. auto.
  - apply Z.eqb_neq in E0. rewrite Hrp.
    replace (Z.to_nat (Z.min (Z.of_nat (length q)) 64))
      with (Nat.min (length q) 64) by lia.
    destruct (send_loop_window r (Nat.min (length q) 64) (slots ring) 0 q
                ltac:(lia)) as [S1 S2];
      [rewrite Z.add_0_r; exact Hsw | lia |].
    destruct (send_loop (slots ring) (wrap64u r) 0 (Nat.min (length q) 64))
      as [out sl]. cbn [fst snd slots write_pos read_pos events_queued
                        events_dropped] in *.
    rewrite Z.add_0_r in S2.
    assert (Ht : take (Nat.min (length q) 64) q = take 64 q).
    { destruct (Nat.le_gt_cases 64 (length q)) as [H|H].
      - rewrite Nat.min_r by lia. reflexivity.
      - rewrite Nat.min_l by lia. rewrite !take_ge by lia. reflexivity. }
    assert (Hd : drop (Nat.min (length q) 64) q = drop 64 q).
    { destruct (Nat.le_gt_cases 64 (length q)) as [H|H].
      - rewrite Nat.min_r by lia. reflexivity.
      - rewrite Nat.min_l by lia. rewrite !drop_ge by lia. reflexivity. }
    rewrite Ht in S1. rewrite Hd in S2.
    split; [exact S1|]. split; [|auto].
    split; [lia|]. split; [|exact S2].
    cbn [read_pos]. rewrite wrap64u_add_l. f_equal. lia.
Qed.

(** Enough rounds of the drainer hand over everything that is queued. *)
Lemma flush_n_window k :
  forall ring q r,
    ring_window ring q r -> (length q <= 64 * k)%nat ->
    fst (flush_n k ring) = q /\
    ring_window (snd (flush_n k ring)) [] (r + Z.of_nat (length q)) /\
    write_pos (snd (flush_n k ring)) = write_pos ring /\
    events_queued (snd (flush_n k ring)) = events_queued ring /\
    events_dropped (snd (flush_n k ring)) = events_dropped ring.
Proof.
  induction k as [|k IH]; intros ring q r Hw Hk.
  - destruct q; [|cbn in Hk; lia]. cbn. rewrite Z.add_0_r. auto.
  - cbn [flush_n].
    destruct (flush_batch_window ring q r Hw) as (F1 & F2 & F3 & F4 & F5).
    destruct (flush_batch ring) as [o ring1]. cbn [fst snd] in *.
    destruct (IH ring1 (drop 64 q) _ F2) as (I1 & I2 & I3 & I4 & I5);
      [rewrite length_drop; lia|].
    destruct (flush_n k ring1) as [os ring2]. cbn [fst snd] in *.
    rewrite F1, I1, take_drop.
    split; [reflexivity|]. split; [|repeat split; congruence].
    rewrite length_drop in I2.
    replace (r + Z.of_nat (length q))
      with (r + Z.of_nat (Nat.min (length q) 64) + Z.of_nat (length q - 64))
      by lia.
    exact I2.
Qed.

Lemma take_copy_event dst src n :
  (n <= length src)%nat -> take n (copy_event dst src n) = take n src.
Proof.
  intros H. unfold copy_event.
  rewrite take_insert_ge by lia.
  rewrite take_app_length' by (rewrite length_take; lia). reflexivity.
Qed.

(** A push on a ring that holds [q] with its write position right
    behind: accepted and queued last while there is room, refused and
    counted as dropped, the write position moving on all the same, when
    all 4096 slots are taken. *)
Lemma push_window ring q r bytes n :
  ring_window ring q r ->
  write_pos ring = wrap64u (r + Z.of_nat (length q)) ->
  push_fits (Some bytes, n) ->
  let res := tbg_event_ring_push ring (Some bytes) n in
  write_pos (snd res) = wrap64u (r + Z.of_nat (length q) + 1) /\
  read_pos (snd res) = read_pos ring /\
  if (length q <? 4096)%nat
  then fst res = true /\
       ring_window (snd res) (q ++ [payload (Some bytes, n)]) r /\
       events_dropped (snd res) = events_dropped ring /\
       events_queued (snd res) = wrap64u (events_queued ring + 1)
  else fst res = false /\ slots (snd res) = slots ring /\
       events_dropped (snd res) = wrap64u (events_dropped ring + 1) /\
       events_queued (snd res) = events_queued ring.
Proof.
  intros (Hr & Hrp & Hlen & Hq & Hw) Hwp Hfit res. subst res.
  unfold push_fits in Hfit. cbn [fst snd] in Hfit.
  change EVENT_RING_SIZE with 4096 in *.
  unfold tbg_event_ring_push.
  replace (n =? 0) with false by (symmetry; apply Z.eqb_neq; lia).
  rewrite Hwp, land_mask_wrap, wrap64u_add_l.
  set (n' := if n >=? EVENT_MAX_SIZE then EVENT_MAX_SIZE - 1 else n).
  assert (Hn' : 0 < n' <= Z.of_nat (length bytes)).
  { subst n'. unfold EVENT_MAX_SIZE. destruct (n >=? 4096) eqn:E; lia. }
  destruct (Nat.ltb_spec (length q) 4096) as [Hroom|Hfull].
  - destruct (Hw (length q) Hroom) as (s & Hs & Hst).
    rewrite (proj2 (lookup_ge_None q (length q))) in Hst by lia.
    rewrite Hs, Hst. change (SLOT_EMPTY =? SLOT_EMPTY) with true.
    cbn [negb fst snd write_pos read_pos events_dropped events_queued slots].
    split; [reflexivity|]. split; [reflexivity|]. split; [reflexivity|].
    split; [|auto].
    split; [exact Hr|]. split; [exact Hrp|]. cbn [slots].
    unfold slots_window. change EVENT_RING_SIZE with 4096.
    split; [rewrite length_insert; exact Hlen|].
    split; [rewrite length_app; cbn; lia|].
    intros j Hj. destruct (Nat.eq_dec j (length q)) as [-> | Hne].
    + eexists. split.
      * apply list_lookup_insert_eq. rewrite Hlen. apply slot_of_lt.
      * rewrite lookup_app_r by lia. rewrite Nat.sub_diag.
        cbn [lookup state len data]. split; [reflexivity|].
        unfold payload. cbn [fst snd]. fold n'.
        apply take_copy_event. lia.
    + destruct (Hw j Hj) as (s' & Hs' & Hst'). exists s'. split.
      * rewrite list_lookup_insert_ne; [exact Hs'|].
        intros E. apply slot_of_inj in E; lia.
      * destruct (Nat.lt_ge_cases j (length q)) as [Hlt|Hge].
        -- rewrite lookup_app_l by lia. exact Hst'.
        -- rewrite (proj2 (lookup_ge_None q j)) in Hst' by lia.
           rewrite (proj2 (lookup_ge_None (q ++ [payload (Some bytes, n)]) j));
             [exact Hst'|]. rewrite length_app. cbn [length]. lia.
  - assert (Hq4 : length q = 4096%nat) by lia.
    destruct (Hw 0%nat ltac:(lia)) as (s & Hs & Hst).
    destruct q as [|ev q]; [cbn in Hq4; lia|].
    change ((ev :: q) !! 0%nat) with (Some ev) in Hst.
    destruct Hst as [Hst _].
    replace (r + Z.of_nat (length (ev :: q))) with (r + 4096) by lia.
    rewrite slot_of_period.
    cbn [Z.of_nat] in Hs. rewrite Z.add_0_r in Hs. rewrite Hs, Hst.
    change (SLOT_READY =? SLOT_EMPTY) with false.
    cbn [negb fst snd write_pos read_pos events_dropped events_queued slots].
    repeat split; reflexivity.
Qed.

Lemma init_window : ring_window tbg_event_ring_init [] 0.
Proof.
  split; [lia|]. split; [reflexivity|].
  split; [apply length_replicate|]. split; [cbn; lia|].
  intros j Hj. exists zero_slot. split; [|reflexivity].
  cbn [tbg_event_ring_init slots]. apply lookup_replicate_2.
  apply slot_of_lt.
Qed.

Lemma run_ring_fifo ops :
  forall ring q r,
    ring_window ring q r ->
    write_pos ring = wrap64u (r + Z.of_nat (length q)) ->
    Forall push_fits (pushes_of ops) ->
    Forall (fun a => a = true) (fst (fst (run_ring ops ring))) ->
    exists q' r',
      ring_window (snd (run_ring ops ring)) q' r' /\
      write_pos (snd (run_ring ops ring)) = wrap64u (r' + Z.of_nat (length q')) /\
      snd (fst (run_ring ops ring)) ++ q' = q ++ map payload (pushes_of ops) /\
      events_dropped (snd (run_ring ops ring)) = events_dropped ring.
Proof.
  induction ops as [|o ops IH]; intros ring q r Hw Hwp Hfit Hans.
  - exists q, r. cbn. rewrite app_nil_r. auto.
  - destruct o as [json n|].
    + cbn [pushes_of flat_map app] in Hfit. fold (pushes_of ops) in Hfit.
      inversion Hfit as [|? ? Hf1 Hfit']; subst.
      destruct json as [bytes|]; [|destruct Hf1].
      destruct (push_window ring q r bytes n Hw Hwp Hf1) as (P1 & P2 & P3).
      cbn [run_ring] in Hans |- *.
      destruct (tbg_event_ring_push ring (Some bytes) n) as [a ring1].
      cbn [fst snd] in P1, P2, P3.
      specialize (IH ring1).
      destruct (run_ring ops ring1) as [[rs out] ring2]. cbn [fst snd] in *.
      inversion Hans as [|? ? Ha Hrs]; subst.
      destruct (length q <? 4096)%nat; [|destruct P3 as [P3 _]; discriminate P3].
      destruct P3 as (_ & Q1 & Q2 & _).
      destruct (IH _ r Q1) as (q' & r' & I1 & I2 & I3 & I4); try assumption.
      { rewrite P1, length_app. cbn [length]. f_equal. lia. }
      exists q', r'. split; [exact I1|]. split; [exact I2|].
      split; [|congruence].
      rewrite I3. cbn [pushes_of flat_map map app].
      rewrite <- app_assoc. reflexivity.
    + cbn [pushes_of flat_map app] in Hfit. fold (pushes_of ops) in Hfit.
      destruct (flush_batch_window ring q r Hw) as (F1 & F2 & F3 & F4 & F5).
      cbn [run_ring] in Hans |- *.
      destruct (flush_batch ring) as [o ring1]. cbn [fst snd] in *.
      specialize (IH ring1).
      destruct (run_ring ops ring1) as [[rs out] ring2]. cbn [fst snd] in *.
      destruct (IH _ _ F2) as (q' & r' & I1 & I2 & I3 & I4); try assumption.
      { rewrite F3, Hwp, length_drop. f_equal. lia. }
      exists q', r'. split; [exact I1|]. split; [exact I2|].
      split; [|congruence].
      rewrite <- app_assoc, I3, F1, app_assoc, take_drop.
      reflexivity.
Qed.

(** X20: the ring is first in, first out and loses nothing as long as
    no push is refused.  Producers and the drainer taking turns in any
    order on a fresh ring: if every push returned true, the datagrams
    handed to [send] so far, followed by those of 64 further rounds of
    [flush_batch], are exactly the pushed events (each cut to at most
    4095 bytes) in the order of the pushes; nothing is counted as
    dropped. *)
Theorem X20_ring_first_in_first_out (ops : list ring_op) :
  Forall push_fits (pushes_of ops) ->
  Forall (fun a => a = true) (fst (fst (run_ring ops tbg_event_ring_init))) ->
  let '(_, out, ring) := run_ring ops tbg_event_ring_init in
  out ++ fst (flush_n 64 ring) = map payload (pushes_of ops) /\
  tbg_event_ring_dropped ring = 0.
Proof.
  intros Hfit Hans.
  destruct (run_ring_fifo ops tbg_event_ring_init [] 0 init_window
              eq_refl Hfit Hans) as (q' & r' & I1 & I2 & I3 & I4).
  destruct (run_ring ops tbg_event_ring_init) as [[rs out] ring].
  cbn [fst snd] in *.
  pose proof I1 as (_ & _ & _ & Hq & _).
  destruct (flush_n_window 64 ring q' r' I1) as (F1 & _);
    [change EVENT_RING_SIZE with 4096 in Hq; lia|].
  rewrite F1, I3. split; [reflexivity | exact I4].
Qed.

Lemma X20_ring_first_in_first_out_witness :
  (Forall push_fits (pushes_of ring_example) /\
   Forall (fun a => a = true)
          (fst (fst (run_ring ring_example tbg_event_ring_init)))) /\
  let '(_, out, ring) := run_ring ring_example tbg_event_ring_init in
  out ++ fst (flush_n 64 ring) = map payload (pushes_of ring_example) /\
  tbg_event_ring_dropped ring = 0.
Proof.
  assert (H1 : Forall push_fits (pushes_of ring_example))
    by (repeat constructor; cbn; lia).
  assert (H2 : Forall (fun a => a = true)
                 (fst (fst (run_ring ring_example tbg_event_ring_init))))
    by (vm_compute; repeat constructor).
  split; [tauto|].
  exact (X20_ring_first_in_first_out ring_example H1 H2).
Defined.

Lemma push_all_window l :
  forall ring q r,
    ring_window ring q r ->
    write_pos ring = wrap64u (r + Z.of_nat (length q)) ->
    Forall push_fits l -> (length q + length l <= 4096)%nat ->
    fst (push_all ring l) = replicate (length l) true /\
    ring_window (snd (push_all ring l)) (q ++ map payload l) r /\
    write_pos (snd (push_all ring l))
      = wrap64u (r + Z.of_nat (length q + length l)).
Proof.
  induction l as [|[json n] l IH]; intros ring q r Hw Hwp Hfit Hlen.
  - cbn. rewrite app_nil_r, Nat.add_0_r. auto.
  - inversion Hfit as [|? ? Hf1 Hfit']; subst. cbn [length] in Hlen.
    destruct json as [bytes|]; [|destruct Hf1].
    destruct (push_window ring q r bytes n Hw Hwp Hf1) as (P1 & P2 & P3).
    cbn [push_all].
    destruct (tbg_event_ring_push ring (Some bytes) n) as [a ring1].
    cbn [fst snd] in P1, P2, P3.
    replace (length q <? 4096)%nat with true in P3
      by (symmetry; apply Nat.ltb_lt; lia).
    destruct P3 as (-> & Q1 & _).
    destruct (IH ring1 _ r Q1) as (I1 & I2 & I3); try assumption.
    { rewrite P1, length_app. cbn [length]. f_equal. lia. }
    { rewrite length_app. cbn [length]. lia. }
    destruct (push_all ring1 l) as [rs ring2]. cbn [fst snd] in *.
    rewrite I1. split; [reflexivity|]. split.
    + cbn [map]. rewrite <- app_assoc in I2. exact I2.
    + rewrite I3, length_app. cbn [length]. f_equal. lia.
Qed.

Lemma flush_n_idle ring :
  flush_batch ring = ([], ring) -> forall k, flush_n k ring = ([], ring).
Proof.
  intros H. induction k as [|k IH]; [reflexivity|].
  cbn [flush_n]. rewrite H, IH. reflexivity.
Qed.

(** X21: one drop leaves the drainer stuck.  Fill a fresh ring with
    4096 events and push one more: it is refused, but the write
    position has moved past a slot.  The drainer then hands over the
    4096 events in order.  The next event is accepted by
    [tbg_event_ring_push], yet no round of [flush_batch] ever hands it
    over: it lies one slot ahead of the read position, whose slot stays
    empty, and the read and write positions stay different. *)
Theorem X21_drop_then_stall (evs : list (option (list byte) * Z))
  (extra last : list byte) (n_extra n_last : Z) :
  length evs = 4096%nat ->
  Forall push_fits evs ->
  push_fits (Some extra, n_extra) -> push_fits (Some last, n_last) ->
  let ring0 := snd (push_all tbg_event_ring_init evs) in
  let '(r1, ring1) := tbg_event_ring_push ring0 (Some extra) n_extra in
  let '(out, ring2) := flush_n 64 ring1 in
  let '(r3, ring3) := tbg_event_ring_push ring2 (Some last) n_last in
  r1 = false /\ out = map payload evs /\ r3 = true /\
  (forall k, flush_n k ring3 = ([], ring3)) /\
  read_pos ring3 = 4096 /\ write_pos ring3 = 4098.
Proof.
  intros Hlen Hfit Hfe Hfl ring0.
  destruct (push_all_window evs tbg_event_ring_init [] 0 init_window eq_refl
              Hfit ltac:(cbn [length]; lia)) as (_ & W0 & P0).
  fold ring0 in W0, P0. cbn [app length Nat.add] in W0, P0.
  assert (Hq : length (map payload evs) = 4096%nat)
    by (rewrite length_map; exact Hlen).
  rewrite Hlen in P0.
  destruct (push_window ring0 (map payload evs) 0 extra n_extra W0
              ltac:(rewrite Hq; exact P0) Hfe) as (P1 & P2 & P3).
  destruct (tbg_event_ring_push ring0 (Some extra) n_extra) as [r1 ring1].
  cbn [fst snd] in P1, P2, P3.
  replace (length (map payload evs) <? 4096)%nat with false in P3
    by (symmetry; apply Nat.ltb_ge; lia).
  destruct P3 as (-> & Hsl & _).
  assert (W1 : ring_window ring1 (map payload evs) 0).
  { destruct W0 as (A & B & C). split; [exact A|].
    split; [rewrite P2; exact B|]. rewrite Hsl. exact C. }
  destruct (flush_n_window 64 ring1 _ 0 W1 ltac:(lia)) as (F1 & F2 & F3 & _).
  destruct (flush_n 64 ring1) as [out ring2]. cbn [fst snd] in F1, F2, F3.
  rewrite Hq in F2, P1. rewrite P1 in F3.
  change (0 + Z.of_nat 4096) with 4096 in F2, F3.
  change (wrap64u (4096 + 1)) with 4097 in F3.
  destruct F2 as (_ & Hrp & Hl2 & _ & Hw2).
  change (wrap64u 4096) with 4096 in Hrp.
  destruct (Hw2 1%nat) as (s1 & Hs1 & Hst1);
    [change EVENT_RING_SIZE with 4096; lia|].
  destruct (Hw2 0%nat) as (s0 & Hs0 & Hst0);
    [change EVENT_RING_SIZE with 4096; lia|].
  cbn [lookup] in Hst0, Hst1.
  change (slot_of (4096 + Z.of_nat 1)) with 1%nat in Hs1.
  change (slot_of (4096 + Z.of_nat 0)) with 0%nat in Hs0.
  unfold push_fits in Hfl. cbn [fst snd] in Hfl.
  unfold tbg_event_ring_push.
  replace (n_last =? 0) with false by (symmetry; apply Z.eqb_neq; lia).
  rewrite F3. change (Z.to_nat (Z.land 4097 EVENT_RING_MASK)) with 1%nat.
  rewrite Hs1, Hst1. change (SLOT_EMPTY =? SLOT_EMPTY) with true.
  cbn [negb].
  split; [reflexivity|]. split; [exact F1|]. split; [reflexivity|].
  split; [|split; [exact Hrp | reflexivity]].
  apply flush_n_idle. unfold flush_batch.
  cbn [slots read_pos]. rewrite Hrp.
  change (Z.to_nat EVENT_BATCH_MAX) with 64%nat.
  cbn [collect_ready]. change (0 <? EVENT_BATCH_MAX) with true.
  change (batch_index 4096 0) with 0%nat.
  rewrite list_lookup_insert_ne by lia.
  rewrite Hs0, Hst0. change (SLOT_EMPTY =? SLOT_READY) with false.
  reflexivity.
Qed.

Lemma X21_drop_then_stall_witness :
  (length filling_pushes = 4096%nat /\ Forall push_fits filling_pushes /\
   push_fits (Some [Byte.x62], 1) /\ push_fits (Some [Byte.x63], 1)) /\
  fst (tbg_event_ring_push (snd (push_all tbg_event_ring_init filling_pushes))
         (Some [Byte.x62]) 1) = false.
Proof.
  assert (H1 : length filling_pushes = 4096%nat) by apply length_replicate.
  assert (H2 : Forall push_fits filling_pushes)
    by (apply Forall_replicate; cbn; lia).
  assert (H3 : push_fits (Some [Byte.x62], 1)) by (cbn; lia).
  assert (H4 : push_fits (Some [Byte.x63], 1)) by (cbn; lia).
  split; [tauto|].
  pose proof (X21_drop_then_stall filling_pushes [Byte.x62] [Byte.x63] 1 1
                H1 H2 H3 H4) as P.
  cbv zeta in P.
  destruct (tbg_event_ring_push _ (Some [Byte.x62]) 1) as [r1 ring1].
  destruct (flush_n 64 ring1) as [out ring2].
  destruct (tbg_event_ring_push ring2 (Some [Byte.x63]) 1) as [r3 ring3].
  exact (proj1 P).
Defined.

Lemma collect_ready_ge sl rp fuel :
  forall c, c <= collect_ready sl rp c fuel.
Proof.
  induction fuel as [|fuel IH]; intros c; cbn [collect_ready]; [lia|].
  destruct (c <? EVENT_BATCH_MAX); [|lia].
  destruct (sl !! batch_index rp c) as [slot|]; [|lia].
  destruct (negb (state slot =? SLOT_READY)); [lia|].
  specialize (IH (c + 1)). lia.
Qed.

Lemma send_loop_length rp n :
  forall sl i,
    length sl = Z.to_nat EVENT_RING_SIZE ->
    length (fst (send_loop sl rp i n)) = n /\
    length (snd (send_loop sl rp i n)) = Z.to_nat EVENT_RING_SIZE.
Proof.
  induction n as [|n IH]; intros sl i Hlen; [cbn; auto|].
  cbn [send_loop].
  assert (Hidx : (batch_index rp i < length sl)%nat)
    by (rewrite Hlen; apply slot_index_range).
  destruct (lookup_lt_is_Some_2 _ _ Hidx) as [slot Hslot]. rewrite Hslot.
  destruct (IH (<[batch_index rp i := set_state SLOT_EMPTY slot]> sl) (i + 1))
    as [I1 I2]; [rewrite length_insert; exact Hlen|].
  destruct (send_loop _ rp (i + 1) n) as [out sl']. cbn [fst snd length] in *.
  split; [rewrite I1; reflexivity | exact I2].
Qed.

Lemma flush_batch_counts ring t :
  length (slots ring) = Z.to_nat EVENT_RING_SIZE ->
  events_sent ring = wrap64u t -> read_pos ring = wrap64u t ->
  let res := flush_batch ring in
  length (slots (snd res)) = Z.to_nat EVENT_RING_SIZE /\
  events_sent (snd res) = wrap64u (t + Z.of_nat (length (fst res))) /\
  read_pos (snd res) = wrap64u (t + Z.of_nat (length (fst res))) /\
  write_pos (snd res) = write_pos ring /\
  events_queued (snd res) = events_queued ring /\
  events_dropped (snd res) = events_dropped ring.
Proof.
  intros Hlen Hs Hr res. subst res. unfold flush_batch.
  pose proof (collect_ready_ge (slots ring) (read_pos ring)
                (Z.to_nat EVENT_BATCH_MAX) 0) as Hge.
  set (count := collect_ready _ _ _ _) in *.
  destruct (count =? 0) eqn:E0.
  - cbn [fst snd length Z.of_nat]. rewrite Z.add_0_r. auto 10.
  - destruct (send_loop_length (read_pos ring) (Z.to_nat count) (slots ring) 0
                Hlen) as [L1 L2].
    destruct (send_loop _ _ _ _) as [out sl]. cbn [fst snd] in *.
    cbn [slots events_sent read_pos write_pos events_queued events_dropped].
    rewrite L1, Z2Nat.id, Hs, Hr, !wrap64u_add_l by lia. auto 10.
Qed.

Lemma push_counts ring json n :
  length (slots ring) = Z.to_nat EVENT_RING_SIZE ->
  let res := tbg_event_ring_push ring json n in
  let checked := match json with
                 | Some _ => negb (n =? 0)
                 | None => false
                 end in
  length (slots (snd res)) = Z.to_nat EVENT_RING_SIZE /\
  events_sent (snd res) = events_sent ring /\
  read_pos (snd res) = read_pos ring /\
  (if checked then write_pos (snd res) = wrap64u (write_pos ring + 1)
   else snd res = ring /\ fst res = false) /\
  (if fst res
   then checked = true /\
        events_queued (snd res) = wrap64u (events_queued ring + 1) /\
        events_dropped (snd res) = events_dropped ring
   else events_queued (snd res) = events_queued ring /\
        events_dropped (snd res)
          = if checked then wrap64u (events_dropped ring + 1)
            else events_dropped ring).
Proof.
  intros Hlen res checked. subst res checked. unfold tbg_event_ring_push.
  destruct json as [bytes|]; [|cbn; auto 10].
  destruct (n =? 0); [cbn; auto 10|]. cbn [negb].
  pose proof (slot_index_range (write_pos ring)) as Hidx.
  rewrite <- Hlen in Hidx.
  destruct (lookup_lt_is_Some_2 _ _ Hidx) as [slot Hslot]. rewrite Hslot.
  destruct (negb (state slot =? SLOT_EMPTY)); cbn; [auto 10|].
  rewrite length_insert. auto 10.
Qed.

Lemma checked_pushes_cons_push json n ops :
  checked_pushes (RingPush json n :: ops) =
  ((if match json with Some _ => negb (n =? 0)%Z | None => false end
    then 1 else 0) + checked_pushes ops)%nat.
Proof.
  unfold checked_pushes. cbn [pushes_of flat_map app List.filter fst snd].
  fold (pushes_of ops).
  destruct json as [b|]; [destruct (n =? 0)|]; reflexivity.
Qed.

Lemma run_ring_counts ops :
  forall ring a d w t,
    length (slots ring) = Z.to_nat EVENT_RING_SIZE ->
    events_queued ring = wrap64u a -> events_dropped ring = wrap64u d ->
    write_pos ring = wrap64u w ->
    events_sent ring = wrap64u t -> read_pos ring = wrap64u t ->
    let '(ans, out, ring') := run_ring ops ring in
    let acc := Z.of_nat (count_true ans) in
    let chk := Z.of_nat (checked_pushes ops) in
    events_queued ring' = wrap64u (a + acc) /\
    events_dropped ring' = wrap64u (d + (chk - acc)) /\
    write_pos ring' = wrap64u (w + chk) /\
    events_sent ring' = wrap64u (t + Z.of_nat (length out)) /\
    read_pos ring' = wrap64u (t + Z.of_nat (length out)) /\
    acc <= chk.
Proof.
  induction ops as [|o ops IH]; intros ring a d w t Hlen Hq Hd Hw Hs Hr.
  - cbn. rewrite !Z.add_0_r. repeat split; auto; lia.
  - destruct o as [json n|].
    + pose proof (push_counts ring json n Hlen) as P. cbv zeta in P.
      rewrite checked_pushes_cons_push.
      cbn [run_ring].
      destruct (tbg_event_ring_push ring json n) as [r ring1].
      cbn [fst snd] in P. destruct P as (P1 & P2 & P3 & P4 & P5).
      set (checked := match json with
                      | Some _ => negb (n =? 0)
                      | None => false
                      end) in *.
      assert (Hq1 : events_queued ring1
                    = wrap64u (a + if r then 1 else 0)).
      { destruct r; [destruct P5 as (_ & -> & _) | destruct P5 as (-> & _)];
          rewrite Hq, ?wrap64u_add_l, ?Z.add_0_r; reflexivity. }
      assert (Hd1 : events_dropped ring1
                    = wrap64u (d + if r then 0
                                   else if checked then 1 else 0)).
      { destruct r; [destruct P5 as (_ & _ & ->) | destruct P5 as (_ & ->)];
          [|destruct checked];
          rewrite Hd, ?wrap64u_add_l, ?Z.add_0_r; reflexivity. }
      assert (Hw1 : write_pos ring1 = wrap64u (w + if checked then 1 else 0)).
      { destruct checked; [rewrite P4 | destruct P4 as [-> _]];
          rewrite Hw, ?wrap64u_add_l, ?Z.add_0_r; reflexivity. }
      assert (Hrc : r = true -> checked = true)
        by (intros ->; apply P5).
      specialize (IH ring1 _ _ _ t P1 Hq1 Hd1 Hw1
                    ltac:(rewrite P2; exact Hs) ltac:(rewrite P3; exact Hr)).
      destruct (run_ring ops ring1) as [[rs out] ring2].
      cbv zeta in IH |- *. destruct IH as (I1 & I2 & I3 & I4 & I5 & I6).
      assert (Hct : Z.of_nat (count_true (r :: rs))
                    = (if r then 1 else 0) + Z.of_nat (count_true rs)).
      { unfold count_true. cbn [List.filter]. destruct r; cbn [length]; lia. }
      rewrite Hct, Nat2Z.inj_add.
      rewrite I1, I2, I3, I4, I5.
      destruct r, checked; try (specialize (Hrc eq_refl); discriminate Hrc);
        cbn [Z.of_nat]; repeat split; try (f_equal; lia); lia.
    + pose proof (flush_batch_counts ring t Hlen Hs Hr) as P. cbv zeta in P.
      cbn [run_ring].
      destruct (flush_batch ring) as [o ring1].
      cbn [fst snd] in P. destruct P as (P1 & P2 & P3 & P4 & P5 & P6).
      specialize (IH ring1 a d w _ P1 ltac:(rewrite P5; exact Hq)
                    ltac:(rewrite P6; exact Hd) ltac:(rewrite P4; exact Hw)
                    P2 P3).
      destruct (run_ring ops ring1) as [[rs out] ring2].
      cbv zeta in IH |- *. destruct IH as (I1 & I2 & I3 & I4 & I5 & I6).
      change (checked_pushes (RingFlush :: ops)) with (checked_pushes ops).
      rewrite I1, I2, I3, I4, I5, length_app.
      repeat split; try (f_equal; lia); lia.
Qed.

(** X22: the statistics of the ring add up.  After any run of pushes
    and drainer rounds on a fresh ring, [events_queued] is the number of
    pushes that returned true, [events_dropped] the number of pushes that
    passed the argument check and were refused, [events_sent] the number
    of datagrams handed to [send], all modulo 2^64; the write position is
    the number of pushes that passed the argument check, and the read
    position equals [events_sent]. *)
Theorem X22_ring_statistics_add_up (ops : list ring_op) :
  let '(ans, out, ring) := run_ring ops tbg_event_ring_init in
  tbg_event_ring_queued ring = wrap64u (Z.of_nat (count_true ans)) /\
  tbg_event_ring_dropped ring
    = wrap64u (Z.of_nat (checked_pushes ops - count_true ans)) /\
  tbg_event_ring_sent ring = wrap64u (Z.of_nat (length out)) /\
  write_pos ring = wrap64u (Z.of_nat (checked_pushes ops)) /\
  read_pos ring = tbg_event_ring_sent ring /\
  (count_true ans <= checked_pushes ops)%nat.
Proof.
  pose proof (run_ring_counts ops tbg_event_ring_init 0 0 0 0
                (length_replicate _ _) eq_refl eq_refl eq_refl eq_refl eq_refl)
    as P.
  destruct (run_ring ops tbg_event_ring_init) as [[ans out] ring].
  cbv zeta in P. destruct P as (P1 & P2 & P3 & P4 & P5 & P6).
  unfold tbg_event_ring_queued, tbg_event_ring_dropped, tbg_event_ring_sent.
  rewrite P1, P2, P3, P4, P5, !Z.add_0_l.
  repeat split; try reflexivity; [f_equal|]; lia.
Qed.

End EventRingExtra.

(** * Further properties of the relay link *)

Module RelayExtra.
Import CInt Relay RelayFacts.
Local Open Scope Z_scope.

Lemma ntohl_range bs : 0 <= ntohl bs < 2 ^ 32.
Proof.
  unfold ntohl.
  destruct bs as [|b3 [|b2 [|b1 [|b0 [|? ?]]]]]; try lia.
  pose proof (byte.unsigned_range b3). pose proof (byte.unsigned_range b2).
  pose proof (byte.unsigned_range b1). pose proof (byte.unsigned_range b0).
  lia.
Qed.

(** X23: [recv_msg] never hands back more than it was sent.  Whatever
    bytes arrive, it either fails (returning -1 and no payload), or the
    stream starts with a 12-byte header with the magic "TBGR" and version
    1, the returned type is the type byte of that header, the returned
    length is its length field and at most 4 MiB, the payload is exactly
    the next [length] bytes of the stream (NULL when the length is 0), and
    the bytes after them are left unread. *)
Theorem X23_recv_msg_sound (malloc_ok : bool) (stream : list byte) :
  let '(m, rest) := recv_msg malloc_ok stream in
  m = recv_fail \/
  exists raw body,
    stream = raw ++ body ++ rest /\
    length raw = TBG_RELAY_HDR_LEN /\
    take TBG_RELAY_MAGIC_LEN raw = TBG_RELAY_MAGIC /\
    byte.unsigned (nth 4 raw Byte.x00) = TBG_RELAY_VERSION /\
    ret m = byte.unsigned (nth 5 raw Byte.x00) /\ 0 <= ret m < 256 /\
    out_len m = ntohl (take 4 (drop 8 raw)) /\
    0 <= out_len m <= TBG_RELAY_MAX_MSG /\
    Z.of_nat (length body) = out_len m /\
    out_payload m = if out_len m >? 0 then Some body else None.
Proof.
  unfold recv_msg, recv_exact.
  destruct (TBG_RELAY_HDR_LEN <=? length stream)%nat eqn:E12; [|left; reflexivity].
  apply Nat.leb_le in E12.
  set (raw := take TBG_RELAY_HDR_LEN stream).
  set (rest0 := drop TBG_RELAY_HDR_LEN stream).
  assert (Hs : stream = raw ++ rest0) by (symmetry; apply take_drop).
  assert (Hraw : length raw = TBG_RELAY_HDR_LEN)
    by (subst raw; rewrite length_take; lia).
  cbn [hdr_of_bytes magic version msg_type length_be].
  destruct (memcmp_eq (take 4 raw) TBG_RELAY_MAGIC TBG_RELAY_MAGIC_LEN) eqn:Em;
    cbn [negb]; [|left; reflexivity].
  apply memcmp_eq_true in Em;
    [| rewrite length_take; unfold TBG_RELAY_HDR_LEN, TBG_RELAY_MAGIC_LEN in *; lia
     | reflexivity].
  destruct (byte.unsigned (nth 4 raw Byte.x00) =? TBG_RELAY_VERSION) eqn:Ev;
    cbn [negb]; [|left; reflexivity].
  apply Z.eqb_eq in Ev.
  pose proof (ntohl_range (take 4 (drop 8 raw))) as Hn.
  pose proof (byte.unsigned_range (nth 5 raw Byte.x00)) as Ht.
  change (2 ^ 8) with 256 in Ht.
  set (len := ntohl (take 4 (drop 8 raw))) in *.
  destruct (len >? TBG_RELAY_MAX_MSG) eqn:El; [left; reflexivity|].
  rewrite Z.gtb_ltb in El. apply Z.ltb_ge in El.
  destruct (len >? 0) eqn:E0.
  - destruct malloc_ok; cbn [negb]; [|left; reflexivity].
    destruct (Z.to_nat len <=? length rest0)%nat eqn:Eb; [|left; reflexivity].
    apply Nat.leb_le in Eb. right.
    exists raw, (take (Z.to_nat len) rest0).
    cbn [ret out_len out_payload]. rewrite E0, take_drop.
    repeat split; try assumption; try lia.
    rewrite length_take. lia.
  - right. exists raw, []. cbn [ret out_len out_payload app length].
    rewrite E0. rewrite Z.gtb_ltb in E0. apply Z.ltb_ge in E0.
    repeat split; try assumption; try lia.
Qed.

(** *** The peer table of the primary *)

Lemma first_inactive_spec ps :
  match first_inactive ps with
  | Some i =>
      (exists p, ps !! i = Some p /\ active p = false) /\
      forall j p, (j < i)%nat -> ps !! j = Some p -> active p = true
  | None => Forall (fun p => active p = true) ps
  end.
Proof.
  induction ps as [|p ps IH]; [constructor|]. cbn [first_inactive].
  destruct (active p) eqn:Ea; cbn [negb].
  - destruct (first_inactive ps) as [i|].
    + destruct IH as [(q & Hq & Hqa) Hlt]. split; [exists q; auto|].
      intros [|j] p' Hj Hp'; [injection Hp' as <-; exact Ea|].
      apply (Hlt j); [lia | exact Hp'].
    + constructor; assumption.
  - split; [exists p; auto|]. intros j p' Hj. lia.
Qed.

Lemma count_active_range ps : 0 <= count_active ps <= Z.of_nat (length ps).
Proof.
  induction ps as [|p ps IH]; cbn [count_active length]; [lia|].
  destruct (active p); lia.
Qed.

Lemma count_active_all ps :
  count_active ps = Z.of_nat (length ps) <->
  Forall (fun p => active p = true) ps.
Proof.
  induction ps as [|p ps IH]; cbn [count_active length].
  - split; [constructor | reflexivity].
  - pose proof (count_active_range ps). split.
    + intros H1. destruct (active p) eqn:Ea; [|lia].
      constructor; [exact Ea | apply IH; lia].
    + intros HF. inversion HF as [|? ? Ea HF']; subst.
      rewrite Ea. apply IH in HF'. lia.
Qed.

Lemma count_active_insert ps :
  forall i p p',
    ps !! i = Some p ->
    count_active (<[i := p']> ps)
    = count_active ps - (if active p then 1 else 0)
      + (if active p' then 1 else 0).
Proof.
  induction ps as [|q ps IH]; intros [|i] p p' H; try discriminate H.
  - injection H as ->. cbn [count_active]. cbn. lia.
  - change (<[S i := p']> (q :: ps)) with (q :: <[i := p']> ps).
    cbn [count_active]. rewrite (IH i p p' H). lia.
Qed.

Lemma count_active_take ps :
  forall n,
    (forall i p, ps !! i = Some p -> active p = true -> (i < n)%nat) ->
    count_active (take n ps) = count_active ps.
Proof.
  induction ps as [|q ps IH]; intros n H; [destruct n; reflexivity|].
  destruct n as [|n].
  - cbn [take count_active].
    assert (Hq : active q = false).
    { destruct (active q) eqn:E; [|reflexivity].
      specialize (H 0%nat q eq_refl E). lia. }
    rewrite Hq.
    assert (H0 : count_active ps = 0).
    { specialize (IH 0%nat). cbn [take count_active] in IH.
      symmetry. apply IH. intros i p Hi Ha.
      specialize (H (S i) p Hi Ha). lia. }
    lia.
  - cbn [take count_active]. rewrite IH; [reflexivity|].
    intros i p Hi Ha. specialize (H (S i) p Hi Ha). lia.
Qed.

Lemma count_active_imap ps :
  forall f : nat -> tbg_relay_peer -> tbg_relay_peer,
    (forall i p, active (f i p) = true -> active p = true) ->
    count_active (imap f ps) <= count_active ps.
Proof.
  induction ps as [|q ps IH]; intros f Hf; [cbn; lia|].
  cbn [imap count_active].
  specialize (IH (f ∘ S) ltac:(intros i p; apply Hf)).
  specialize (Hf 0%nat q).
  destruct (active (f 0%nat q)); [rewrite Hf by reflexivity|];
    destruct (active q); lia.
Qed.

Lemma peer_count_all st :
  server_inv st -> tbg_relay_peer_count st = count_active (peers st).
Proof.
  intros (_ & Hc & Ha). unfold tbg_relay_peer_count.
  apply count_active_take. intros i p Hi Hp.
  specialize (Ha i p Hi Hp). lia.
Qed.

Lemma heartbeat_peer_active now ok p :
  active (heartbeat_peer now ok p) = true <->
  active p = true /\ ok = true /\
  now - peer_last_heartbeat p <= TBG_RELAY_HB_INTERVAL * 3.
Proof.
  unfold heartbeat_peer, TBG_RELAY_HB_INTERVAL.
  destruct (active p) eqn:Ea; cbn [negb].
  - destruct ok; cbn [negb].
    + destruct (now - peer_last_heartbeat p >? 3 * 3) eqn:E; cbn [active set_active].
      * split; [discriminate | intros (_ & _ & H); lia].
      * rewrite Ea. split; [intros _; repeat split; lia | reflexivity].
    + cbn. split; [discriminate | intros (_ & H & _); discriminate H].
  - rewrite Ea. split; [discriminate | intros (H & _); discriminate H].
Qed.

Lemma accept_inv now client_fd thread_ok st :
  server_inv st ->
  server_inv (snd (listener_accept now client_fd thread_ok st)).
Proof.
  intros (Hl & Hc & Ha). unfold listener_accept.
  rewrite take_ge by lia.
  pose proof (first_inactive_spec (peers st)) as Hs.
  destruct (first_inactive (peers st)) as [slot|]; [|cbn; repeat split; auto; lia].
  destruct Hs as [(q & Hq & _) _].
  assert (Hslot : (slot < 16)%nat).
  { apply lookup_lt_Some in Hq. rewrite Hl in Hq.
    change (Z.to_nat TBG_RELAY_MAX_PEERS) with 16%nat in Hq. exact Hq. }
  unfold TBG_RELAY_MAX_PEERS in *.
  assert (Hgen : forall x,
    server_inv
      {| peers := <[slot := x]> (peers st);
         peer_count := if Z.of_nat slot >=? peer_count st
                       then Z.of_nat slot + 1 else peer_count st;
         running := running st |}).
  { intros x. unfold server_inv. cbn [peers peer_count].
    split; [rewrite length_insert; exact Hl|].
    split; [destruct (Z.of_nat slot >=? peer_count st) eqn:E;
            unfold TBG_RELAY_MAX_PEERS; lia|].
    intros i p Hi Hp. destruct (Nat.eq_dec i slot) as [-> | Hne].
    - destruct (Z.of_nat slot >=? peer_count st) eqn:E; lia.
    - rewrite list_lookup_insert_ne in Hi by auto.
      specialize (Ha i p Hi Hp).
      destruct (Z.of_nat slot >=? peer_count st) eqn:E; lia. }
  destruct thread_ok; cbn [snd]; apply Hgen.
Qed.

Lemma server_reachable_inv st :
  server_reachable st -> server_inv st /\ running st = true.
Proof.
  induction 1 as [|s st Hr [IH Hrun]].
  - split; [|reflexivity]. unfold server_inv. cbn.
    split; [reflexivity|]. split; [unfold TBG_RELAY_MAX_PEERS; lia|].
    intros i p Hi Hp. apply lookup_replicate_1 in Hi. destruct Hi as [-> _].
    discriminate Hp.
  - destruct s as [now fd0 ok | now send_ok | i now m | i]; cbn [run_server_step].
    + split; [apply accept_inv; exact IH|].
      unfold listener_accept.
      destruct (first_inactive _); [destruct ok|]; exact Hrun.
    + split; [|exact Hrun]. destruct IH as (Hl & Hc & Ha).
      unfold server_inv, heartbeat_sender. cbn [peers peer_count].
      split; [rewrite length_imap; exact Hl|]. split; [exact Hc|].
      intros i p Hi Hp. apply list_lookup_imap_Some in Hi.
      destruct Hi as (q & Hq & ->).
      destruct (Z.of_nat i <? peer_count st) eqn:E; [apply Z.ltb_lt; exact E|].
      apply (Ha i q Hq Hp).
    + unfold peer_handler_dispatch.
      destruct (peers st !! i) as [p|] eqn:Ei; [|auto].
      split; [|exact Hrun]. destruct IH as (Hl & Hc & Ha).
      unfold server_inv. cbn [peers peer_count].
      split; [rewrite length_insert; exact Hl|]. split; [exact Hc|].
      intros j q Hj Hq. destruct (Nat.eq_dec j i) as [-> | Hne].
      * rewrite list_lookup_insert_eq in Hj by (eapply lookup_lt_Some; eauto).
        injection Hj as <-. apply (Ha i p Ei).
        revert Hq. unfold peer_dispatch.
        destruct (ret m =? TBG_MSG_HEARTBEAT); [auto|].
        destruct (ret m =? TBG_MSG_REGISTER); auto.
      * rewrite list_lookup_insert_ne in Hj by auto. apply (Ha j q Hj Hq).
    + unfold peer_handler_exit.
      destruct (peers st !! i) as [p|] eqn:Ei; [|auto].
      split; [|exact Hrun]. destruct IH as (Hl & Hc & Ha).
      unfold server_inv. cbn [peers peer_count].
      split; [rewrite length_insert; exact Hl|]. split; [exact Hc|].
      intros j q Hj Hq. destruct (Nat.eq_dec j i) as [-> | Hne].
      * rewrite list_lookup_insert_eq in Hj by (eapply lookup_lt_Some; eauto).
        injection Hj as <-. discriminate Hq.
      * rewrite list_lookup_insert_ne in Hj by auto. apply (Ha j q Hj Hq).
Qed.

(** X24: the listener gives a new relay the lowest free slot and turns
    the 17th away.  In any state the primary can reach, an accepted
    connection is stored, as a fresh peer named "unknown", in the first
    slot that is not active, all other slots are left alone and
    [tbg_relay_peer_count] grows by one; with 16 active peers the
    connection is closed and nothing changes; a connection whose handler
    thread cannot be started is closed and not counted.  The count never
    exceeds 16. *)
Theorem X24_listener_accept (st : tbg_relay_server_state) (now client_fd : Z)
  (thread_ok : bool) :
  server_reachable st ->
  let '(slot, closed, st') := listener_accept now client_fd thread_ok st in
  0 <= tbg_relay_peer_count st <= TBG_RELAY_MAX_PEERS /\
  0 <= tbg_relay_peer_count st' <= TBG_RELAY_MAX_PEERS /\
  match slot with
  | Some i =>
      thread_ok = true /\ closed = [] /\
      tbg_relay_peer_count st < TBG_RELAY_MAX_PEERS /\
      peers st' = <[i := fresh_peer client_fd now]> (peers st) /\
      (exists old, peers st !! i = Some old /\ active old = false) /\
      (forall j p, (j < i)%nat -> peers st !! j = Some p -> active p = true) /\
      tbg_relay_peer_count st' = tbg_relay_peer_count st + 1
  | None =>
      closed = [client_fd] /\
      tbg_relay_peer_count st' = tbg_relay_peer_count st /\
      (thread_ok = true ->
       tbg_relay_peer_count st = TBG_RELAY_MAX_PEERS /\ st' = st)
  end.
Proof.
  intros Hr. destruct (server_reachable_inv st Hr) as [Hinv _].
  pose proof (accept_inv now client_fd thread_ok st Hinv) as Hinv'.
  pose proof (peer_count_all _ Hinv') as Hpc'.
  pose proof (peer_count_all st Hinv) as Hpc.
  pose proof (count_active_range (peers st)) as Hrange.
  pose proof (count_active_range
                (peers (snd (listener_accept now client_fd thread_ok st))))
    as Hrange'.
  destruct Hinv as (Hl & Hc & Ha). destruct Hinv' as (Hl' & _).
  rewrite Hl in Hrange. rewrite Hl' in Hrange'.
  revert Hpc' Hrange'. unfold listener_accept.
  rewrite take_ge by lia.
  pose proof (first_inactive_spec (peers st)) as Hs.
  unfold TBG_RELAY_MAX_PEERS in *.
  destruct (first_inactive (peers st)) as [slot|].
  - destruct Hs as [(q & Hq & Hqa) Hlt].
    destruct thread_ok; cbn [snd peers]; intros Hpc' Hrange'.
    + rewrite Hpc' in *. rewrite Hpc in *.
      rewrite (count_active_insert _ _ q _ Hq) in *. rewrite Hqa in *.
      cbn [fresh_peer active] in *.
      repeat split; try lia; try reflexivity; [exists q; auto | exact Hlt].
    + rewrite Hpc' in *. rewrite Hpc in *.
      rewrite (count_active_insert _ _ q _ Hq) in *. rewrite Hqa in *.
      cbn [fresh_peer set_active active] in *.
      repeat split; try lia; try reflexivity; discriminate.
  - cbn [snd]. intros _ _. rewrite Hpc.
    apply count_active_all in Hs. rewrite Hl in Hs.
    repeat split; try lia; reflexivity.
Qed.

Lemma X24_listener_accept_witness :
  server_reachable (snd (tbg_relay_server_init true true zero_server)) /\
  fst (fst (listener_accept 100 7 true
              (snd (tbg_relay_server_init true true zero_server)))) = Some 0%nat.
Proof.
  assert (H : server_reachable
                (snd (tbg_relay_server_init true true zero_server)))
    by constructor.
  split; [exact H|].
  pose proof (X24_listener_accept _ 100 7 true H) as P.
  destruct (listener_accept 100 7 true _) as [[slot closed] st'] eqn:E.
  cbn [fst]. destruct P as (_ & _ & P).
  destruct slot as [i|].
  - destruct P as (_ & _ & _ & _ & (old & Ho & Ha) & Hlt & _).
    destruct i as [|i]; [reflexivity|].
    specialize (Hlt 0%nat zero_peer ltac:(lia) eq_refl). discriminate Hlt.
  - destruct P as (_ & _ & P). destruct (P eq_refl) as [P1 _].
    vm_compute in P1. discriminate P1.
Defined.

(** X25: one pass of the heartbeat sender only ever removes peers.  In
    any state the primary can reach, a peer is active after the pass
    exactly when it was active before, its heartbeat could be sent and
    its last heartbeat is at most 9 seconds old; descriptor, region and
    last heartbeat of every slot are unchanged, and
    [tbg_relay_peer_count] does not grow. *)
Theorem X25_heartbeat_pass_reaps (st : tbg_relay_server_state) (now : Z)
  (send_ok : nat -> bool) :
  server_reachable st ->
  let st' := heartbeat_sender now send_ok st in
  (forall i p, peers st !! i = Some p ->
     exists p',
       peers st' !! i = Some p' /\
       peer_fd p' = peer_fd p /\ region p' = region p /\
       peer_last_heartbeat p' = peer_last_heartbeat p /\
       (active p' = true <->
        active p = true /\ send_ok i = true /\
        now - peer_last_heartbeat p <= 9)) /\
  tbg_relay_peer_count st' <= tbg_relay_peer_count st.
Proof.
  intros Hr st'. destruct (server_reachable_inv st Hr) as [Hinv _].
  assert (Hr' : server_reachable st')
    by (apply (sreach_step (SrvHeartbeat now send_ok)); exact Hr).
  destruct (server_reachable_inv st' Hr') as [Hinv' _].
  split.
  - intros i p Hi. subst st'. unfold heartbeat_sender. cbn [peers].
    rewrite list_lookup_imap, Hi. cbn [fmap option_fmap option_map].
    eexists. split; [reflexivity|].
    destruct Hinv as (_ & _ & Ha).
    destruct (Z.of_nat i <? peer_count st) eqn:E.
    + assert (Hf : peer_fd (heartbeat_peer now (send_ok i) p) = peer_fd p /\
                   region (heartbeat_peer now (send_ok i) p) = region p /\
                   peer_last_heartbeat (heartbeat_peer now (send_ok i) p)
                     = peer_last_heartbeat p).
      { unfold heartbeat_peer. destruct (negb (active p)); [auto|].
        destruct (negb (send_ok i)); [cbn; auto|].
        destruct (_ >? _); cbn; auto. }
      destruct Hf as (F1 & F2 & F3).
      split; [exact F1|]. split; [exact F2|]. split; [exact F3|].
      exact (heartbeat_peer_active now (send_ok i) p).
    + apply Z.ltb_ge in E.
      split; [reflexivity|]. split; [reflexivity|]. split; [reflexivity|].
      split.
      * intros Hp. specialize (Ha i p Hi Hp). lia.
      * intros (Hp & _). exact Hp.
  - rewrite (peer_count_all _ Hinv'), (peer_count_all _ Hinv).
    subst st'. unfold heartbeat_sender. cbn [peers].
    apply count_active_imap. intros i p.
    destruct (Z.of_nat i <? peer_count st); [|auto].
    intros H. apply heartbeat_peer_active in H. apply H.
Qed.

Lemma X25_heartbeat_pass_reaps_witness :
  server_reachable
    (snd (listener_accept 100 7 true
            (snd (tbg_relay_server_init true true zero_server)))) /\
  tbg_relay_peer_count
    (heartbeat_sender 110 (fun _ => true)
       (snd (listener_accept 100 7 true
               (snd (tbg_relay_server_init true true zero_server)))))
  <= tbg_relay_peer_count
       (snd (listener_accept 100 7 true
               (snd (tbg_relay_server_init true true zero_server)))).
Proof.
  assert (H : server_reachable
                (snd (listener_accept 100 7 true
                        (snd (tbg_relay_server_init true true zero_server)))))
    by (apply (sreach_step (SrvAccept 100 7 true)); constructor).
  split; [exact H|].
  exact (proj2 (X25_heartbeat_pass_reaps _ 110 (fun _ => true) H)).
Defined.

(** *** From the primary to the relay and back *)

Lemma send_msg_take t p len :
  0 < len <= Z.of_nat (length p) ->
  snd (send_msg t (Some p) len) =
  snd (send_msg t (Some (take (Z.to_nat len) p))
         (Z.of_nat (length (take (Z.to_nat len) p)))).
Proof.
  intros H. unfold send_msg. cbn [snd].
  rewrite length_take.
  replace (Z.of_nat (Nat.min (Z.to_nat len) (length p))) with len by lia.
  destruct (len >? 0); [rewrite take_idemp|]; reflexivity.
Qed.

Lemma send_msg_oversized t p len rest :
  TBG_RELAY_MAX_MSG < len < 2 ^ 32 ->
  fst (recv_msg true (snd (send_msg t (Some p) len) ++ rest)) = recv_fail.
Proof.
  intros H. unfold send_msg. cbn [snd]. rewrite <- app_assoc.
  rewrite recv_msg_bad_header; [reflexivity | reflexivity |].
  right. right.
  cbn [hdr_bytes magic version msg_type reserved length_be app take drop
       TBG_RELAY_MAGIC TBG_RELAY_MAGIC_LEN htonl].
  change [byte.of_Z (len / 2 ^ 24); byte.of_Z (len / 2 ^ 16);
          byte.of_Z (len / 2 ^ 8); byte.of_Z len] with (htonl len).
  unfold TBG_RELAY_MAX_MSG in *.
  rewrite ntohl_htonl by lia. lia.
Qed.

(** X26: a template pushed by the primary reaches the callback of the
    relay byte for byte.  [tbg_relay_push_template] writes one and the
    same frame to exactly the active peers whose socket takes it; a relay
    that reads this frame with [recv_msg] and dispatches it, with a
    callback registered and not in independent mode, hands the first
    [len] bytes of the template to the callback.  This holds for
    templates of at most 4 MiB; a larger one is sent all the same, and
    [recv_msg] on the relay fails on it. *)
Theorem X26_template_push_end_to_end (st : tbg_relay_server_state)
  (send_ok : nat -> bool) (t : list byte) (len : Z) (c : client) (now : Z)
  (rest : list byte) :
  server_reachable st ->
  0 < len <= Z.of_nat (length t) -> len <= INT_MAX ->
  template_callback c = true ->
  independent_mode (client_state c) = false ->
  let wire := snd (send_msg TBG_MSG_TEMPLATE (Some t) len) in
  (forall fd0 bytes,
     In (fd0, bytes) (tbg_relay_push_template send_ok (Some t) len st) <->
     bytes = wire /\
     exists i p, peers st !! i = Some p /\ active p = true /\
                 send_ok i = true /\ peer_fd p = fd0) /\
  (len <= TBG_RELAY_MAX_MSG ->
   recv_msg true (wire ++ rest)
     = (msg_of TBG_MSG_TEMPLATE (take (Z.to_nat len) t), rest) /\
   delivers c
     (receiver_dispatch now
        (msg_of TBG_MSG_TEMPLATE (take (Z.to_nat len) t)) c)
     (take (Z.to_nat len) t)) /\
  (TBG_RELAY_MAX_MSG < len ->
   fst (recv_msg true (wire ++ rest)) = recv_fail).
Proof.
  intros Hr Hlen Hint Hcb Hind wire.
  destruct (server_reachable_inv st Hr) as [(_ & _ & Ha) Hrun].
  split; [|split].
  - intros fd0 bytes. unfold tbg_relay_push_template.
    rewrite Hrun. cbn [negb orb].
    replace (len <=? 0) with false by (symmetry; apply Z.leb_gt; lia).
    fold wire. rewrite in_concat. split.
    + intros (l & Hl & Hin). apply list_elem_of_In in Hl.
      apply elem_of_lookup_imap_1 in Hl. destruct Hl as (i & p & -> & Hp).
      destruct (Z.of_nat i <? peer_count st); cbn [andb] in Hin; [|destruct Hin].
      destruct (active p) eqn:Eact; cbn [andb] in Hin; [|destruct Hin].
      destruct (send_ok i) eqn:Eok; [|destruct Hin].
      destruct Hin as [[= <- <-] | []].
      split; [reflexivity|]. exists i, p. auto.
    + intros (-> & i & p & Hp & Hact & Hok & <-).
      exists [(peer_fd p, wire)]. split; [|left; reflexivity].
      apply list_elem_of_In.
      pose proof (elem_of_lookup_imap_2
                    (fun i p => if (Z.of_nat i <? peer_count st) && active p
                                   && send_ok i
                                then [(peer_fd p, wire)] else [])
                    (peers st) p i Hp) as Hin.
      cbn beta in Hin. rewrite Hact, Hok in Hin.
      replace (Z.of_nat i <? peer_count st) with true in Hin
        by (symmetry; apply Z.ltb_lt; apply (Ha i p Hp Hact)).
      exact Hin.
  - intros Hmax. subst wire. rewrite (send_msg_take _ _ _ Hlen).
    assert (Hl : length (take (Z.to_nat len) t) = Z.to_nat len)
      by (rewrite length_take; lia).
    split.
    + apply recv_msg_send_msg; [unfold TBG_MSG_TEMPLATE; lia|].
      rewrite Hl. lia.
    + apply dispatch_template_delivers; [exact Hcb | | exact Hind].
      intros E. rewrite E in Hl. cbn in Hl. lia.
  - intros Hbig. apply send_msg_oversized. unfold INT_MAX in Hint. lia.
Qed.

Lemma X26_template_push_end_to_end_witness :
  (server_reachable
     (snd (listener_accept 100 7 true
             (snd (tbg_relay_server_init true true zero_server)))) /\
   0 < 9 <= Z.of_nat (length job_payload) /\ 9 <= INT_MAX /\
   template_callback connected_client = true /\
   independent_mode (client_state connected_client) = false) /\
  delivers connected_client
    (receiver_dispatch 101
       (msg_of TBG_MSG_TEMPLATE (take (Z.to_nat 9) job_payload))
       connected_client)
    (take (Z.to_nat 9) job_payload).
Proof.
  assert (H1 : server_reachable
                 (snd (listener_accept 100 7 true
                         (snd (tbg_relay_server_init true true zero_server)))))
    by (apply (sreach_step (SrvAccept 100 7 true)); constructor).
  assert (H2 : 0 < 9 <= Z.of_nat (length job_payload)) by (cbn; lia).
  assert (H3 : 9 <= INT_MAX) by (vm_compute; discriminate).
  assert (H4 : template_callback connected_client = true) by reflexivity.
  assert (H5 : independent_mode (client_state connected_client) = false)
    by reflexivity.
  split; [tauto|].
  destruct (X26_template_push_end_to_end _ (fun _ => true) job_payload 9
              connected_client 101 [] H1 H2 H3 H4 H5) as (_ & P & _).
  apply P. vm_compute. discriminate.
Defined.

Lemma cstring_take_cstring r :
  forall n, cstring (take n (cstring r)) = take n (cstring r).
Proof.
  induction r as [|b r IH]; intros n; [destruct n; reflexivity|].
  cbn [cstring]. destruct (Byte.eqb b Byte.x00) eqn:E; [destruct n; reflexivity|].
  destruct n as [|n]; [reflexivity|]. cbn [take cstring]. rewrite E, IH.
  reflexivity.
Qed.

Lemma take_cstring_length b : take (length (cstring b)) b = cstring b.
Proof.
  induction b as [|x b IH]; [reflexivity|]. cbn [cstring].
  destruct (Byte.eqb x Byte.x00); [reflexivity|].
  cbn [length take]. rewrite IH. reflexivity.
Qed.

(** The tag the relay registers with: the first 31 bytes of the region
    it was given, "unknown" when it was given none. *)
Lemma client_region_tag r :
  cstring (client_region_init r) =
    match r with
    | Some bytes => take 31 (cstring bytes)
    | None => cstring client_region_default
    end /\
  (length (cstring (client_region_init r)) <= 31)%nat.
Proof.
  destruct r as [bytes|]; [|split; [reflexivity | cbn; lia]].
  unfold client_region_init, strncpy.
  change (REGION_SIZE - 1)%nat with 31%nat.
  set (s := take 31 (cstring bytes)).
  assert (Hs : cstring s = s) by apply cstring_take_cstring.
  assert (Hl : (length s <= 31)%nat) by (subst s; rewrite length_take; lia).
  assert (Htail : exists tail,
            replicate (31 - length s) Byte.x00 ++ drop 31 client_region_default
            = Byte.x00 :: tail).
  { change (drop 31 client_region_default) with [Byte.x00].
    destruct (31 - length s)%nat; cbn; eauto. }
  destruct Htail as [tail ->].
  assert (Hc : cstring (s ++ Byte.x00 :: tail) = s)
    by (rewrite <- Hs at 1; rewrite cstring_cut; exact Hs).
  rewrite Hc. split; [reflexivity | exact Hl].
Qed.

Lemma register_frame_payload buf :
  register_frame buf =
  snd (send_msg TBG_MSG_REGISTER (Some (cstring buf))
         (Z.of_nat (length (cstring buf)))).
Proof.
  unfold register_frame, send_msg. cbn [snd].
  destruct (Z.of_nat (length (cstring buf)) >? 0); [|reflexivity].
  rewrite Nat2Z.id, take_cstring_length.
  rewrite (take_ge (cstring buf)) by lia. reflexivity.
Qed.

(** X27: the region a relay is started with is the region the primary
    records for it.  The REGISTER frame the relay sends after connecting
    carries the first 31 bytes of its region string ("unknown" when it was
    given none); the primary's handler, reading that frame with
    [recv_msg], always passes its length check and records exactly that
    tag, refreshing the heartbeat time.  Only an empty region leaves the
    recorded region as it was. *)
Theorem X27_register_end_to_end (r : option (list byte))
  (peer : tbg_relay_peer) (now : Z) (rest : list byte) :
  length (region peer) = REGION_SIZE ->
  let tag := match r with
             | Some bytes => take 31 (cstring bytes)
             | None => cstring client_region_default
             end in
  let '(m, rest') :=
    recv_msg true (register_frame (client_region_init r) ++ rest) in
  let peer' := peer_dispatch now m peer in
  rest' = rest /\ ret m = TBG_MSG_REGISTER /\
  peer_last_heartbeat peer' = now /\ active peer' = active peer /\
  length (region peer') = REGION_SIZE /\
  (tag <> [] -> cstring (region peer') = tag) /\
  (tag = [] -> region peer' = region peer).
Proof.
  intros Hreg tag.
  destruct (client_region_tag r) as [Htag Hlen]. fold tag in Htag.
  rewrite register_frame_payload, Htag in *.
  rewrite recv_msg_send_msg;
    [| unfold TBG_MSG_REGISTER; lia | unfold TBG_RELAY_MAX_MSG; lia].
  cbv zeta. unfold peer_dispatch, msg_of. cbn [ret out_payload out_len].
  change (TBG_MSG_REGISTER =? TBG_MSG_HEARTBEAT) with false.
  change (TBG_MSG_REGISTER =? TBG_MSG_REGISTER) with true.
  cbn [peer_last_heartbeat active region].
  split; [reflexivity|]. split; [reflexivity|]. split; [reflexivity|].
  split; [reflexivity|].
  destruct tag as [|b tag'] eqn:Et.
  - split; [exact Hreg|]. split; [intros H; contradiction | reflexivity].
  - rewrite <- Et in *.
    replace (Z.of_nat (length tag) <? Z.of_nat REGION_SIZE) with true
      by (symmetry; apply Z.ltb_lt; unfold REGION_SIZE; lia).
    destruct (register_copy (region peer) tag Hreg) as [C1 C2].
    { rewrite Et in *. cbn [length] in *. lia. }
    split; [exact C2|]. split; [|intros H; rewrite Et in H; discriminate H].
    intros _. rewrite C1. subst tag.
    destruct r as [bytes|]; [apply cstring_take_cstring | reflexivity].
Qed.

Lemma X27_register_end_to_end_witness :
  length (region (fresh_peer 7 100)) = REGION_SIZE /\
  cstring (region
             (peer_dispatch 101
                (fst (recv_msg true
                        (register_frame (client_region_init (Some region_tag))
                         ++ [])))
                (fresh_peer 7 100))) = region_tag.
Proof.
  assert (H : length (region (fresh_peer 7 100)) = REGION_SIZE) by reflexivity.
  split; [exact H|].
  pose proof (X27_register_end_to_end (Some region_tag) (fresh_peer 7 100)
                101 [] H) as P.
  cbv zeta in P.
  destruct (recv_msg true _) as [m rest'].
  cbn [fst]. destruct P as (_ & _ & _ & _ & _ & P & _).
  apply P. discriminate.
Defined.



End RelayExtra.
